(** * Othello: move rules, terminal test and alpha-beta search of main.py

    A shallow embedding of the game engine of [main.py] and the proofs of
    its specification.  Boards are 8x8 arrays of [WHITE], [NOBODY], [BLACK]
    (the integers 1, 0, -1); the functions that mutate a board ([capture],
    [play_move]) run on a store of board objects, the functions that only
    read one take the board's value. *)

From stdpp Require Import base option list numbers sorting pretty.
From Stdlib Require Import ZArith Lia Bool List Ascii.
Import ListNotations.
Local Open Scope Z_scope.

(** ** Constants of the module *)

Definition NUM_COLS : Z := 8.
Definition WHITE : Z := 1.
Definition NOBODY : Z := 0.
Definition BLACK : Z := -1.
Definition TIE : Z := 2.
Definition WIN_VAL : Z := 100.
Definition DEMO_SEARCH_DEPTH : Z := 5.

(** [sys.maxsize] of a 64-bit CPython. *)
Definition maxsize : Z := 2 ^ 63 - 1.

Definition DIRECTIONS : list (Z * Z) :=
  [(-1, -1); (-1, 0); (-1, 1); (0, -1); (0, 1); (1, -1); (1, 0); (1, 1)].

(** ** Boards: numpy arrays of shape (NUM_COLS, NUM_COLS) *)

Abbreviation Board := (list (list Z)).

(** Index normalisation of one axis of the array: [0 .. 7] as they are,
    [-8 .. -1] counted from the end, anything else is an [IndexError]
    ([None]). *)
Definition py_index (i : Z) : option nat :=
  if (0 <=? i) && (i <? NUM_COLS) then Some (Z.to_nat i)
  else if (- NUM_COLS <=? i) && (i <? 0) then Some (Z.to_nat (i + NUM_COLS))
  else None.

(** [board[row][col]] *)
Definition getitem (board : Board) (row col : Z) : option Z :=
  i ← py_index row; line ← board !! i; j ← py_index col; line !! j.

(** [board[row][col] = v] *)
Definition setitem (board : Board) (row col v : Z) : option Board :=
  i ← py_index row; line ← board !! i; j ← py_index col;
  _ ← line !! j; Some (<[i := <[j := v]> line]> board).

(** A read whose indices the code has checked to lie in [0, NUM_COLS). *)
Definition cell (board : Board) (row col : Z) : Z :=
  default NOBODY (getitem board row col).

(** [range(n)] *)
Definition range (n : Z) : list Z := map Z.of_nat (seq 0 (Z.to_nat n)).

(** [np.zeros((NUM_COLS, NUM_COLS))] *)
Definition zeros : Board :=
  replicate (Z.to_nat NUM_COLS) (replicate (Z.to_nat NUM_COLS) 0).

(** [np.count_nonzero(board == v)] *)
Definition count_nonzero_eq (board : Board) (v : Z) : Z :=
  Z.of_nat (length (List.filter (fun x => x =? v) (concat board))).

Definition on_board (x : Z) : bool := (0 <=? x) && (x <? NUM_COLS).

Definition is_color (v : Z) : bool := (v =? WHITE) || (v =? NOBODY) || (v =? BLACK).

(** The boards the program works on: 8 rows of 8 cells, each cell one of
    the three colours. *)
Definition is_board (board : Board) : bool :=
  (Z.of_nat (length board) =? NUM_COLS)
  && forallb (fun line => (Z.of_nat (length line) =? NUM_COLS) && forallb is_color line) board.

Definition wf_board (board : Board) : Prop := is_board board = true.

(** ** Stores of board objects

    A board object is a location of the store; [copy.deepcopy] allocates a
    new one, an item assignment changes one in place. *)

Abbreviation Store := (list Board).

Definition deepcopy (σ : Store) (l : nat) : option (Store * nat) :=
  board ← σ !! l; Some (σ ++ [board], length σ).

(** ** Move rules *)

Definition starting_board : option Board :=
  board ← Some zeros;
  board ← setitem board 3 3 WHITE;
  board ← setitem board 3 4 BLACK;
  board ← setitem board 4 3 BLACK;
  setitem board 4 4 WHITE.

Definition find_winner (board : Board) : Z :=
  let white_count := count_nonzero_eq board WHITE in
  let black_count := count_nonzero_eq board BLACK in
  if white_count >? black_count then WHITE
  else if white_count <? black_count then BLACK
  else TIE.

(** The [while] loop of [captures_in_dir]; [fuel] bounds the number of
    times its condition is evaluated ([None]: still running). *)
Fixpoint scan_loop (fuel : nat) (board : Board)
    (scan_row scan_col row_delta col_delta friendly_color : Z) : option bool :=
  match fuel with
  | O => None
  | S fuel' =>
      if on_board scan_row && on_board scan_col then
        if cell board scan_row scan_col =? NOBODY then Some false
        else if cell board scan_row scan_col =? friendly_color then Some true
        else scan_loop fuel' board (scan_row + row_delta) (scan_col + col_delta)
               row_delta col_delta friendly_color
      else Some false
  end.

(** Along one of the [DIRECTIONS] the scan leaves the board after at most
    [NUM_COLS] cells, see [scan_loop_fuel]. *)
Definition scan_fuel : nat := S (Z.to_nat NUM_COLS).

Definition captures_in_dir (board : Board) (row row_delta col col_delta : Z)
    (white_turn : bool) : bool :=
  if (row + row_delta <? 0) || (row + row_delta >=? NUM_COLS) then false
  else if (col + col_delta <? 0) || (col + col_delta >=? NUM_COLS) then false
  else
    let enemy_color := if white_turn then BLACK else WHITE in
    if negb (cell board (row + row_delta) (col + col_delta) =? enemy_color) then false
    else
      let friendly_color := if white_turn then WHITE else BLACK in
      let scan_row := row + 2 * row_delta in
      let scan_col := col + 2 * col_delta in
      default false
        (scan_loop scan_fuel board scan_row scan_col row_delta col_delta friendly_color).

Definition can_capture (board : Board) (row col : Z) (white_turn : bool) : bool :=
  existsb (fun '(r_delta, c_delta) =>
             captures_in_dir board row r_delta col c_delta white_turn) DIRECTIONS.

Definition generate_legal_moves (board : Board) (white_turn : bool) : list (Z * Z) :=
  flat_map (fun row =>
    flat_map (fun col =>
      if negb (cell board row col =? NOBODY) then []
      else if can_capture board row col white_turn then [(row, col)]
      else []) (range NUM_COLS)) (range NUM_COLS).

(** The flipping [while] loop of [capture], on the board object [l] of the
    store; the reads are unguarded, so an index outside the array raises
    ([None]). *)
Fixpoint flip_loop (fuel : nat) (σ : Store) (l : nat)
    (flip_row flip_col row_delta col_delta enemy_color : Z) : option Store :=
  match fuel with
  | O => None
  | S fuel' =>
      board ← σ !! l;
      v ← getitem board flip_row flip_col;
      if v =? enemy_color then
        board' ← setitem board flip_row flip_col (- enemy_color);
        flip_loop fuel' (<[l := board']> σ) l
          (flip_row + row_delta) (flip_col + col_delta) row_delta col_delta enemy_color
      else Some σ
  end.

(** A flipped run ends at the latest at the array's far side, see
    [flip_loop_fuel]. *)
Definition flip_fuel : nat := S (2 * Z.to_nat NUM_COLS).

Fixpoint capture_dirs (dirs : list (Z * Z)) (σ : Store) (l : nat) (row col : Z)
    (white_turn : bool) : option Store :=
  match dirs with
  | [] => Some σ
  | (row_delta, col_delta) :: dirs' =>
      let enemy_color := if white_turn then BLACK else WHITE in
      board ← σ !! l;
      σ' ← (if captures_in_dir board row row_delta col col_delta white_turn then
              flip_loop flip_fuel σ l (row + row_delta) (col + col_delta)
                row_delta col_delta enemy_color
            else Some σ);
      capture_dirs dirs' σ' l row col white_turn
  end.

(** [capture] changes the board object [l] in place and returns it. *)
Definition capture (σ : Store) (l : nat) (row col : Z) (white_turn : bool)
    : option (Store * nat) :=
  σ' ← capture_dirs DIRECTIONS σ l row col white_turn; Some (σ', l).

Definition play_move (σ : Store) (l : nat) (move : Z * Z) (white_turn : bool)
    : option (Store * nat) :=
  '(σ, new_board) ← deepcopy σ l;
  board ← σ !! new_board;
  board ← setitem board move.1 move.2 (if white_turn then WHITE else BLACK);
  capture (<[new_board := board]> σ) new_board move.1 move.2 white_turn.

(** [play_move] run on a store that holds [board] alone, and the value of
    the board object it returns.  The search below hands boards from one
    call to the next by value: [play_move_any_store] shows that the
    result in any store is this board, in a new object. *)
Definition play_move_value (board : Board) (move : Z * Z) (white_turn : bool)
    : option Board :=
  '(σ, new_board) ← play_move [board] 0%nat move white_turn; σ !! new_board.

Definition evaluation_function (board : Board) : Z :=
  count_nonzero_eq board WHITE - count_nonzero_eq board BLACK.

Definition check_game_over (board : Board) : Z :=
  let white_legal_moves := generate_legal_moves board true in
  if negb (Z.of_nat (length white_legal_moves) =? 0) then NOBODY
  else
    let black_legal_moves := generate_legal_moves board false in
    if negb (Z.of_nat (length black_legal_moves) =? 0) then NOBODY
    else find_winner board.

(** ** Search *)

(** The values [alpha] and [beta] take: an integer score, [float("-inf")]
    or [float("inf")]. *)
Inductive bound : Type :=
  | NegInf
  | Fin (z : Z)
  | PosInf.

(** [x <= y] *)
Definition ble (x y : bound) : bool :=
  match x, y with
  | NegInf, _ => true
  | _, PosInf => true
  | Fin a, Fin b => a <=? b
  | _, _ => false
  end.

(** [x < y] *)
Definition blt (x y : bound) : bool := negb (ble y x).

(** The [for] loop of [find_max_score]; [rec] is [minimax_value]. *)
Fixpoint max_loop (rec : Board → bool → Z → bound → bound → option Z)
    (board : Board) (search_depth : Z) (beta : bound)
    (legal_moves : list (Z * Z)) (maxScore : Z) (alpha : bound) : option Z :=
  match legal_moves with
  | [] => Some maxScore
  | m :: rest =>
      updated_board ← play_move_value board m true;
      score ← rec updated_board false (search_depth - 1) alpha beta;
      let maxScore := if score >? maxScore then score else maxScore in
      let alpha := if blt alpha (Fin score) then Fin score else alpha in
      if ble beta alpha then Some maxScore
      else max_loop rec board search_depth beta rest maxScore alpha
  end.

Definition find_max_score (rec : Board → bool → Z → bound → bound → option Z)
    (maxScore : Z) (board : Board) (white_turn : bool) (search_depth : Z)
    (alpha beta : bound) : option Z :=
  let legal_moves := generate_legal_moves board true in
  if Z.of_nat (length legal_moves) =? 0 then
    rec board false search_depth alpha beta
  else max_loop rec board search_depth beta legal_moves maxScore alpha.

(** [min(beta, score)] *)
Definition bmin (beta : bound) (score : Z) : bound :=
  if blt (Fin score) beta then Fin score else beta.

(** The [for] loop of [find_min_score]. *)
Fixpoint min_loop (rec : Board → bool → Z → bound → bound → option Z)
    (board : Board) (search_depth : Z) (alpha : bound)
    (legal_moves : list (Z * Z)) (minScore : Z) (beta : bound) : option Z :=
  match legal_moves with
  | [] => Some minScore
  | m :: rest =>
      new_board ← play_move_value board m false;
      score ← rec new_board true (search_depth - 1) alpha beta;
      let minScore := Z.min minScore score in
      let beta := bmin beta score in
      if ble beta alpha then Some minScore
      else min_loop rec board search_depth alpha rest minScore beta
  end.

Definition find_min_score (rec : Board → bool → Z → bound → bound → option Z)
    (minScore : Z) (board : Board) (white_turn : bool) (search_depth : Z)
    (alpha beta : bound) : option Z :=
  let legal_moves := generate_legal_moves board false in
  if Z.of_nat (length legal_moves) =? 0 then
    rec board true search_depth alpha beta
  else min_loop rec board search_depth alpha legal_moves minScore beta.

(** [minimax_value]; [fuel] bounds the depth of the nested calls of
    [minimax_value], [None] is a call that has not returned a value. *)
Fixpoint minimax_value (fuel : nat) (board : Board) (white_turn : bool)
    (search_depth : Z) (alpha beta : bound) : option Z :=
  match fuel with
  | O => None
  | S fuel' =>
      if search_depth =? 0 then
        Some (count_nonzero_eq board WHITE - count_nonzero_eq board BLACK)
      else
        let game_condition := check_game_over board in
        if game_condition =? TIE then Some 0
        else if game_condition =? WHITE then Some WIN_VAL
        else if game_condition =? BLACK then Some (WIN_VAL * -1)
        else if white_turn then
          let max := maxsize * -1 in
          find_max_score (minimax_value fuel') max board white_turn search_depth alpha beta
        else
          let min := maxsize in
          find_min_score (minimax_value fuel') min board white_turn search_depth alpha beta
  end.

(** The move choice of the AI in [play]: the loop over the legal moves of
    white, with the incumbent [(best_val, best_move)]. *)
Fixpoint best_move_loop (fuel : nat) (board : Board) (legal_moves : list (Z * Z))
    (best_val : bound) (best_move : option (Z * Z)) : option (bound * option (Z * Z)) :=
  match legal_moves with
  | [] => Some (best_val, best_move)
  | move :: rest =>
      new_board ← play_move_value board move true;
      move_val ← minimax_value fuel new_board true DEMO_SEARCH_DEPTH NegInf PosInf;
      if blt best_val (Fin move_val) then
        best_move_loop fuel board rest (Fin move_val) (Some move)
      else best_move_loop fuel board rest best_val best_move
  end.

Definition ai_move (fuel : nat) (board : Board) : option (bound * option (Z * Z)) :=
  let legal_moves := generate_legal_moves board true in
  best_move_loop fuel board legal_moves NegInf None.

(** ** The exhaustive search of the specification

    Depth-limited minimax without a window: the same cutoff value, the
    same scores of a finished game, the same pass rule (a side without a
    move hands the turn over at the same depth), and every legal move is
    searched. *)

Definition is_game_over (board : Board) : bool :=
  match generate_legal_moves board true, generate_legal_moves board false with
  | [], [] => true
  | _, _ => false
  end.

Definition terminal_score (board : Board) : Z :=
  let light := count_nonzero_eq board WHITE in
  let dark := count_nonzero_eq board BLACK in
  if light >? dark then WIN_VAL else if dark >? light then - WIN_VAL else 0.

Definition maximum (x : Z) (xs : list Z) : Z := fold_left Z.max xs x.
Definition minimum (x : Z) (xs : list Z) : Z := fold_left Z.min xs x.

(** The value of one move: apply it and search the opponent's turn one
    ply deeper. *)
Definition exhaustive_child (rec : Board → bool → Z → option Z) (board : Board)
    (light_to_move : bool) (depth : Z) (m : Z * Z) : option Z :=
  child ← play_move_value board m light_to_move;
  rec child (negb light_to_move) (depth - 1).

Fixpoint exhaustive_value (fuel : nat) (board : Board) (light_to_move : bool)
    (depth : Z) : option Z :=
  match fuel with
  | O => None
  | S fuel' =>
      if depth =? 0 then Some (evaluation_function board)
      else if is_game_over board then Some (terminal_score board)
      else
        match generate_legal_moves board light_to_move with
        | [] => exhaustive_value fuel' board (negb light_to_move) depth
        | moves =>
            values ← mapM (exhaustive_child (exhaustive_value fuel') board
                             light_to_move depth) moves;
            match values with
            | [] => None
            | v :: vs => Some (if light_to_move then maximum v vs else minimum v vs)
            end
        end
  end.

(** ** Notions of the specification and of the proofs *)

Definition friendly_color (white_turn : bool) : Z := if white_turn then WHITE else BLACK.
Definition enemy_color (white_turn : bool) : Z := if white_turn then BLACK else WHITE.

(** The run a move at [(r, c)] encloses along [(dr, dc)]: the [n]-th cell
    of the ray holds the mover's colour and the cells before it, from the
    first on, hold the other colour. *)
Definition captured_run (b : Board) (r c dr dc : Z) (white_turn : bool) (n : Z) : Prop :=
  2 ≤ n ∧ on_board (r + n * dr) = true ∧ on_board (c + n * dc) = true ∧
  cell b (r + n * dr) (c + n * dc) = friendly_color white_turn ∧
  ∀ j, 1 ≤ j < n →
       on_board (r + j * dr) = true ∧ on_board (c + j * dc) = true ∧
       cell b (r + j * dr) (c + j * dc) = enemy_color white_turn.

(** What the flipping loop does to the board it works on. *)
Fixpoint flip_run (fuel : nat) (board : Board)
    (flip_row flip_col row_delta col_delta enemy : Z) : option Board :=
  match fuel with
  | O => None
  | S fuel' =>
      v ← getitem board flip_row flip_col;
      if v =? enemy then
        board' ← setitem board flip_row flip_col (- enemy);
        flip_run fuel' board' (flip_row + row_delta) (flip_col + col_delta)
          row_delta col_delta enemy
      else Some board
  end.

(** What [capture] does to the board it works on. *)
Fixpoint capture_board (dirs : list (Z * Z)) (board : Board) (row col : Z)
    (white_turn : bool) : option Board :=
  match dirs with
  | [] => Some board
  | (row_delta, col_delta) :: dirs' =>
      board' ← (if captures_in_dir board row row_delta col col_delta white_turn then
                  flip_run flip_fuel board (row + row_delta) (col + col_delta)
                    row_delta col_delta (enemy_color white_turn)
                else Some board);
      capture_board dirs' board' row col white_turn
  end.

(** The cell [(x, y)] lies strictly inside a run that a move at [(r, c)]
    encloses along one of [dirs]. *)
Definition in_run_of (dirs : list (Z * Z)) (b : Board) (r c : Z) (white_turn : bool)
    (x y : Z) : Prop :=
  ∃ dr dc n k, In (dr, dc) dirs ∧ captured_run b r c dr dc white_turn n ∧
               1 ≤ k < n ∧ x = r + k * dr ∧ y = c + k * dc.

Definition in_captured_run (b : Board) (r c : Z) (white_turn : bool) (x y : Z) : Prop :=
  in_run_of DIRECTIONS b r c white_turn x y.

(** What a value [v] returned for the window [(alpha, beta)] says about
    the exhaustive value [m]: inside the window it is [m], at or below
    [alpha] it is an upper bound of [m], at or above [beta] a lower bound. *)
Definition window_sound (alpha beta : bound) (v m : Z) : Prop :=
  (ble (Fin v) alpha = true → m ≤ v)
  ∧ (ble beta (Fin v) = true → v ≤ m)
  ∧ (blt alpha (Fin v) = true → blt (Fin v) beta = true → v = m).

(** ** Positions used as examples *)

(** The board [starting_board] returns. *)
Definition opening : Board :=
  [[0; 0; 0; 0; 0; 0; 0; 0];
   [0; 0; 0; 0; 0; 0; 0; 0];
   [0; 0; 0; 0; 0; 0; 0; 0];
   [0; 0; 0; 1; -1; 0; 0; 0];
   [0; 0; 0; -1; 1; 0; 0; 0];
   [0; 0; 0; 0; 0; 0; 0; 0];
   [0; 0; 0; 0; 0; 0; 0; 0];
   [0; 0; 0; 0; 0; 0; 0; 0]].

(** White cannot move, black can (to the third cell of the first row). *)
Definition pass_position : Board :=
  [[-1; 1; 0; 0; 0; 0; 0; 0];
   [0; 0; 0; 0; 0; 0; 0; 0];
   [0; 0; 0; 0; 0; 0; 0; 0];
   [0; 0; 0; 0; 0; 0; 0; 0];
   [0; 0; 0; 0; 0; 0; 0; 0];
   [0; 0; 0; 0; 0; 0; 0; 0];
   [0; 0; 0; 0; 0; 0; 0; 0];
   [0; 0; 0; 0; 0; 0; 0; 0]].

(** Neither side can move; white has the only pieces. *)
Definition finished_position : Board :=
  [[1; 1; 0; 0; 0; 0; 0; 0];
   [0; 0; 0; 0; 0; 0; 0; 0];
   [0; 0; 0; 0; 0; 0; 0; 0];
   [0; 0; 0; 0; 0; 0; 0; 0];
   [0; 0; 0; 0; 0; 0; 0; 0];
   [0; 0; 0; 0; 0; 0; 0; 0];
   [0; 0; 0; 0; 0; 0; 0; 0];
   [0; 0; 0; 0; 0; 0; 0; 0]].

(** A position of a game the AI can reach: white to move. *)
Definition midgame : Board :=
  [[0; 0; 0; 0; 0; 0; 0; 0];
   [0; 0; 0; 0; 0; 0; 0; 0];
   [0; 0; 0; 0; 1; 0; 0; 0];
   [0; 0; 0; 1; 1; 0; 0; 0];
   [0; 0; -1; -1; -1; -1; 0; 0];
   [0; 0; 1; 0; 0; 0; 0; 0];
   [0; 0; 0; 0; 0; 0; 0; 0];
   [0; 0; 0; 0; 0; 0; 0; 0]].

(** ** The root move selection of the specification, for Light

    Every legal move is applied and valued by the search of the
    opponent's turn at [depth - 1] with the window reset to
    [(-inf, +inf)]; a move replaces the incumbent only when its value is
    strictly larger. *)
Fixpoint root_search_loop (fuel : nat) (board : Board) (depth : Z)
    (moves : list (Z * Z)) (best_val : bound) (best_move : option (Z * Z))
    : option (bound * option (Z * Z)) :=
  match moves with
  | [] => Some (best_val, best_move)
  | move :: rest =>
      child ← play_move_value board move true;
      value ← minimax_value fuel child false (depth - 1) NegInf PosInf;
      if blt best_val (Fin value) then
        root_search_loop fuel board depth rest (Fin value) (Some move)
      else root_search_loop fuel board depth rest best_val best_move
  end.

Definition root_search (fuel : nat) (board : Board) (depth : Z)
    : option (bound * option (Z * Z)) :=
  root_search_loop fuel board depth (generate_legal_moves board true) NegInf None.

(** ** Counting cells *)

Definition indicator (p : bool) : Z := if p then 1 else 0.

(** The sum of [g] over a list of indices. *)
Fixpoint zsum (l : list Z) (g : Z → Z) : Z :=
  match l with
  | [] => 0
  | x :: l' => g x + zsum l' g
  end.

(** The sum of [g] over the cells of the board. *)
Definition cell_sum (g : Z → Z → Z) : Z :=
  zsum (range NUM_COLS) (fun x => zsum (range NUM_COLS) (g x)).

(** The board whose cell [(x, y)] holds [f x y]. *)
Definition table (f : Z → Z → Z) : Board :=
  map (fun x => map (f x) (range NUM_COLS)) (range NUM_COLS).

(** Row-major order of moves. *)
Definition move_lt (m m' : Z * Z) : Prop :=
  m.1 < m'.1 ∨ (m.1 = m'.1 ∧ m.2 < m'.2).

(** The value the AI's loop in [play] gives a candidate move: the board
    after the move, searched as the code does, with [white_turn = True]. *)
Definition candidate_value (fuel : nat) (board : Board) (move : Z * Z) : option Z :=
  new_board ← play_move_value board move true;
  minimax_value fuel new_board true DEMO_SEARCH_DEPTH NegInf PosInf.

(** ** Board texts

    A Python string is the list of its characters; the characters are
    those of code point below 256. *)

(** The line boundaries of [str.splitlines] (among these characters):
    [\n], [\r], [\v], [\f], [\x1c], [\x1d], [\x1e] and [\x85]. *)
Definition is_linebreak (c : ascii) : bool :=
  match N_of_ascii c with
  | 10 | 11 | 12 | 13 | 28 | 29 | 30 | 133 => true
  | _ => false
  end%N.

(** [str.splitlines]: the lines without their boundaries, [\r\n] being
    one boundary, and no empty last line after a final boundary.  [line]
    holds the characters of the current line, last first; [after_cr]
    says that the previous character was [\r]. *)
Fixpoint splitlines_from (after_cr : bool) (line : list ascii) (s : list ascii)
    : list (list ascii) :=
  match s with
  | [] => match line with [] => [] | _ => [rev line] end
  | c :: s' =>
      if is_linebreak c then
        if after_cr && Ascii.eqb c "010" then splitlines_from false [] s'
        else rev line :: splitlines_from (Ascii.eqb c "013") [] s'
      else splitlines_from false (c :: line) s'
  end.

Definition splitlines (s : list ascii) : list (list ascii) :=
  splitlines_from false [] s.

(** [board_chars.get(ch, NOBODY)] *)
Definition board_chars_get (ch : ascii) : Z :=
  if Ascii.eqb ch "W" then WHITE
  else if Ascii.eqb ch "B" then BLACK
  else if Ascii.eqb ch "-" then NOBODY
  else NOBODY.

(** The inner loop of [read_boardstring]; [line[col]] raises past the
    end of the line, [board[row]] past the last row. *)
Fixpoint read_cols (board : Board) (row : Z) (line : list ascii) (cols : list Z)
    : option Board :=
  match cols with
  | [] => Some board
  | col :: cols' =>
      ch ← line !! Z.to_nat col;
      board ← setitem board row col (board_chars_get ch);
      read_cols board row line cols'
  end.

Fixpoint read_lines (board : Board) (row : Z) (lines : list (list ascii))
    : option Board :=
  match lines with
  | [] => Some board
  | line :: lines' =>
      board ← read_cols board row line (range NUM_COLS);
      read_lines board (row + 1) lines'
  end.

Definition read_boardstring (boardstring : list ascii) : option Board :=
  read_lines zeros 0 (splitlines boardstring).

(** [printable[v]]; a value that is no key raises [KeyError]. *)
Definition printable (v : Z) : option ascii :=
  if v =? -1 then Some "B"%char
  else if v =? 0 then Some "-"%char
  else if v =? 1 then Some "W"%char
  else None.

(** The inner loop of [print_board], building one line. *)
Fixpoint print_line (board : Board) (row : Z) (cols : list Z) (line : list ascii)
    : option (list ascii) :=
  match cols with
  | [] => Some line
  | col :: cols' =>
      ch ← printable (cell board row col);
      print_line board row cols' (line ++ [ch])
  end.

(** [print_board]: the text on the standard output afterwards, and
    whether the call returned ([false]: it raised [KeyError], after
    printing the rows before). *)
Fixpoint print_rows (board : Board) (rows : list Z) (stdout : list ascii)
    : list ascii * bool :=
  match rows with
  | [] => (stdout, true)
  | row :: rows' =>
      match print_line board row (range NUM_COLS) [] with
      | Some line => print_rows board rows' (stdout ++ line ++ ["010"%char])
      | None => (stdout, false)
      end
  end.

Definition print_board (board : Board) (stdout : list ascii) : list ascii * bool :=
  print_rows board (range NUM_COLS) stdout.

Definition WHITE_TO_PLAY : bool := true.

(** [eval_at_depth] *)
Definition eval_at_depth (fuel : nat) (boardstring : list ascii) (depth : Z) : option Z :=
  board ← read_boardstring boardstring;
  minimax_value fuel board WHITE_TO_PLAY depth NegInf PosInf.

(** The colour [read_boardstring] gives the character at column [col] of
    a line. *)
Definition char_value (line : list ascii) (col : Z) : Z :=
  match line !! Z.to_nat col with
  | Some ch => board_chars_get ch
  | None => NOBODY
  end.

(** The colour [read_boardstring] gives the cell [(row, col)], from the
    lines of the text. *)
Definition text_value (lines : list (list ascii)) (row col : Z) : Z :=
  match lines !! Z.to_nat row with
  | Some line => char_value line col
  | None => NOBODY
  end.

(** The character [print_board] prints for a colour. *)
Definition piece_char (v : Z) : ascii :=
  if v =? 1 then "W"%char else if v =? -1 then "B"%char else "-"%char.

(** ** The interactive game *)

(** The exceptions the program can raise. *)
Inductive exn : Type := IndexError | KeyError | TypeError | EOFError.

(** How a call ends: it returns, it raises, or it is still running when
    the bound on its loops is reached. *)
Inductive outcome (A : Type) : Type :=
  | Returned (a : A)
  | Raised (e : exn)
  | Unfinished.
Arguments Returned {A} a.
Arguments Raised {A} e.
Arguments Unfinished {A}.

(** The console: the lines the user is still to enter, and the text
    written so far. *)
Record World : Type := mkWorld { stdin : list (list ascii); stdout : list ascii }.

Definition text (s : string) : list ascii := String.list_ascii_of_string s.

(** [print(s)] *)
Definition print (s : list ascii) (w : World) : World :=
  mkWorld (stdin w) (stdout w ++ s ++ ["010"%char]).

(** [str(z)] of an integer *)
Definition py_str (z : Z) : list ascii := text (pretty z).

(** [l.index(m)]; [None] when [m] is not in [l]. *)
Fixpoint list_index (m : Z * Z) (l : list (Z * Z)) : option nat :=
  match l with
  | [] => None
  | m' :: l' =>
      if (m.1 =? m'.1) && (m.2 =? m'.2) then Some 0%nat else S <$> list_index m l'
  end.

(** One line of the board [get_player_move] shows: the legal moves are
    numbered. *)
Fixpoint player_line (board : Board) (legal_moves : list (Z * Z)) (row : Z)
    (cols : list Z) (line : list ascii) : list ascii :=
  match cols with
  | [] => line
  | col :: cols' =>
      let line :=
        if cell board row col =? WHITE then line ++ ["W"%char]
        else if cell board row col =? BLACK then line ++ ["B"%char]
        else match list_index (row, col) legal_moves with
             | Some i => line ++ py_str (Z.of_nat i)
             | None => line ++ ["-"%char]
             end in
      player_line board legal_moves row cols' line
  end.

Fixpoint player_rows (board : Board) (legal_moves : list (Z * Z)) (rows : list Z)
    (w : World) : World :=
  match rows with
  | [] => w
  | row :: rows' =>
      player_rows board legal_moves rows'
        (print (player_line board legal_moves row (range NUM_COLS) []) w)
  end.

Section Console.
(** [int(s)]; [None] is its [ValueError]. *)
Variable py_int : list ascii → option Z.

(** The [while True] loop of [get_player_move]: one line of input per
    turn of the loop; [input] raises [EOFError] when there is none. *)
Fixpoint ask_move (legal_moves : list (Z * Z)) (inputs : list (list ascii))
    (out : list ascii) : World * outcome (Z * Z) :=
  let prompt := text "Which move do you want to play? [0-"
                ++ py_str (Z.of_nat (length legal_moves) - 1) ++ text "]" in
  match inputs with
  | [] => (mkWorld [] (out ++ prompt), Raised EOFError)
  | choice :: inputs' =>
      match py_int choice with
      | Some move_num =>
          if (0 <=? move_num) && (move_num <? Z.of_nat (length legal_moves)) then
            match legal_moves !! Z.to_nat move_num with
            | Some m => (mkWorld inputs' (out ++ prompt), Returned m)
            | None => (mkWorld inputs' (out ++ prompt), Raised IndexError)
            end
          else
            ask_move legal_moves inputs'
              (out ++ prompt ++ text "That wasn't one of the options." ++ ["010"%char])
      | None =>
          ask_move legal_moves inputs'
            (out ++ prompt ++ text "Please enter an integer as your move choice."
                 ++ ["010"%char])
      end
  end.

(** An input line that [get_player_move] accepts: an integer in range. *)
Definition valid_choice (legal_moves : list (Z * Z)) (choice : list ascii) : bool :=
  match py_int choice with
  | Some move_num => (0 <=? move_num) && (move_num <? Z.of_nat (length legal_moves))
  | None => false
  end.

Definition get_player_move (board : Board) (legal_moves : list (Z * Z)) (w : World)
    : World * outcome (Z * Z) :=
  let w := player_rows board legal_moves (range NUM_COLS) w in
  ask_move legal_moves (stdin w) (stdout w).






End Console.



(** * Proofs *)

(** ** Indices, reads and writes *)

Lemma on_board_spec (x : Z) : on_board x = true ↔ 0 ≤ x < NUM_COLS.
Proof. unfold on_board. rewrite andb_true_iff, Z.leb_le, Z.ltb_lt. tauto. Qed.

Lemma on_board_false (x : Z) : on_board x = false ↔ ¬ (0 ≤ x < NUM_COLS).
Proof. rewrite <- on_board_spec. destruct (on_board x); split; congruence. Qed.

Lemma py_index_on_board (x : Z) :
  on_board x = true → py_index x = Some (Z.to_nat x).
Proof. unfold py_index, on_board. now intros ->. Qed.

Lemma py_index_bounds (x : Z) (i : nat) :
  py_index x = Some i → - NUM_COLS ≤ x < NUM_COLS ∧ (i < Z.to_nat NUM_COLS)%nat.
Proof.
  unfold py_index, NUM_COLS.
  destruct ((0 <=? x) && (x <? 8)) eqn:E1.
  { intros H. injection H as <-. apply andb_true_iff in E1. lia. }
  destruct ((- (8) <=? x) && (x <? 0)) eqn:E2; [|discriminate].
  intros H. injection H as <-. apply andb_true_iff in E2. lia.
Qed.

Lemma py_index_None (x : Z) :
  py_index x = None ↔ ¬ (- NUM_COLS ≤ x < NUM_COLS).
Proof.
  unfold py_index, NUM_COLS. split.
  - destruct ((0 <=? x) && (x <? 8)) eqn:E1; [discriminate|].
    destruct ((- (8) <=? x) && (x <? 0)) eqn:E2; [discriminate|]. intros _.
    apply andb_false_iff in E1, E2. lia.
  - intros H. destruct ((0 <=? x) && (x <? 8)) eqn:E1.
    { apply andb_true_iff in E1. lia. }
    destruct ((- (8) <=? x) && (x <? 0)) eqn:E2; [|done].
    apply andb_true_iff in E2. lia.
Qed.

Lemma wf_board_length (b : Board) : wf_board b → length b = Z.to_nat NUM_COLS.
Proof.
  unfold wf_board, is_board. rewrite andb_true_iff, Z.eqb_eq. lia.
Qed.

Lemma wf_board_row (b : Board) (i : nat) (line : list Z) :
  wf_board b → b !! i = Some line →
  length line = Z.to_nat NUM_COLS ∧ (∀ j v, line !! j = Some v → is_color v = true).
Proof.
  unfold wf_board, is_board. rewrite andb_true_iff, forallb_forall.
  intros [_ H] Hi. apply list_elem_of_lookup_2, list_elem_of_In, H in Hi.
  apply andb_true_iff in Hi as [Hl Hc]. apply Z.eqb_eq in Hl. split; [lia|].
  intros j v Hj. rewrite forallb_forall in Hc.
  apply Hc. eapply list_elem_of_In, list_elem_of_lookup_2, Hj.
Qed.

Lemma wf_board_intro (b : Board) :
  length b = Z.to_nat NUM_COLS →
  (∀ i line, b !! i = Some line →
     length line = Z.to_nat NUM_COLS ∧ ∀ j v, line !! j = Some v → is_color v = true) →
  wf_board b.
Proof.
  intros Hl H. unfold wf_board, is_board. apply andb_true_iff. split.
  { apply Z.eqb_eq. rewrite Hl. unfold NUM_COLS. lia. }
  apply forallb_forall. intros line Hin.
  apply list_elem_of_In, list_elem_of_lookup in Hin as [i Hi].
  destruct (H i line Hi) as [Hlen Hc]. apply andb_true_iff. split.
  { apply Z.eqb_eq. rewrite Hlen. unfold NUM_COLS. lia. }
  apply forallb_forall. intros v Hv.
  apply list_elem_of_In, list_elem_of_lookup in Hv as [j Hj]. eauto.
Qed.

Lemma getitem_on_board (b : Board) (r c : Z) :
  wf_board b → on_board r = true → on_board c = true →
  ∃ v, getitem b r c = Some v ∧ is_color v = true.
Proof.
  intros Hwf Hr Hc. unfold getitem.
  rewrite (py_index_on_board r Hr), (py_index_on_board c Hc). simpl.
  apply on_board_spec in Hr, Hc.
  destruct (lookup_lt_is_Some_2 b (Z.to_nat r)) as [line Hline].
  { rewrite (wf_board_length b Hwf). lia. }
  rewrite Hline. simpl.
  destruct (wf_board_row b _ line Hwf Hline) as [Hlen Hcol].
  destruct (lookup_lt_is_Some_2 line (Z.to_nat c)) as [v Hv].
  { rewrite Hlen. lia. }
  exists v. split; [done|]. eauto.
Qed.

Lemma cell_getitem (b : Board) (r c v : Z) : getitem b r c = Some v → cell b r c = v.
Proof. unfold cell. now intros ->. Qed.

Lemma getitem_cell (b : Board) (r c : Z) :
  wf_board b → on_board r = true → on_board c = true →
  getitem b r c = Some (cell b r c).
Proof.
  intros Hwf Hr Hc. destruct (getitem_on_board b r c Hwf Hr Hc) as (v & Hv & _).
  now rewrite (cell_getitem _ _ _ _ Hv).
Qed.

Lemma cell_is_color (b : Board) (r c : Z) :
  wf_board b → on_board r = true → on_board c = true → is_color (cell b r c) = true.
Proof.
  intros Hwf Hr Hc. destruct (getitem_on_board b r c Hwf Hr Hc) as (v & Hv & Hcol).
  now rewrite (cell_getitem _ _ _ _ Hv).
Qed.

Lemma is_color_spec (v : Z) : is_color v = true ↔ v = WHITE ∨ v = NOBODY ∨ v = BLACK.
Proof.
  unfold is_color. rewrite !orb_true_iff, !Z.eqb_eq. tauto.
Qed.

(** A write at a cell of the board succeeds, keeps the board a board and
    changes that cell only. *)
Lemma setitem_on_board (b : Board) (r c v : Z) :
  wf_board b → on_board r = true → on_board c = true → is_color v = true →
  ∃ b', setitem b r c v = Some b' ∧ wf_board b' ∧
        ∀ x y, on_board x = true → on_board y = true →
               cell b' x y = if (x =? r) && (y =? c) then v else cell b x y.
Proof.
  intros Hwf Hr Hc Hv. unfold setitem.
  rewrite (py_index_on_board r Hr), (py_index_on_board c Hc). simpl.
  pose proof Hr as Hr'. pose proof Hc as Hc'. apply on_board_spec in Hr', Hc'.
  destruct (lookup_lt_is_Some_2 b (Z.to_nat r)) as [line Hline].
  { rewrite (wf_board_length b Hwf). lia. }
  rewrite Hline. simpl.
  destruct (wf_board_row b _ line Hwf Hline) as [Hlen Hcol].
  destruct (lookup_lt_is_Some_2 line (Z.to_nat c)) as [w Hw].
  { rewrite Hlen. lia. }
  rewrite Hw. simpl. eexists. split; [reflexivity|]. split.
  - apply wf_board_intro.
    { rewrite length_insert. now apply wf_board_length. }
    intros i line' Hi. destruct (decide (i = Z.to_nat r)) as [->|Hne].
    + rewrite list_lookup_insert_eq in Hi by (rewrite (wf_board_length b Hwf); lia).
      injection Hi as <-. split. { now rewrite length_insert. }
      intros j u Hj. destruct (decide (j = Z.to_nat c)) as [->|Hne].
      * rewrite list_lookup_insert_eq in Hj by (rewrite Hlen; lia). now injection Hj as <-.
      * rewrite list_lookup_insert_ne in Hj by done. eauto.
    + rewrite list_lookup_insert_ne in Hi by done. eapply wf_board_row; eauto.
  - intros x y Hx Hy. unfold cell, getitem.
    rewrite (py_index_on_board x Hx), (py_index_on_board y Hy). simpl.
    apply on_board_spec in Hx, Hy.
    destruct (Z.eqb_spec x r) as [->|Hxr]; simpl.
    + rewrite list_lookup_insert_eq by (rewrite (wf_board_length b Hwf); lia). simpl.
      rewrite Hline. simpl.
      destruct (Z.eqb_spec y c) as [->|Hyc].
      * rewrite list_lookup_insert_eq by (rewrite Hlen; lia). done.
      * rewrite list_lookup_insert_ne by lia. done.
    + rewrite list_lookup_insert_ne by lia. done.
Qed.

(** ** Directions and rays *)

Lemma direction_cases (dr dc : Z) :
  In (dr, dc) DIRECTIONS →
  (dr = -1 ∨ dr = 0 ∨ dr = 1) ∧ (dc = -1 ∨ dc = 0 ∨ dc = 1) ∧ (dr ≠ 0 ∨ dc ≠ 0).
Proof.
  unfold DIRECTIONS. simpl. intros H.
  repeat (destruct H as [H|H]; [injection H as <- <-; lia|]). destruct H.
Qed.

(** The cells between two cells of the board, along a direction, are on
    the board. *)
Lemma ray_convex (x d n j : Z) :
  (d = -1 ∨ d = 0 ∨ d = 1) →
  on_board x = true → on_board (x + n * d) = true → 0 ≤ j ≤ n →
  on_board (x + j * d) = true.
Proof.
  rewrite !on_board_spec. unfold NUM_COLS. intros [->|[->| ->]]; lia.
Qed.

(** Two rays from one cell along different directions share no cell. *)
Lemma rays_disjoint (dr dc dr' dc' j k : Z) :
  In (dr, dc) DIRECTIONS → In (dr', dc') DIRECTIONS →
  1 ≤ j → 1 ≤ k → j * dr = k * dr' → j * dc = k * dc' →
  (dr, dc) = (dr', dc').
Proof.
  intros H H'. apply direction_cases in H as (Hr & Hc & Hn).
  apply direction_cases in H' as (Hr' & Hc' & Hn').
  intros Hj Hk E1 E2.
  destruct Hr as [->|[->| ->]], Hr' as [->|[->| ->]],
           Hc as [->|[->| ->]], Hc' as [->|[->| ->]];
    try reflexivity; exfalso; lia.
Qed.

(** ** The scan of [captures_in_dir] *)

Section Scan.
Variable b : Board.
Variables dr dc f : Z.

Lemma scan_loop_true_inv (fuel : nat) (sr sc : Z) :
  scan_loop fuel b sr sc dr dc f = Some true →
  ∃ n, 0 ≤ n < Z.of_nat fuel ∧
       on_board (sr + n * dr) = true ∧ on_board (sc + n * dc) = true ∧
       cell b (sr + n * dr) (sc + n * dc) = f ∧
       ∀ j, 0 ≤ j < n →
            on_board (sr + j * dr) = true ∧ on_board (sc + j * dc) = true ∧
            cell b (sr + j * dr) (sc + j * dc) ≠ NOBODY ∧
            cell b (sr + j * dr) (sc + j * dc) ≠ f.
Proof.
  revert sr sc. induction fuel as [|fuel IH]; intros sr sc; simpl; [discriminate|].
  destruct (on_board sr && on_board sc) eqn:Hon; [|discriminate].
  apply andb_true_iff in Hon as [Hr Hc].
  destruct (Z.eqb_spec (cell b sr sc) NOBODY) as [|Hne]; [discriminate|].
  destruct (Z.eqb_spec (cell b sr sc) f) as [Hf|Hnf].
  - intros _. exists 0. rewrite !Z.mul_0_l, !Z.add_0_r.
    repeat split; try done; lia.
  - intros H. apply IH in H as (n & Hn & Hnr & Hnc & Hcell & Hbefore).
    exists (n + 1).
    replace (sr + (n + 1) * dr) with (sr + dr + n * dr) by lia.
    replace (sc + (n + 1) * dc) with (sc + dc + n * dc) by lia.
    repeat split; try done; try lia.
    all: destruct (Z.eq_dec j 0) as [->|Hj0];
      [ rewrite ?Z.mul_0_l, ?Z.add_0_r; done | ].
    all: destruct (Hbefore (j - 1)) as (H1 & H2 & H3 & H4); [lia|].
    all: replace (sr + dr + (j - 1) * dr) with (sr + j * dr) in * by lia.
    all: replace (sc + dc + (j - 1) * dc) with (sc + j * dc) in * by lia.
    all: done.
Qed.

Lemma scan_loop_true_intro (fuel : nat) (sr sc n : Z) :
  f ≠ NOBODY →
  0 ≤ n < Z.of_nat fuel →
  on_board (sr + n * dr) = true → on_board (sc + n * dc) = true →
  cell b (sr + n * dr) (sc + n * dc) = f →
  (∀ j, 0 ≤ j < n →
        on_board (sr + j * dr) = true ∧ on_board (sc + j * dc) = true ∧
        cell b (sr + j * dr) (sc + j * dc) ≠ NOBODY) →
  scan_loop fuel b sr sc dr dc f = Some true.
Proof.
  intros Hf. revert sr sc n.
  induction fuel as [|fuel IH]; intros sr sc n Hn Hr Hc Hcell Hbefore; [lia|].
  simpl. destruct (Z.eq_dec n 0) as [->|Hn0].
  - rewrite !Z.mul_0_l, !Z.add_0_r in *. rewrite Hr, Hc. simpl.
    destruct (Z.eqb_spec (cell b sr sc) NOBODY); [congruence|].
    destruct (Z.eqb_spec (cell b sr sc) f); [done|congruence].
  - destruct (Hbefore 0) as (H1 & H2 & H3); [lia|].
    rewrite !Z.mul_0_l, !Z.add_0_r in *. rewrite H1, H2. simpl.
    destruct (Z.eqb_spec (cell b sr sc) NOBODY); [congruence|].
    destruct (Z.eqb_spec (cell b sr sc) f); [done|].
    apply (IH _ _ (n - 1)); [lia| | | |].
    + now replace (sr + dr + (n - 1) * dr) with (sr + n * dr) by lia.
    + now replace (sc + dc + (n - 1) * dc) with (sc + n * dc) by lia.
    + replace (sr + dr + (n - 1) * dr) with (sr + n * dr) by lia.
      now replace (sc + dc + (n - 1) * dc) with (sc + n * dc) by lia.
    + intros j Hj. destruct (Hbefore (j + 1)) as (? & ? & ?); [lia|].
      replace (sr + dr + j * dr) with (sr + (j + 1) * dr) by lia.
      now replace (sc + dc + j * dc) with (sc + (j + 1) * dc) by lia.
Qed.

(** More fuel does not change a result. *)
Lemma scan_loop_mono (fuel fuel' : nat) (sr sc : Z) (r : bool) :
  (fuel ≤ fuel')%nat →
  scan_loop fuel b sr sc dr dc f = Some r →
  scan_loop fuel' b sr sc dr dc f = Some r.
Proof.
  revert fuel' sr sc. induction fuel as [|fuel IH]; intros fuel' sr sc Hle; [discriminate|].
  destruct fuel' as [|fuel']; [lia|]. simpl.
  destruct (on_board sr && on_board sc); [|done].
  destruct (cell b sr sc =? NOBODY); [done|].
  destruct (cell b sr sc =? f); [done|].
  apply IH. lia.
Qed.

(** The loop ends once the scan has left the board. *)
Lemma scan_loop_terminates (fuel : nat) (sr sc : Z) :
  (dr = 1 ∧ Z.max 0 (NUM_COLS - sr) < Z.of_nat fuel)
  ∨ (dr = -1 ∧ Z.max 0 (sr + 1) < Z.of_nat fuel)
  ∨ (dc = 1 ∧ Z.max 0 (NUM_COLS - sc) < Z.of_nat fuel)
  ∨ (dc = -1 ∧ Z.max 0 (sc + 1) < Z.of_nat fuel) →
  is_Some (scan_loop fuel b sr sc dr dc f).
Proof.
  revert sr sc. induction fuel as [|fuel IH]; intros sr sc H; [lia|].
  simpl. destruct (on_board sr && on_board sc) eqn:Hon; [|by eexists].
  apply andb_true_iff in Hon as [Hr Hc].
  apply on_board_spec in Hr, Hc. unfold NUM_COLS in *.
  destruct (cell b sr sc =? NOBODY); [by eexists|].
  destruct (cell b sr sc =? f); [by eexists|].
  apply IH. unfold NUM_COLS. lia.
Qed.
End Scan.

(** The fuel of the scan in [captures_in_dir] is enough: along a
    direction of [DIRECTIONS] the loop returns within [scan_fuel] tests of
    its condition, and more fuel gives the same result. *)
Lemma scan_loop_fuel (b : Board) (dr dc f sr sc : Z) (fuel : nat) :
  In (dr, dc) DIRECTIONS → (scan_fuel ≤ fuel)%nat →
  ∃ r, scan_loop scan_fuel b sr sc dr dc f = Some r ∧
       scan_loop fuel b sr sc dr dc f = Some r.
Proof.
  intros Hd Hle.
  assert (is_Some (scan_loop scan_fuel b sr sc dr dc f)) as [r Hr].
  { destruct (on_board sr && on_board sc) eqn:Hon.
    - apply andb_true_iff in Hon as [Hr Hc]. apply on_board_spec in Hr, Hc.
      apply scan_loop_terminates. apply direction_cases in Hd.
      unfold scan_fuel, NUM_COLS in *. lia.
    - unfold scan_fuel. simpl. rewrite Hon. by eexists. }
  exists r. split; [done|]. eapply scan_loop_mono; eauto.
Qed.

(** ** The capture test *)

Lemma friendly_not_NOBODY (wt : bool) : friendly_color wt ≠ NOBODY.
Proof. now destruct wt. Qed.

Lemma enemy_not_friendly (wt : bool) : enemy_color wt ≠ friendly_color wt.
Proof. now destruct wt. Qed.

Lemma enemy_neg (wt : bool) : - enemy_color wt = friendly_color wt.
Proof. now destruct wt. Qed.

Lemma color_cases (wt : bool) (v : Z) :
  is_color v = true → v ≠ NOBODY → v ≠ friendly_color wt → v = enemy_color wt.
Proof.
  rewrite is_color_spec. unfold friendly_color, enemy_color, WHITE, BLACK, NOBODY.
  destruct wt; lia.
Qed.

Lemma captures_in_dir_unfold (b : Board) (r dr c dc : Z) (wt : bool) :
  In (dr, dc) DIRECTIONS →
  captures_in_dir b r dr c dc wt = true ↔
  on_board (r + dr) = true ∧ on_board (c + dc) = true ∧
  cell b (r + dr) (c + dc) = enemy_color wt ∧
  scan_loop scan_fuel b (r + 2 * dr) (c + 2 * dc) dr dc (friendly_color wt) = Some true.
Proof.
  intros Hd. unfold captures_in_dir.
  fold (enemy_color wt). fold (friendly_color wt).
  generalize (scan_loop scan_fuel b (r + 2 * dr) (c + 2 * dc) dr dc (friendly_color wt)).
  intros res. destruct (on_board (r + dr)) eqn:Hr.
  - pose proof Hr as Hr'. apply on_board_spec in Hr'.
    destruct (Z.ltb_spec (r + dr) 0); [lia|].
    destruct (Z.geb_spec (r + dr) NUM_COLS); [lia|]. simpl.
    destruct (on_board (c + dc)) eqn:Hc.
    + pose proof Hc as Hc'. apply on_board_spec in Hc'.
      destruct (Z.ltb_spec (c + dc) 0); [lia|].
      destruct (Z.geb_spec (c + dc) NUM_COLS); [lia|]. simpl.
      destruct (Z.eqb_spec (cell b (r + dr) (c + dc)) (enemy_color wt)) as [He|He]; simpl.
      * destruct res as [[]|]; simpl.
        -- split; [intros _; repeat split; done | done].
        -- split; [discriminate|]. intros (_ & _ & _ & ?). discriminate.
        -- split; [discriminate|]. intros (_ & _ & _ & ?). discriminate.
      * split; [discriminate|]. intros (_ & _ & ? & _). congruence.
    + apply on_board_false in Hc.
      destruct (Z.ltb_spec (c + dc) 0); simpl;
        [split; [discriminate|intros (_ & ? & _); discriminate]|].
      destruct (Z.geb_spec (c + dc) NUM_COLS); simpl; [|lia].
      split; [discriminate|intros (_ & ? & _); discriminate].
  - apply on_board_false in Hr.
    destruct (Z.ltb_spec (r + dr) 0); simpl;
      [split; [discriminate|intros (? & _); discriminate]|].
    destruct (Z.geb_spec (r + dr) NUM_COLS); simpl; [|lia].
    split; [discriminate|intros (? & _); discriminate].
Qed.

(** The capture test holds exactly when the move encloses a run. *)
Lemma captures_in_dir_run (b : Board) (r dr c dc : Z) (wt : bool) :
  wf_board b → In (dr, dc) DIRECTIONS →
  captures_in_dir b r dr c dc wt = true ↔ ∃ n, captured_run b r c dr dc wt n.
Proof.
  intros Hwf Hd. rewrite (captures_in_dir_unfold b r dr c dc wt Hd). split.
  - intros (Hr & Hc & Hadj & Hscan).
    apply scan_loop_true_inv in Hscan as (n & Hn & Hnr & Hnc & Hcell & Hbefore).
    exists (n + 2). unfold captured_run.
    replace (r + (n + 2) * dr) with (r + 2 * dr + n * dr) by lia.
    replace (c + (n + 2) * dc) with (c + 2 * dc + n * dc) by lia.
    split; [lia|]. do 3 (split; [done|]). intros j Hj.
    destruct (Z.eq_dec j 1) as [->|Hj1]; [rewrite ?Z.mul_1_l; done|].
    destruct (Hbefore (j - 2)) as (H1 & H2 & H3 & H4); [lia|].
    replace (r + 2 * dr + (j - 2) * dr) with (r + j * dr) in * by lia.
    replace (c + 2 * dc + (j - 2) * dc) with (c + j * dc) in * by lia.
    do 2 (split; [done|]).
    apply color_cases; try done. now apply cell_is_color.
  - intros (n & Hn & Hnr & Hnc & Hcell & Hbefore).
    destruct (Hbefore 1) as (H1 & H2 & H3); [lia|].
    rewrite !Z.mul_1_l in *. repeat split; try done.
    apply (scan_loop_true_intro b dr dc (friendly_color wt) _ _ _ (n - 2));
      [apply friendly_not_NOBODY| | | | |].
    + apply on_board_spec in H1, H2, Hnr, Hnc. apply direction_cases in Hd.
      unfold scan_fuel, NUM_COLS in *. lia.
    + now replace (r + 2 * dr + (n - 2) * dr) with (r + n * dr) by lia.
    + now replace (c + 2 * dc + (n - 2) * dc) with (c + n * dc) by lia.
    + replace (r + 2 * dr + (n - 2) * dr) with (r + n * dr) by lia.
      now replace (c + 2 * dc + (n - 2) * dc) with (c + n * dc) by lia.
    + intros j Hj. destruct (Hbefore (j + 2)) as (? & ? & Hc'); [lia|].
      replace (r + 2 * dr + j * dr) with (r + (j + 2) * dr) by lia.
      replace (c + 2 * dc + j * dc) with (c + (j + 2) * dc) by lia.
      repeat split; try done. rewrite Hc'. now destruct wt.
Qed.

(** The enclosed run is determined by the board. *)
Lemma captured_run_unique (b : Board) (r c dr dc : Z) (wt : bool) (n n' : Z) :
  captured_run b r c dr dc wt n → captured_run b r c dr dc wt n' → n = n'.
Proof.
  intros (Hn & _ & _ & Hc & Hb) (Hn' & _ & _ & Hc' & Hb').
  pose proof (enemy_not_friendly wt).
  destruct (Z.lt_trichotomy n n') as [Hlt|[->|Hlt]]; [|done|].
  - destruct (Hb' n) as (_ & _ & ?); [lia|congruence].
  - destruct (Hb n') as (_ & _ & ?); [lia|congruence].
Qed.

(** A run lies on the board, so it is short. *)
Lemma captured_run_bound (b : Board) (r c dr dc : Z) (wt : bool) (n : Z) :
  In (dr, dc) DIRECTIONS → captured_run b r c dr dc wt n → n ≤ NUM_COLS.
Proof.
  intros Hd (Hn & Hnr & Hnc & _ & Hb). destruct (Hb 1) as (H1 & H2 & _); [lia|].
  apply on_board_spec in H1, H2, Hnr, Hnc. apply direction_cases in Hd.
  unfold NUM_COLS in *. lia.
Qed.

(** ** [capture] and [play_move] in the store

    The loops of [capture] touch the board object they are given and
    nothing else, so their effect on the store is a change of that one
    board. *)

Lemma flip_loop_run (fuel : nat) (σ : Store) (l : nat) (b : Board) (fr fc dr dc e : Z) :
  σ !! l = Some b →
  flip_loop fuel σ l fr fc dr dc e
  = (b' ← flip_run fuel b fr fc dr dc e; Some (<[l := b']> σ)).
Proof.
  revert σ b fr fc. induction fuel as [|fuel IH]; intros σ b fr fc Hl; [done|].
  simpl. rewrite Hl. simpl.
  destruct (getitem b fr fc) as [v|]; simpl; [|done].
  destruct (v =? e).
  - destruct (setitem b fr fc (- e)) as [b1|]; simpl; [|done].
    rewrite (IH (<[l := b1]> σ) b1).
    + destruct (flip_run fuel b1 (fr + dr) (fc + dc) dr dc e); simpl; [|done].
      now rewrite list_insert_insert_eq.
    + apply list_lookup_insert_eq. eapply lookup_lt_Some, Hl.
  - simpl. now rewrite list_insert_id.
Qed.

Opaque flip_fuel DIRECTIONS.

Lemma capture_dirs_board (dirs : list (Z * Z)) (σ : Store) (l : nat) (b : Board)
    (r c : Z) (wt : bool) :
  σ !! l = Some b →
  capture_dirs dirs σ l r c wt
  = (b' ← capture_board dirs b r c wt; Some (<[l := b']> σ)).
Proof.
  revert σ b. induction dirs as [|[dr dc] dirs IH]; intros σ b Hl; simpl.
  { now rewrite list_insert_id. }
  rewrite Hl. simpl. fold (enemy_color wt).
  destruct (captures_in_dir b r dr c dc wt).
  - rewrite (flip_loop_run _ _ _ b) by done.
    destruct (flip_run flip_fuel b (r + dr) (c + dc) dr dc (enemy_color wt)) as [b1|];
      simpl; [|done].
    rewrite (IH (<[l := b1]> σ) b1).
    + destruct (capture_board dirs b1 r c wt); simpl; [|done].
      now rewrite list_insert_insert_eq.
    + apply list_lookup_insert_eq. eapply lookup_lt_Some, Hl.
  - simpl. now apply IH.
Qed.

Lemma insert_at_end (σ : Store) (b b' : Board) :
  <[length σ := b']> (σ ++ [b]) = σ ++ [b'].
Proof.
  replace (length σ) with (length σ + 0)%nat by lia. now rewrite insert_app_r.
Qed.

Lemma lookup_at_end (σ : Store) (b : Board) : (σ ++ [b]) !! length σ = Some b.
Proof. apply list_lookup_middle. done. Qed.

(** [play_move] reads the board it is given, and its whole effect is one
    new board object at the end of the store. *)
Lemma play_move_unfold (σ : Store) (l : nat) (move : Z * Z) (wt : bool) :
  play_move σ l move wt
  = (b ← σ !! l;
     b1 ← setitem b move.1 move.2 (friendly_color wt);
     b2 ← capture_board DIRECTIONS b1 move.1 move.2 wt;
     Some (σ ++ [b2], length σ)).
Proof.
  unfold play_move, deepcopy, capture. fold (friendly_color wt).
  destruct (σ !! l) as [b|]; simpl; [|done].
  rewrite lookup_at_end. simpl.
  destruct (setitem b move.1 move.2 (friendly_color wt)) as [b1|]; simpl; [|done].
  rewrite insert_at_end.
  rewrite (capture_dirs_board _ _ _ b1) by apply lookup_at_end.
  destruct (capture_board DIRECTIONS b1 move.1 move.2 wt); simpl; [|done].
  now rewrite insert_at_end.
Qed.

Lemma play_move_value_unfold (b : Board) (move : Z * Z) (wt : bool) :
  play_move_value b move wt
  = (b1 ← setitem b move.1 move.2 (friendly_color wt);
     capture_board DIRECTIONS b1 move.1 move.2 wt).
Proof.
  unfold play_move_value. rewrite play_move_unfold. simpl.
  destruct (setitem b move.1 move.2 (friendly_color wt)) as [b1|]; simpl; [|done].
  destruct (capture_board DIRECTIONS b1 move.1 move.2 wt); simpl; done.
Qed.

(** In any store, [play_move] on an object holding [b] returns a new
    object holding [play_move_value b] and leaves every other object as
    it was; it raises exactly when [play_move_value] does. *)
Lemma play_move_any_store (σ : Store) (l : nat) (b : Board) (move : Z * Z) (wt : bool) :
  σ !! l = Some b →
  play_move σ l move wt
  = (b' ← play_move_value b move wt; Some (σ ++ [b'], length σ)).
Proof.
  intros Hl. rewrite play_move_unfold, play_move_value_unfold, Hl. simpl.
  destruct (setitem b move.1 move.2 (friendly_color wt)) as [b1|]; simpl; done.
Qed.

Transparent flip_fuel DIRECTIONS.

(** ** What the flipping loop changes *)

Lemma ray_step_ne (x y dr dc k : Z) :
  1 ≤ k → dr ≠ 0 ∨ dc ≠ 0 → ¬ (x + k * dr = x ∧ y + k * dc = y).
Proof.
  intros Hk Hd [H1 H2].
  assert (k * dr = 0) as E1 by lia. assert (k * dc = 0) as E2 by lia.
  apply Z.mul_eq_0 in E1, E2. lia.
Qed.

(** From a cell on, [n] cells of colour [e] and then a cell of another
    colour, all on the board: the loop flips the [n] cells and stops. *)
Lemma flip_run_spec (fuel : nat) (b : Board) (fr fc dr dc e n : Z) :
  wf_board b → dr ≠ 0 ∨ dc ≠ 0 → is_color (- e) = true →
  0 ≤ n < Z.of_nat fuel →
  (∀ j, 0 ≤ j < n →
        on_board (fr + j * dr) = true ∧ on_board (fc + j * dc) = true ∧
        cell b (fr + j * dr) (fc + j * dc) = e) →
  on_board (fr + n * dr) = true → on_board (fc + n * dc) = true →
  cell b (fr + n * dr) (fc + n * dc) ≠ e →
  ∃ b', flip_run fuel b fr fc dr dc e = Some b' ∧ wf_board b' ∧
        ∀ x y, on_board x = true → on_board y = true →
          (∃ j, 0 ≤ j < n ∧ x = fr + j * dr ∧ y = fc + j * dc ∧ cell b' x y = - e)
          ∨ ((∀ j, 0 ≤ j < n → ¬ (x = fr + j * dr ∧ y = fc + j * dc))
             ∧ cell b' x y = cell b x y).
Proof.
  intros Hwf Hd He. revert b fr fc n Hwf.
  induction fuel as [|fuel IH]; intros b fr fc n Hwf Hn Hrun Hnr Hnc Hstop; [lia|].
  simpl. destruct (Z.eq_dec n 0) as [->|Hn0].
  - rewrite !Z.mul_0_l, !Z.add_0_r in *.
    rewrite (getitem_cell b fr fc) by done. simpl.
    destruct (Z.eqb_spec (cell b fr fc) e); [congruence|].
    exists b. repeat split; try done. intros x y _ _. right. split; [|done].
    intros j Hj. lia.
  - destruct (Hrun 0) as (H1 & H2 & H3); [lia|].
    rewrite !Z.mul_0_l, !Z.add_0_r in *.
    rewrite (getitem_cell b fr fc) by done. simpl. rewrite H3, Z.eqb_refl.
    destruct (setitem_on_board b fr fc (- e) Hwf H1 H2 He) as (b1 & -> & Hwf1 & Hb1).
    simpl.
    destruct (IH b1 (fr + dr) (fc + dc) (n - 1) Hwf1) as (b' & Hb' & Hwf' & Hcells).
    + lia.
    + intros j Hj. destruct (Hrun (j + 1)) as (Hr & Hc & Hv); [lia|].
      replace (fr + dr + j * dr) with (fr + (j + 1) * dr) by lia.
      replace (fc + dc + j * dc) with (fc + (j + 1) * dc) by lia.
      repeat split; try done. rewrite Hb1 by done.
      destruct (Z.eqb_spec (fr + (j + 1) * dr) fr) as [E1|]; [|done].
      destruct (Z.eqb_spec (fc + (j + 1) * dc) fc) as [E2|]; [|done].
      exfalso. apply (ray_step_ne fr fc dr dc (j + 1)); [lia|done|done].
    + now replace (fr + dr + (n - 1) * dr) with (fr + n * dr) by lia.
    + now replace (fc + dc + (n - 1) * dc) with (fc + n * dc) by lia.
    + replace (fr + dr + (n - 1) * dr) with (fr + n * dr) by lia.
      replace (fc + dc + (n - 1) * dc) with (fc + n * dc) by lia.
      rewrite Hb1 by done.
      destruct (Z.eqb_spec (fr + n * dr) fr) as [E1|]; [|done].
      destruct (Z.eqb_spec (fc + n * dc) fc) as [E2|]; [|done].
      exfalso. apply (ray_step_ne fr fc dr dc n); [lia|done|done].
    + exists b'. repeat split; try done. intros x y Hx Hy.
      destruct (Hcells x y Hx Hy) as [(j & Hj & -> & -> & Hv)|[Hout Hv]].
      * left. exists (j + 1). repeat split; lia.
      * rewrite Hb1 in Hv by done.
        destruct (Z.eqb_spec x fr) as [->|Hxr]; simpl in Hv.
        -- destruct (Z.eqb_spec y fc) as [->|Hyc].
           ++ left. exists 0. repeat split; lia.
           ++ right. split; [|done]. intros j Hj [E1 E2].
              destruct (Z.eq_dec j 0) as [->|]; [lia|].
              apply (Hout (j - 1)); [lia|]. split; lia.
        -- right. split; [|done]. intros j Hj [E1 E2].
           destruct (Z.eq_dec j 0) as [->|]; [lia|].
           apply (Hout (j - 1)); [lia|]. split; lia.
Qed.

(** The flips of one capturing direction. *)
Lemma flip_run_captured (b : Board) (r c dr dc : Z) (wt : bool) (n : Z) :
  wf_board b → In (dr, dc) DIRECTIONS → captured_run b r c dr dc wt n →
  ∃ b', flip_run flip_fuel b (r + dr) (c + dc) dr dc (enemy_color wt) = Some b' ∧
        wf_board b' ∧
        ∀ x y, on_board x = true → on_board y = true →
          (∃ k, 1 ≤ k < n ∧ x = r + k * dr ∧ y = c + k * dc
                ∧ cell b x y = enemy_color wt ∧ cell b' x y = friendly_color wt)
          ∨ ((∀ k, 1 ≤ k < n → ¬ (x = r + k * dr ∧ y = c + k * dc))
             ∧ cell b' x y = cell b x y).
Proof.
  intros Hwf Hd Hrun. pose proof (captured_run_bound _ _ _ _ _ _ _ Hd Hrun) as Hle.
  destruct Hrun as (Hn & Hnr & Hnc & Hcell & Hbefore).
  pose proof (direction_cases _ _ Hd) as (_ & _ & Hnz).
  destruct (flip_run_spec flip_fuel b (r + dr) (c + dc) dr dc (enemy_color wt) (n - 1))
    as (b' & Hb' & Hwf' & Hcells); try done.
  - rewrite enemy_neg. now destruct wt.
  - unfold flip_fuel, NUM_COLS in *. lia.
  - intros j Hj. destruct (Hbefore (j + 1)) as (? & ? & ?); [lia|].
    replace (r + dr + j * dr) with (r + (j + 1) * dr) by lia.
    now replace (c + dc + j * dc) with (c + (j + 1) * dc) by lia.
  - now replace (r + dr + (n - 1) * dr) with (r + n * dr) by lia.
  - now replace (c + dc + (n - 1) * dc) with (c + n * dc) by lia.
  - replace (r + dr + (n - 1) * dr) with (r + n * dr) by lia.
    replace (c + dc + (n - 1) * dc) with (c + n * dc) by lia.
    rewrite Hcell. pose proof (enemy_not_friendly wt). congruence.
  - exists b'. repeat split; try done. intros x y Hx Hy.
    destruct (Hcells x y Hx Hy) as [(j & Hj & E1 & E2 & Hv)|[Hout Hv]].
    + left. exists (j + 1). rewrite enemy_neg in Hv.
      destruct (Hbefore (j + 1)) as (_ & _ & Hold); [lia|].
      replace (r + (j + 1) * dr) with x in Hold by lia.
      replace (c + (j + 1) * dc) with y in Hold by lia.
      repeat split; try lia; done.
    + right. split; [|done]. intros k Hk [E1 E2].
      apply (Hout (k - 1)); [lia|]. split; lia.
Qed.

(** ** What [capture] changes *)

Lemma captured_run_ext (b b0 : Board) (r c dr dc : Z) (wt : bool) (n : Z) :
  (∀ k, 1 ≤ k → on_board (r + k * dr) = true → on_board (c + k * dc) = true →
        cell b (r + k * dr) (c + k * dc) = cell b0 (r + k * dr) (c + k * dc)) →
  captured_run b r c dr dc wt n → captured_run b0 r c dr dc wt n.
Proof.
  intros Hagree (Hn & Hnr & Hnc & Hcell & Hbefore).
  split; [done|]. do 2 (split; [done|]). split.
  - rewrite <- Hagree by (done || lia). done.
  - intros j Hj. destruct (Hbefore j Hj) as (H1 & H2 & H3).
    do 2 (split; [done|]). rewrite <- Hagree by (done || lia). done.
Qed.

Lemma in_run_of_cons (d : Z * Z) (dirs : list (Z * Z)) (b : Board) (r c : Z)
    (wt : bool) (x y : Z) :
  in_run_of dirs b r c wt x y → in_run_of (d :: dirs) b r c wt x y.
Proof.
  intros (dr & dc & n & k & Hin & H). exists dr, dc, n, k. split; [now right|done].
Qed.

Opaque flip_fuel.

Lemma capture_board_spec (b0 : Board) (r c : Z) (wt : bool) (dirs : list (Z * Z)) :
  ∀ b, List.NoDup dirs → (∀ d, In d dirs → In d DIRECTIONS) → wf_board b →
    (∀ dr dc k, In (dr, dc) dirs → 1 ≤ k →
       on_board (r + k * dr) = true → on_board (c + k * dc) = true →
       cell b (r + k * dr) (c + k * dc) = cell b0 (r + k * dr) (c + k * dc)) →
    ∃ b', capture_board dirs b r c wt = Some b' ∧ wf_board b' ∧
          ∀ x y, on_board x = true → on_board y = true →
            (in_run_of dirs b0 r c wt x y ∧ cell b' x y = friendly_color wt)
            ∨ (¬ in_run_of dirs b0 r c wt x y ∧ cell b' x y = cell b x y).
Proof.
  induction dirs as [|[dr dc] dirs IH]; intros b Hnd Hsub Hwf Hagree.
  { exists b. repeat split; try done. intros x y _ _. right. split; [|done].
    intros (? & ? & ? & ? & [] & _). }
  apply List.NoDup_cons_iff in Hnd as [Hnotin Hnd].
  assert (In (dr, dc) DIRECTIONS) as Hd by (apply Hsub; now left).
  assert (∀ n, captured_run b r c dr dc wt n ↔ captured_run b0 r c dr dc wt n) as Hsame.
  { intros n. split; apply captured_run_ext; intros k Hk Hr Hc.
    - apply Hagree; try done. now left.
    - symmetry. apply Hagree; try done. now left. }
  simpl. destruct (captures_in_dir b r dr c dc wt) eqn:Hcap.
  - apply captures_in_dir_run in Hcap as [n Hrun]; try done.
    destruct (flip_run_captured b r c dr dc wt n Hwf Hd Hrun) as (b1 & -> & Hwf1 & Hcells).
    simpl. destruct (IH b1 Hnd) as (b' & Hb' & Hwf' & Hcells'); try done.
    { intros d Hin. apply Hsub. now right. }
    { intros dr' dc' k Hin Hk Hr Hc.
      destruct (Hcells _ _ Hr Hc) as [(k0 & Hk0 & E1 & E2 & _)|[_ ->]].
      - exfalso. apply Hnotin.
        assert ((dr', dc') = (dr, dc)) as <-; [|done].
        apply (rays_disjoint dr' dc' dr dc k k0); try done; try lia.
        apply Hsub. now right.
      - apply Hagree; try done. now right. }
    exists b'. repeat split; try done. intros x y Hx Hy.
    destruct (Hcells' x y Hx Hy) as [[Hin Hv]|[Hout Hv]].
    { left. split; [|done]. now apply in_run_of_cons. }
    destruct (Hcells x y Hx Hy) as [(k & Hk & E1 & E2 & _ & Hv1)|[Hout1 Hv1]].
    + left. split; [|congruence]. exists dr, dc, n, k.
      split; [now left|]. split; [now apply Hsame|]. done.
    + right. split; [|congruence].
      intros (dr' & dc' & n' & k' & [E|Hin] & Hrun' & Hk' & E1 & E2).
      * injection E as <- <-. apply Hsame in Hrun'.
        assert (n' = n) as -> by (eapply captured_run_unique; eauto).
        apply (Hout1 k'); done.
      * apply Hout. exists dr', dc', n', k'. done.
  - simpl. destruct (IH b Hnd) as (b' & Hb' & Hwf' & Hcells'); try done.
    { intros d Hin. apply Hsub. now right. }
    { intros dr' dc' k Hin. apply Hagree. now right. }
    exists b'. repeat split; try done. intros x y Hx Hy.
    destruct (Hcells' x y Hx Hy) as [[Hin Hv]|[Hout Hv]].
    { left. split; [|done]. now apply in_run_of_cons. }
    right. split; [|done].
    intros (dr' & dc' & n' & k' & [E|Hin] & Hrun' & Hk' & E1 & E2).
    + injection E as <- <-. apply Hsame in Hrun'.
      assert (captures_in_dir b r dr c dc wt = true); [|congruence].
      apply captures_in_dir_run; try done. now exists n'.
    + apply Hout. exists dr', dc', n', k'. done.
Qed.

Transparent flip_fuel.

Lemma DIRECTIONS_NoDup : List.NoDup DIRECTIONS.
Proof.
  unfold DIRECTIONS.
  repeat (apply List.NoDup_cons; [simpl; intros H; repeat (destruct H as [H|H]; [discriminate|]); done|]).
  apply List.NoDup_nil.
Qed.

(** ** What [play_move] returns *)

Opaque DIRECTIONS.

Lemma play_move_value_spec (b : Board) (r c : Z) (wt : bool) :
  wf_board b → on_board r = true → on_board c = true →
  ∃ b', play_move_value b (r, c) wt = Some b' ∧ wf_board b' ∧
        ∀ x y, on_board x = true → on_board y = true →
          (x = r ∧ y = c ∧ cell b' x y = friendly_color wt)
          ∨ (¬ (x = r ∧ y = c) ∧ in_captured_run b r c wt x y
             ∧ cell b x y = enemy_color wt ∧ cell b' x y = friendly_color wt)
          ∨ (¬ (x = r ∧ y = c) ∧ ¬ in_captured_run b r c wt x y
             ∧ cell b' x y = cell b x y).
Proof.
  intros Hwf Hr Hc. rewrite play_move_value_unfold. simpl.
  destruct (setitem_on_board b r c (friendly_color wt) Hwf Hr Hc)
    as (b1 & -> & Hwf1 & Hb1); [now destruct wt|]. simpl.
  destruct (capture_board_spec b1 r c wt DIRECTIONS b1 DIRECTIONS_NoDup)
    as (b' & -> & Hwf' & Hcells); try done.
  assert (∀ dr dc n, In (dr, dc) DIRECTIONS →
            captured_run b1 r c dr dc wt n ↔ captured_run b r c dr dc wt n) as Hsame.
  { intros dr dc n Hd. pose proof (direction_cases _ _ Hd) as (_ & _ & Hnz).
    assert (∀ k, 1 ≤ k → on_board (r + k * dr) = true → on_board (c + k * dc) = true →
              cell b1 (r + k * dr) (c + k * dc) = cell b (r + k * dr) (c + k * dc)) as Hag.
    { intros k Hk Hkr Hkc. rewrite Hb1 by done.
      destruct (Z.eqb_spec (r + k * dr) r); [|done].
      destruct (Z.eqb_spec (c + k * dc) c); [|done].
      exfalso. now apply (ray_step_ne r c dr dc k). }
    split; apply captured_run_ext; [done|]. intros k Hk Hkr Hkc. symmetry. now apply Hag. }
  assert (∀ x y, in_run_of DIRECTIONS b1 r c wt x y ↔ in_captured_run b r c wt x y) as Hin.
  { intros x y. unfold in_captured_run.
    split; intros (dr & dc & n & k & Hd & Hrun & H); exists dr, dc, n, k;
      (split; [done|]); (split; [now apply (Hsame dr dc n Hd)|done]). }
  exists b'. repeat split; try done. intros x y Hx Hy.
  assert (¬ in_captured_run b r c wt r c) as Hnot.
  { intros (dr & dc & n & k & Hd & _ & Hk & E1 & E2).
    pose proof (direction_cases _ _ Hd) as (_ & _ & Hnz).
    apply (ray_step_ne r c dr dc k); [lia|done|]. split; lia. }
  destruct (Hcells x y Hx Hy) as [[Hrun Hv]|[Hout Hv]].
  - apply Hin in Hrun. right. left.
    assert (¬ (x = r ∧ y = c)) as Hne by (intros [-> ->]; done).
    repeat split; try done.
    destruct Hrun as (dr & dc & n & k & Hd & (_ & _ & _ & _ & Hbefore) & Hk & -> & ->).
    now destruct (Hbefore k Hk) as (_ & _ & ?).
  - rewrite Hb1 in Hv by done.
    destruct (Z.eqb_spec x r) as [->|Hxr]; simpl in Hv.
    + destruct (Z.eqb_spec y c) as [->|Hyc].
      * left. done.
      * right. right. repeat split; try done; [lia|]. now rewrite <- Hin.
    + right. right. repeat split; try done; [lia|]. now rewrite <- Hin.
Qed.

(** [play_move] raises when a coordinate is outside the array. *)
Lemma play_move_value_out_of_range (b : Board) (r c : Z) (wt : bool) :
  wf_board b → ¬ (- NUM_COLS ≤ r < NUM_COLS ∧ - NUM_COLS ≤ c < NUM_COLS) →
  play_move_value b (r, c) wt = None.
Proof.
  intros Hwf Hout. rewrite play_move_value_unfold. unfold setitem. simpl.
  destruct (py_index r) as [i|] eqn:Hi; simpl; [|done].
  destruct (b !! i) as [line|]; simpl; [|done].
  destruct (py_index c) as [j|] eqn:Hj; simpl; [|done].
  apply py_index_bounds in Hi, Hj. lia.
Qed.

Lemma py_index_wrap (x : Z) :
  - NUM_COLS ≤ x < NUM_COLS →
  on_board (x mod NUM_COLS) = true ∧ py_index x = py_index (x mod NUM_COLS).
Proof.
  unfold NUM_COLS. intros Hx.
  assert (x mod 8 = if x <? 0 then x + 8 else x) as ->.
  { destruct (Z.ltb_spec x 0); Z.div_mod_to_equations; lia. }
  unfold py_index, on_board, NUM_COLS.
  destruct (Z.ltb_spec x 0) as [Hneg|Hpos].
  - destruct (Z.leb_spec 0 x); [lia|]. simpl.
    destruct (Z.leb_spec (- (8)) x); [|lia]. simpl.
    destruct (Z.leb_spec 0 (x + 8)); [|lia].
    destruct (Z.ltb_spec (x + 8) 8); [|lia]. done.
  - destruct (Z.leb_spec 0 x); [|lia].
    destruct (Z.ltb_spec x 8); [|lia]. done.
Qed.

(** A move inside the index range of the array is applied, wherever it
    lands: the cell it addresses then holds the mover's colour. *)
Lemma play_move_value_in_range (b : Board) (r c : Z) (wt : bool) :
  wf_board b → - NUM_COLS ≤ r < NUM_COLS → - NUM_COLS ≤ c < NUM_COLS →
  ∃ b', play_move_value b (r, c) wt = Some b' ∧ wf_board b' ∧
        cell b' (r mod NUM_COLS) (c mod NUM_COLS) = friendly_color wt.
Proof.
  intros Hwf Hr Hc. rewrite play_move_value_unfold. simpl.
  destruct (py_index_wrap r Hr) as [Hr' Er]. destruct (py_index_wrap c Hc) as [Hc' Ec].
  assert (setitem b r c (friendly_color wt)
          = setitem b (r mod NUM_COLS) (c mod NUM_COLS) (friendly_color wt)) as ->.
  { unfold setitem. now rewrite Er, Ec. }
  destruct (setitem_on_board b _ _ (friendly_color wt) Hwf Hr' Hc')
    as (b1 & -> & Hwf1 & Hb1); [now destruct wt|]. simpl.
  destruct (capture_board_spec b1 r c wt DIRECTIONS b1 DIRECTIONS_NoDup)
    as (b' & -> & Hwf' & Hcells); try done.
  exists b'. repeat split; try done.
  destruct (Hcells _ _ Hr' Hc') as [[_ Hv]|[_ Hv]]; [done|].
  rewrite Hv, Hb1 by done. now rewrite !Z.eqb_refl.
Qed.

Transparent DIRECTIONS.

(** ** Legal moves, piece counts and the end of the game *)

Lemma in_range (x n : Z) : In x (range n) ↔ 0 ≤ x < n.
Proof.
  unfold range. rewrite in_map_iff. split.
  - intros (k & <- & Hk). apply in_seq in Hk. lia.
  - intros H. exists (Z.to_nat x). split; [lia|]. apply in_seq. lia.
Qed.

Lemma generate_legal_moves_spec (b : Board) (wt : bool) (r c : Z) :
  In (r, c) (generate_legal_moves b wt) ↔
  on_board r = true ∧ on_board c = true ∧ cell b r c = NOBODY ∧ can_capture b r c wt = true.
Proof.
  unfold generate_legal_moves. rewrite in_flat_map. split.
  - intros (row & Hrow & Hin). apply in_flat_map in Hin as (col & Hcol & Hin).
    apply in_range in Hrow, Hcol.
    destruct (Z.eqb_spec (cell b row col) NOBODY) as [He|]; simpl in Hin; [|done].
    destruct (can_capture b row col wt) eqn:Hcap; [|done].
    destruct Hin as [E|[]]. injection E as <- <-.
    rewrite !on_board_spec. done.
  - intros (Hr & Hc & He & Hcap). apply on_board_spec in Hr, Hc.
    exists r. split; [now apply in_range|]. apply in_flat_map.
    exists c. split; [now apply in_range|].
    rewrite He, Hcap. simpl. now left.
Qed.

Lemma legal_move_on_board (b : Board) (wt : bool) (m : Z * Z) :
  In m (generate_legal_moves b wt) → on_board m.1 = true ∧ on_board m.2 = true.
Proof.
  destruct m as [r c]. rewrite generate_legal_moves_spec. simpl. tauto.
Qed.

(** A legal move can be played, and gives a board. *)
Lemma legal_move_plays (b : Board) (wt wt' : bool) (m : Z * Z) :
  wf_board b → In m (generate_legal_moves b wt') →
  ∃ b', play_move_value b m wt = Some b' ∧ wf_board b'.
Proof.
  intros Hwf Hin. apply legal_move_on_board in Hin as [Hr Hc]. destruct m as [r c].
  destruct (play_move_value_spec b r c wt Hwf Hr Hc) as (b' & ? & ? & _). eauto.
Qed.

Lemma count_nonzero_eq_bounds (b : Board) (v : Z) :
  wf_board b → 0 ≤ count_nonzero_eq b v ≤ NUM_COLS * NUM_COLS.
Proof.
  intros Hwf. unfold count_nonzero_eq.
  pose proof (List.filter_length_le (fun x => x =? v) (concat b)) as Hle.
  assert (length (concat b) = (length b * Z.to_nat NUM_COLS)%nat) as Hlen.
  { assert (∀ line, In line b → length line = Z.to_nat NUM_COLS) as Hrows.
    { intros line Hin. apply list_elem_of_In, list_elem_of_lookup in Hin as [i Hi].
      now destruct (wf_board_row b i line Hwf Hi). }
    clear Hwf Hle. induction b as [|line b IH]; [done|].
    change (concat (line :: b)) with (line ++ concat b).
    rewrite length_app, IH, length_cons.
    - rewrite (Hrows line) by now left. lia.
    - intros line' Hin. apply Hrows. now right. }
  rewrite Hlen, (wf_board_length b Hwf) in Hle. unfold NUM_COLS in *. lia.
Qed.

(** The static evaluation of a board stays below the score of a win. *)
Lemma evaluation_function_bounds (b : Board) :
  wf_board b → - WIN_VAL < evaluation_function b < WIN_VAL.
Proof.
  intros Hwf. unfold evaluation_function.
  pose proof (count_nonzero_eq_bounds b WHITE Hwf).
  pose proof (count_nonzero_eq_bounds b BLACK Hwf).
  unfold WIN_VAL, NUM_COLS in *. lia.
Qed.

Lemma find_winner_cases (b : Board) :
  (count_nonzero_eq b WHITE > count_nonzero_eq b BLACK ∧ find_winner b = WHITE)
  ∨ (count_nonzero_eq b WHITE < count_nonzero_eq b BLACK ∧ find_winner b = BLACK)
  ∨ (count_nonzero_eq b WHITE = count_nonzero_eq b BLACK ∧ find_winner b = TIE).
Proof.
  unfold find_winner.
  destruct (Z.gtb_spec (count_nonzero_eq b WHITE) (count_nonzero_eq b BLACK)).
  { left. split; [lia|done]. }
  destruct (Z.ltb_spec (count_nonzero_eq b WHITE) (count_nonzero_eq b BLACK)).
  { right. left. done. }
  right. right. split; [lia|done].
Qed.

Lemma check_game_over_cases (b : Board) :
  ((generate_legal_moves b true ≠ [] ∨ generate_legal_moves b false ≠ [])
   ∧ check_game_over b = NOBODY)
  ∨ (generate_legal_moves b true = [] ∧ generate_legal_moves b false = []
     ∧ check_game_over b = find_winner b).
Proof.
  unfold check_game_over.
  destruct (generate_legal_moves b true) as [|m ms]; simpl.
  - destruct (generate_legal_moves b false) as [|m' ms']; simpl.
    + right. done.
    + left. split; [right; done|done].
  - left. split; [left; done|done].
Qed.

Opaque generate_legal_moves play_move_value count_nonzero_eq.

(** When the game is not over, one of the two sides can move: a pass is
    never followed by a pass. *)
Lemma no_double_pass (b : Board) (wt : bool) :
  check_game_over b = NOBODY → generate_legal_moves b wt = [] →
  generate_legal_moves b (negb wt) ≠ [].
Proof.
  intros Hgo He.
  destruct (check_game_over_cases b) as [[Hmoves _]|(H1 & H2 & Hw)].
  - destruct wt; simpl; destruct Hmoves; congruence.
  - rewrite Hw in Hgo.
    destruct (find_winner_cases b) as [[_ E]|[[_ E]|[_ E]]]; rewrite E in Hgo; discriminate.
Qed.

Lemma is_game_over_spec (b : Board) :
  is_game_over b = true ↔
  generate_legal_moves b true = [] ∧ generate_legal_moves b false = [].
Proof.
  unfold is_game_over.
  destruct (generate_legal_moves b true), (generate_legal_moves b false);
    split; try done; intros [? ?]; done.
Qed.

(** ** The calls of [minimax_value] *)

Arguments minimax_value : simpl never.
Arguments exhaustive_value : simpl never.

Lemma minimax_value_S (fuel : nat) (b : Board) (wt : bool) (d : Z) (α β : bound) :
  minimax_value (S fuel) b wt d α β
  = if d =? 0 then Some (evaluation_function b)
    else if check_game_over b =? TIE then Some 0
    else if check_game_over b =? WHITE then Some WIN_VAL
    else if check_game_over b =? BLACK then Some (WIN_VAL * -1)
    else if wt then find_max_score (minimax_value fuel) (maxsize * -1) b wt d α β
    else find_min_score (minimax_value fuel) maxsize b wt d α β.
Proof. reflexivity. Qed.

Lemma minimax_value_depth0 (fuel : nat) (b : Board) (wt : bool) (α β : bound) :
  minimax_value (S fuel) b wt 0 α β = Some (evaluation_function b).
Proof. reflexivity. Qed.

Lemma minimax_value_game_over (fuel : nat) (b : Board) (wt : bool) (d : Z) (α β : bound) :
  d ≠ 0 → generate_legal_moves b true = [] → generate_legal_moves b false = [] →
  minimax_value (S fuel) b wt d α β = Some (terminal_score b).
Proof.
  intros Hd H1 H2. rewrite minimax_value_S. destruct (Z.eqb_spec d 0); [done|].
  destruct (check_game_over_cases b) as [[[?|?] _]|(_ & _ & ->)]; [congruence..|].
  unfold terminal_score.
  destruct (find_winner_cases b) as [[Hc ->]|[[Hc ->]|[Hc ->]]];
    cbn [Z.eqb TIE WHITE BLACK Pos.eqb].
  - destruct (Z.gtb_spec (count_nonzero_eq b WHITE) (count_nonzero_eq b BLACK)); [done|lia].
  - destruct (Z.gtb_spec (count_nonzero_eq b WHITE) (count_nonzero_eq b BLACK)); [lia|].
    destruct (Z.gtb_spec (count_nonzero_eq b BLACK) (count_nonzero_eq b WHITE)); [done|lia].
  - destruct (Z.gtb_spec (count_nonzero_eq b WHITE) (count_nonzero_eq b BLACK)); [lia|].
    destruct (Z.gtb_spec (count_nonzero_eq b BLACK) (count_nonzero_eq b WHITE)); [lia|done].
Qed.

Lemma minimax_value_node (fuel : nat) (b : Board) (wt : bool) (d : Z) (α β : bound) :
  d ≠ 0 → check_game_over b = NOBODY →
  minimax_value (S fuel) b wt d α β
  = if wt then find_max_score (minimax_value fuel) (maxsize * -1) b wt d α β
    else find_min_score (minimax_value fuel) maxsize b wt d α β.
Proof.
  intros Hd Hgo. rewrite minimax_value_S. destruct (Z.eqb_spec d 0); [done|].
  now rewrite Hgo.
Qed.

(** The three cases of a call below the cutoff depth. *)
Lemma node_cases (b : Board) (wt : bool) :
  (generate_legal_moves b true = [] ∧ generate_legal_moves b false = [])
  ∨ (check_game_over b = NOBODY ∧ generate_legal_moves b wt = []
     ∧ generate_legal_moves b (negb wt) ≠ [])
  ∨ (check_game_over b = NOBODY ∧ generate_legal_moves b wt ≠ []).
Proof.
  destruct (check_game_over_cases b) as [[Hm Hgo]|(H1 & H2 & _)].
  2:{ left. split; assumption. }
  right. destruct (generate_legal_moves b wt) as [|m ms] eqn:E.
  - left. split; [assumption|]. split; [reflexivity|].
    apply no_double_pass; assumption.
  - right. split; [assumption|discriminate].
Qed.

Section Loops.
Variables rec rec' : Board → bool → Z → bound → bound → option Z.
Hypothesis rec_le : ∀ b wt d α β v, rec b wt d α β = Some v → rec' b wt d α β = Some v.

Lemma max_loop_mono (b : Board) (d : Z) (β : bound) (moves : list (Z * Z)) :
  ∀ best α v, max_loop rec b d β moves best α = Some v →
              max_loop rec' b d β moves best α = Some v.
Proof.
  induction moves as [|m moves IH]; intros best α v; simpl; [done|].
  destruct (play_move_value b m true) as [child|]; simpl; [|done].
  destruct (rec child false (d - 1) α β) as [s|] eqn:Hs; simpl; [|done].
  rewrite (rec_le _ _ _ _ _ _ Hs). simpl.
  destruct (ble β _); [done|]. apply IH.
Qed.

Lemma min_loop_mono (b : Board) (d : Z) (α : bound) (moves : list (Z * Z)) :
  ∀ best β v, min_loop rec b d α moves best β = Some v →
              min_loop rec' b d α moves best β = Some v.
Proof.
  induction moves as [|m moves IH]; intros best β v; simpl; [done|].
  destruct (play_move_value b m false) as [child|]; simpl; [|done].
  destruct (rec child true (d - 1) α β) as [s|] eqn:Hs; simpl; [|done].
  rewrite (rec_le _ _ _ _ _ _ Hs). simpl.
  destruct (ble _ α); [done|]. apply IH.
Qed.
End Loops.

(** More fuel does not change the value of a call that has returned. *)
Lemma minimax_value_mono (fuel fuel' : nat) (b : Board) (wt : bool) (d : Z)
    (α β : bound) (v : Z) :
  (fuel ≤ fuel')%nat →
  minimax_value fuel b wt d α β = Some v → minimax_value fuel' b wt d α β = Some v.
Proof.
  revert fuel' b wt d α β v.
  induction fuel as [|fuel IH]; intros fuel' b wt d α β v Hle; [done|].
  destruct fuel' as [|fuel']; [lia|]. rewrite !minimax_value_S.
  destruct (d =? 0); [done|].
  destruct (check_game_over b =? TIE); [done|].
  destruct (check_game_over b =? WHITE); [done|].
  destruct (check_game_over b =? BLACK); [done|].
  assert (∀ b wt d α β v, minimax_value fuel b wt d α β = Some v →
                          minimax_value fuel' b wt d α β = Some v) as Hrec.
  { intros. apply (IH fuel'); [lia|done]. }
  destruct wt.
  - unfold find_max_score. destruct (_ =? 0); [apply Hrec|].
    now apply max_loop_mono.
  - unfold find_min_score. destruct (_ =? 0); [apply Hrec|].
    now apply min_loop_mono.
Qed.

Section LoopsReturn.
Variable rec : Board → bool → Z → bound → bound → option Z.
Variables (b : Board) (d : Z).

Lemma max_loop_returns (β : bound) (moves : list (Z * Z)) :
  (∀ m, In m moves →
        ∃ child, play_move_value b m true = Some child ∧
                 ∀ α, is_Some (rec child false (d - 1) α β)) →
  ∀ best α, is_Some (max_loop rec b d β moves best α).
Proof.
  induction moves as [|m moves IH]; intros H best α; simpl; [by eexists|].
  destruct (H m) as (child & -> & Hrec); [now left|]. simpl.
  destruct (Hrec α) as [s ->]. simpl.
  destruct (ble β _); [by eexists|]. apply IH. intros m' Hin. apply H. now right.
Qed.

Lemma min_loop_returns (α : bound) (moves : list (Z * Z)) :
  (∀ m, In m moves →
        ∃ child, play_move_value b m false = Some child ∧
                 ∀ β, is_Some (rec child true (d - 1) α β)) →
  ∀ best β, is_Some (min_loop rec b d α moves best β).
Proof.
  induction moves as [|m moves IH]; intros H best β; simpl; [by eexists|].
  destruct (H m) as (child & -> & Hrec); [now left|]. simpl.
  destruct (Hrec β) as [s ->]. simpl.
  destruct (ble _ α); [by eexists|]. apply IH. intros m' Hin. apply H. now right.
Qed.
End LoopsReturn.

Lemma length_zero_nil {A : Type} (l : list A) : (Z.of_nat (length l) =? 0) = true ↔ l = [].
Proof. destruct l; simpl; split; try done. Qed.

(** A call at depth [d] needs at most [2 * d + 1] nested calls: a move
    takes one unit of depth, and a pass, which takes none, is followed
    by a move. *)
Lemma minimax_value_returns (fuel : nat) :
  ∀ b wt d α β, wf_board b → 0 ≤ d →
    (2 * Z.to_nat d + 1 ≤ fuel)%nat
    ∨ ((2 * Z.to_nat d ≤ fuel)%nat ∧ 0 < d ∧ generate_legal_moves b wt ≠ []) →
    is_Some (minimax_value fuel b wt d α β).
Proof.
  induction fuel as [|fuel IH]; intros b wt d α β Hwf Hd Hfuel; [lia|].
  destruct (Z.eq_dec d 0) as [->|Hd0]; [rewrite minimax_value_depth0; by eexists|].
  destruct (node_cases b wt) as [[H1 H2]|[(Hgo & Hnone & Hopp)|[Hgo Hsome]]].
  - rewrite (minimax_value_game_over fuel b wt d α β Hd0 H1 H2). by eexists.
  - rewrite (minimax_value_node fuel b wt d α β Hd0 Hgo).
    destruct Hfuel as [Hfuel|(_ & _ & Hne)]; [|destruct (Hne Hnone)].
    destruct wt; cbn [negb] in Hopp.
    + unfold find_max_score. rewrite Hnone. cbn [length Z.of_nat Z.eqb].
      apply IH; [assumption|assumption|]. right.
      split; [lia|]. split; [lia|assumption].
    + unfold find_min_score. rewrite Hnone. cbn [length Z.of_nat Z.eqb].
      apply IH; [assumption|assumption|]. right.
      split; [lia|]. split; [lia|assumption].
  - rewrite (minimax_value_node fuel b wt d α β Hd0 Hgo).
    assert (∀ wt' (m : Z * Z), In m (generate_legal_moves b wt) →
              ∃ child, play_move_value b m wt' = Some child ∧
                ∀ wt'' α' β', is_Some (minimax_value fuel child wt'' (d - 1) α' β')) as Hch.
    { intros wt' m Hin.
      destruct (legal_move_plays b wt' wt m Hwf Hin) as (child & Hplay & Hwf').
      exists child. split; [assumption|]. intros wt'' α' β'.
      apply IH; [assumption|lia|]. left. lia. }
    clear Hfuel. destruct wt.
    + unfold find_max_score.
      destruct (generate_legal_moves b true) as [|m0 ms] eqn:E; [destruct (Hsome eq_refl)|].
      cbn [length Z.of_nat Z.eqb]. apply max_loop_returns. intros m Hin.
      destruct (Hch true m Hin) as (child & Hplay & Hret).
      exists child. split; [assumption|]. intros α'. apply Hret.
    + unfold find_min_score.
      destruct (generate_legal_moves b false) as [|m0 ms] eqn:E; [destruct (Hsome eq_refl)|].
      cbn [length Z.of_nat Z.eqb]. apply min_loop_returns. intros m Hin.
      destruct (Hch false m Hin) as (child & Hplay & Hret).
      exists child. split; [assumption|]. intros β'. apply Hret.
Qed.

(** Every call returns, with one value for every sufficient fuel. *)
Lemma minimax_value_total (b : Board) (wt : bool) (d : Z) (α β : bound) :
  wf_board b → 0 ≤ d →
  ∃ v, ∀ fuel, (2 * Z.to_nat d + 1 ≤ fuel)%nat → minimax_value fuel b wt d α β = Some v.
Proof.
  intros Hwf Hd.
  destruct (minimax_value_returns (2 * Z.to_nat d + 1) b wt d α β Hwf Hd) as [v Hv];
    [now left|].
  exists v. intros fuel Hle. eapply minimax_value_mono; eauto.
Qed.

(** ** The exhaustive search *)

Lemma exhaustive_value_S (fuel : nat) (b : Board) (wt : bool) (d : Z) :
  exhaustive_value (S fuel) b wt d
  = if d =? 0 then Some (evaluation_function b)
    else if is_game_over b then Some (terminal_score b)
    else match generate_legal_moves b wt with
         | [] => exhaustive_value fuel b (negb wt) d
         | m0 :: ms =>
             values ← mapM (exhaustive_child (exhaustive_value fuel) b wt d) (m0 :: ms);
             match values with
             | [] => None
             | v :: vs => Some (if wt then maximum v vs else minimum v vs)
             end
         end.
Proof. reflexivity. Qed.

Lemma is_game_over_false (b : Board) :
  check_game_over b = NOBODY → is_game_over b = false.
Proof.
  intros Hgo. destruct (is_game_over b) eqn:E; [|reflexivity].
  apply is_game_over_spec in E as [H1 H2].
  destruct (check_game_over_cases b) as [[[Hm|Hm] _]|(_ & _ & Hw)];
    [destruct (Hm H1)|destruct (Hm H2)|].
  rewrite Hw in Hgo.
  destruct (find_winner_cases b) as [[_ E]|[[_ E]|[_ E]]]; rewrite E in Hgo; discriminate.
Qed.

Lemma terminal_score_bounds (b : Board) : - WIN_VAL ≤ terminal_score b ≤ WIN_VAL.
Proof.
  unfold terminal_score, WIN_VAL.
  destruct (_ >? _); [lia|]. destruct (_ >? _); lia.
Qed.

Lemma maximum_bounds (lo hi x : Z) (xs : list Z) :
  lo ≤ x ≤ hi → Forall (λ y, lo ≤ y ≤ hi) xs → lo ≤ maximum x xs ≤ hi.
Proof.
  unfold maximum. intros Hx Hxs. revert x Hx.
  induction Hxs as [|y ys Hy _ IH]; intros x Hx; simpl; [lia|]. apply IH. lia.
Qed.

Lemma minimum_bounds (lo hi x : Z) (xs : list Z) :
  lo ≤ x ≤ hi → Forall (λ y, lo ≤ y ≤ hi) xs → lo ≤ minimum x xs ≤ hi.
Proof.
  unfold minimum. intros Hx Hxs. revert x Hx.
  induction Hxs as [|y ys Hy _ IH]; intros x Hx; simpl; [lia|]. apply IH. lia.
Qed.

(** The exhaustive value lies between the scores of a loss and a win. *)
Lemma exhaustive_value_bounds (fuel : nat) :
  ∀ b wt d m, wf_board b → exhaustive_value fuel b wt d = Some m →
              - WIN_VAL ≤ m ≤ WIN_VAL.
Proof.
  induction fuel as [|fuel IH]; intros b wt d m Hwf; [discriminate|].
  rewrite exhaustive_value_S.
  destruct (d =? 0).
  { intros E. injection E as <-. pose proof (evaluation_function_bounds b Hwf). lia. }
  destruct (is_game_over b).
  { intros E. injection E as <-. apply terminal_score_bounds. }
  destruct (generate_legal_moves b wt) as [|m0 ms] eqn:Hmoves.
  { apply IH. assumption. }
  destruct (mapM _ _) as [values|] eqn:Hmap; [|discriminate]. cbn [mbind option_bind].
  apply mapM_Some_1 in Hmap.
  assert (Forall (λ y, - WIN_VAL ≤ y ≤ WIN_VAL) values) as Hall.
  { assert (∀ m', In m' (m0 :: ms) → In m' (generate_legal_moves b wt)) as Hsub
      by (intros m' Hin; rewrite Hmoves; exact Hin).
    clear Hmoves. induction Hmap as [|m' y ms' ys Hy _ IHm]; [constructor|].
    constructor.
    - unfold exhaustive_child in Hy.
      destruct (legal_move_plays b wt wt m' Hwf) as (child & Hplay & Hwf');
        [apply Hsub; now left|].
      rewrite Hplay in Hy. cbn [mbind option_bind] in Hy. eapply IH; eassumption.
    - apply IHm. intros m'' Hin. apply Hsub. now right. }
  destruct values as [|v vs]; [discriminate|].
  intros E. injection E as <-. apply Forall_cons_1 in Hall as [Hv Hvs].
  destruct wt; [now apply maximum_bounds|now apply minimum_bounds].
Qed.

(** More fuel does not change the value of a search that has returned. *)
Lemma exhaustive_value_mono (fuel : nat) :
  ∀ fuel' b wt d m, (fuel ≤ fuel')%nat →
    exhaustive_value fuel b wt d = Some m → exhaustive_value fuel' b wt d = Some m.
Proof.
  induction fuel as [|fuel IH]; intros fuel' b wt d m Hle; [discriminate|].
  destruct fuel' as [|fuel']; [lia|]. rewrite !exhaustive_value_S.
  destruct (d =? 0); [exact id|].
  destruct (is_game_over b); [exact id|].
  destruct (generate_legal_moves b wt) as [|m0 ms].
  { apply IH. lia. }
  destruct (mapM (exhaustive_child (exhaustive_value fuel) b wt d) (m0 :: ms))
    as [values|] eqn:Hmap; [|discriminate]. cbn [mbind option_bind].
  assert (mapM (exhaustive_child (exhaustive_value fuel') b wt d) (m0 :: ms) = Some values)
    as ->; [|exact id].
  apply mapM_Some_2. apply mapM_Some_1 in Hmap.
  eapply List.Forall2_impl; [|exact Hmap]. intros m' y. unfold exhaustive_child.
  destruct (play_move_value b m' wt) as [child|]; [|discriminate].
  cbn [mbind option_bind]. apply IH. lia.
Qed.

Lemma exhaustive_value_returns (fuel : nat) :
  ∀ b wt d, wf_board b → 0 ≤ d →
    (2 * Z.to_nat d + 1 ≤ fuel)%nat
    ∨ ((2 * Z.to_nat d ≤ fuel)%nat ∧ 0 < d ∧ generate_legal_moves b wt ≠ []) →
    is_Some (exhaustive_value fuel b wt d).
Proof.
  induction fuel as [|fuel IH]; intros b wt d Hwf Hd Hfuel; [lia|].
  rewrite exhaustive_value_S.
  destruct (Z.eqb_spec d 0) as [->|Hd0]; [by eexists|].
  destruct (node_cases b wt) as [[H1 H2]|[(Hgo & Hnone & Hopp)|[Hgo Hsome]]].
  - rewrite (proj2 (is_game_over_spec b) (conj H1 H2)). by eexists.
  - rewrite (is_game_over_false b Hgo), Hnone.
    destruct Hfuel as [Hfuel|(_ & _ & Hne)]; [|destruct (Hne Hnone)].
    apply IH; [assumption|assumption|]. right.
    split; [lia|]. split; [lia|assumption].
  - rewrite (is_game_over_false b Hgo).
    destruct (generate_legal_moves b wt) as [|m0 ms] eqn:Hmoves; [destruct (Hsome eq_refl)|].
    destruct (mapM_is_Some_2 (exhaustive_child (exhaustive_value fuel) b wt d) (m0 :: ms))
      as [values Hmap].
    { apply List.Forall_forall. intros m Hin. rewrite <- Hmoves in Hin.
      destruct (legal_move_plays b wt wt m Hwf Hin) as (child & Hplay & Hwf').
      unfold compose, exhaustive_child. rewrite Hplay. cbn [mbind option_bind].
      apply IH; [assumption|lia|]. left. lia. }
    rewrite Hmap. cbn [mbind option_bind].
    apply length_mapM in Hmap. destruct values as [|v vs]; [discriminate|]. by eexists.
Qed.

Lemma exhaustive_value_total (b : Board) (wt : bool) (d : Z) :
  wf_board b → 0 ≤ d →
  ∃ m, ∀ fuel, (2 * Z.to_nat d + 1 ≤ fuel)%nat → exhaustive_value fuel b wt d = Some m.
Proof.
  intros Hwf Hd.
  destruct (exhaustive_value_returns (2 * Z.to_nat d + 1) b wt d Hwf Hd) as [m Hm];
    [left; lia|].
  exists m. intros fuel Hle. eapply exhaustive_value_mono; eassumption.
Qed.

(** ** Soundness of the pruning *)

Ltac bound_cases :=
  repeat match goal with
         | H : context [Z.leb ?x ?y] |- _ => destruct (Z.leb_spec x y)
         | |- context [Z.leb ?x ?y] => destruct (Z.leb_spec x y)
         end;
  cbn [negb] in *;
  repeat match goal with
         | H : ?a = ?a → _ |- _ => specialize (H eq_refl)
         | H : false = true → _ |- _ => clear H
         | H : true = false |- _ => discriminate H
         | H : false = true |- _ => discriminate H
         end.

Ltac window_solve :=
  unfold window_sound, blt, ble in *;
  repeat match goal with a : bound |- _ => destruct a end;
  cbn [negb] in *; bound_cases;
  repeat split; intros; try discriminate; try lia.

Lemma window_sound_refl (α β : bound) (v : Z) : window_sound α β v v.
Proof. unfold window_sound. repeat split; intros; lia. Qed.

Lemma fold_max_shift (ys : list Z) (a c : Z) :
  fold_left Z.max ys (Z.max a c) = Z.max c (fold_left Z.max ys a).
Proof.
  revert a c. induction ys as [|y ys IH]; intros a c; simpl; [lia|].
  replace (Z.max (Z.max a c) y) with (Z.max (Z.max a y) c) by lia. apply IH.
Qed.

Lemma fold_max_ge (ys : list Z) (a : Z) : a ≤ fold_left Z.max ys a.
Proof.
  revert a. induction ys as [|y ys IH]; intros a; simpl; [lia|].
  specialize (IH (Z.max a y)). lia.
Qed.

Lemma fold_min_shift (ys : list Z) (a c : Z) :
  fold_left Z.min ys (Z.min a c) = Z.min c (fold_left Z.min ys a).
Proof.
  revert a c. induction ys as [|y ys IH]; intros a c; simpl; [lia|].
  replace (Z.min (Z.min a c) y) with (Z.min (Z.min a y) c) by lia. apply IH.
Qed.

Lemma fold_min_le (ys : list Z) (a : Z) : fold_left Z.min ys a ≤ a.
Proof.
  revert a. induction ys as [|y ys IH]; intros a; simpl; [lia|].
  specialize (IH (Z.min a y)). lia.
Qed.

Section LoopSound.
Variable rec : Board → bool → Z → bound → bound → option Z.
Variables (b : Board) (d : Z).
(** [truth child y]: the exhaustive value of [child] is [y]. *)
Variable truth : Board → Z → Prop.

Lemma max_loop_sound (β : bound) :
  (∀ child α s y, truth child y → blt α β = true →
     rec child false (d - 1) α β = Some s → window_sound α β s y) →
  ∀ moves values, Forall2 (λ m y, ∃ child, play_move_value b m true = Some child
                                          ∧ truth child y) moves values →
  ∀ best α v, blt α β = true →
    max_loop rec b d β moves best α = Some v →
    window_sound α β v (fold_left Z.max values best).
Proof.
  intros Hrec moves values Hall.
  induction Hall as [|m y moves values (child & Hplay & Hy) _ IH];
    intros best α v Hαβ Hloop.
  { injection Hloop as <-. apply window_sound_refl. }
  cbn [max_loop] in Hloop. rewrite Hplay in Hloop. cbn [mbind option_bind] in Hloop.
  destruct (rec child false (d - 1) α β) as [s|] eqn:Hs; [|discriminate].
  cbn [mbind option_bind] in Hloop.
  pose proof (Hrec child α s y Hy Hαβ Hs) as Hw.
  assert ((if s >? best then s else best) = Z.max best s) as Eb
    by (destruct (Z.gtb_spec s best); lia).
  rewrite Eb in Hloop. clear Eb Hs Hrec.
  cbn [fold_left]. rewrite fold_max_shift.
  pose proof (fold_max_ge values best) as Hge.
  destruct (blt α (Fin s)) eqn:Hup.
  - destruct (ble β (Fin s)) eqn:Hcut.
    + injection Hloop as <-. clear IH.
      generalize dependent (fold_left Z.max values best). intros R HR.
      window_solve.
    + apply IH in Hloop; [|unfold blt; now rewrite Hcut].
      rewrite fold_max_shift in Hloop.
      generalize dependent (fold_left Z.max values best). intros R HR Hloop.
      clear IH. window_solve.
  - destruct (ble β α) eqn:Hcut.
    + unfold blt in Hαβ. rewrite Hcut in Hαβ. discriminate.
    + apply IH in Hloop; [|assumption].
      rewrite fold_max_shift in Hloop.
      generalize dependent (fold_left Z.max values best). intros R HR Hloop.
      clear IH. window_solve.
Qed.

Lemma min_loop_sound (α : bound) :
  (∀ child β s y, truth child y → blt α β = true →
     rec child true (d - 1) α β = Some s → window_sound α β s y) →
  ∀ moves values, Forall2 (λ m y, ∃ child, play_move_value b m false = Some child
                                          ∧ truth child y) moves values →
  ∀ best β v, blt α β = true →
    min_loop rec b d α moves best β = Some v →
    window_sound α β v (fold_left Z.min values best).
Proof.
  intros Hrec moves values Hall.
  induction Hall as [|m y moves values (child & Hplay & Hy) _ IH];
    intros best β v Hαβ Hloop.
  { injection Hloop as <-. apply window_sound_refl. }
  cbn [min_loop] in Hloop. rewrite Hplay in Hloop. cbn [mbind option_bind] in Hloop.
  destruct (rec child true (d - 1) α β) as [s|] eqn:Hs; [|discriminate].
  cbn [mbind option_bind] in Hloop.
  pose proof (Hrec child β s y Hy Hαβ Hs) as Hw. clear Hs Hrec.
  cbn [fold_left]. rewrite fold_min_shift.
  pose proof (fold_min_le values best) as Hle.
  unfold bmin in Hloop.
  destruct (blt (Fin s) β) eqn:Hup.
  - destruct (ble (Fin s) α) eqn:Hcut.
    + injection Hloop as <-. clear IH.
      generalize dependent (fold_left Z.min values best). intros R HR.
      window_solve.
    + apply IH in Hloop; [|unfold blt; now rewrite Hcut].
      rewrite fold_min_shift in Hloop.
      generalize dependent (fold_left Z.min values best). intros R HR Hloop.
      clear IH. window_solve.
  - destruct (ble β α) eqn:Hcut.
    + unfold blt in Hαβ. rewrite Hcut in Hαβ. discriminate.
    + apply IH in Hloop; [|assumption].
      rewrite fold_min_shift in Hloop.
      generalize dependent (fold_left Z.min values best). intros R HR Hloop.
      clear IH. window_solve.
Qed.
End LoopSound.

Lemma maximum_from_sentinel (y : Z) (ys : list Z) :
  - WIN_VAL ≤ y → fold_left Z.max (y :: ys) (maxsize * -1) = maximum y ys.
Proof.
  intros Hy. unfold maximum. cbn [fold_left]. f_equal.
  unfold WIN_VAL, maxsize in *. lia.
Qed.

Lemma minimum_from_sentinel (y : Z) (ys : list Z) :
  y ≤ WIN_VAL → fold_left Z.min (y :: ys) maxsize = minimum y ys.
Proof.
  intros Hy. unfold minimum. cbn [fold_left]. f_equal.
  unfold WIN_VAL, maxsize in *. lia.
Qed.

(** The values of the children of a node, as the exhaustive search and
    as the loops of [find_max_score] and [find_min_score] see them. *)
Lemma children_values (fuel' : nat) (b : Board) (wt : bool) (d : Z)
    (moves : list (Z * Z)) (values : list Z) :
  wf_board b → (∀ m, In m moves → In m (generate_legal_moves b wt)) →
  Forall2 (λ m y, exhaustive_child (exhaustive_value fuel') b wt d m = Some y) moves values →
  Forall2 (λ m y, ∃ child, play_move_value b m wt = Some child
                    ∧ (wf_board child
                       ∧ exhaustive_value fuel' child (negb wt) (d - 1) = Some y))
          moves values.
Proof.
  intros Hwf Hsub Hall. induction Hall as [|m y moves values Hy _ IH]; constructor.
  - destruct (legal_move_plays b wt wt m Hwf) as (child & Hplay & Hwf');
      [apply Hsub; now left|].
    unfold exhaustive_child in Hy. rewrite Hplay in Hy. cbn [mbind option_bind] in Hy.
    exists child. split; [assumption|]. split; assumption.
  - apply IH. intros m' Hin. apply Hsub. now right.
Qed.

(** The value [minimax_value] returns for a window and the value of the
    exhaustive search. *)
Lemma minimax_value_sound (fuel : nat) :
  ∀ fuel' b wt d α β v m, wf_board b → blt α β = true →
    minimax_value fuel b wt d α β = Some v →
    exhaustive_value fuel' b wt d = Some m →
    window_sound α β v m.
Proof.
  induction fuel as [|fuel IH]; intros fuel' b wt d α β v m Hwf Hαβ Hv Hm; [discriminate|].
  destruct fuel' as [|fuel']; [discriminate|].
  rewrite exhaustive_value_S in Hm.
  destruct (Z.eqb_spec d 0) as [->|Hd0].
  { rewrite minimax_value_depth0 in Hv. injection Hv as <-. injection Hm as <-.
    apply window_sound_refl. }
  destruct (node_cases b wt) as [[H1 H2]|[(Hgo & Hnone & Hopp)|[Hgo Hsome]]].
  - rewrite (minimax_value_game_over fuel b wt d α β Hd0 H1 H2) in Hv.
    rewrite (proj2 (is_game_over_spec b) (conj H1 H2)) in Hm.
    injection Hv as <-. injection Hm as <-. apply window_sound_refl.
  - rewrite (minimax_value_node fuel b wt d α β Hd0 Hgo) in Hv.
    rewrite (is_game_over_false b Hgo), Hnone in Hm. clear Hopp.
    destruct wt; cbn [negb] in Hm.
    + unfold find_max_score in Hv. rewrite Hnone in Hv. cbn [length Z.of_nat Z.eqb] in Hv.
      exact (IH fuel' b false d α β v m Hwf Hαβ Hv Hm).
    + unfold find_min_score in Hv. rewrite Hnone in Hv. cbn [length Z.of_nat Z.eqb] in Hv.
      exact (IH fuel' b true d α β v m Hwf Hαβ Hv Hm).
  - rewrite (minimax_value_node fuel b wt d α β Hd0 Hgo) in Hv.
    rewrite (is_game_over_false b Hgo) in Hm.
    destruct (generate_legal_moves b wt) as [|m0 ms] eqn:Hmoves; [destruct (Hsome eq_refl)|].
    destruct (mapM (exhaustive_child (exhaustive_value fuel') b wt d) (m0 :: ms))
      as [values|] eqn:Hmap; [|discriminate].
    cbn [mbind option_bind] in Hm.
    destruct values as [|y ys]; [discriminate|].
    apply mapM_Some_1 in Hmap.
    apply (children_values fuel' b wt d _ _ Hwf) in Hmap;
      [|intros m' Hin; rewrite Hmoves; exact Hin].
    assert (- WIN_VAL ≤ y ≤ WIN_VAL) as Hy.
    { apply Forall2_cons_1 in Hmap as [(child & _ & Hwf' & Hchild) _].
      exact (exhaustive_value_bounds fuel' child (negb wt) (d - 1) y Hwf' Hchild). }
    clear Hsome Hgo. destruct wt; cbn [negb] in Hmap.
    + injection Hm as <-. unfold find_max_score in Hv. rewrite Hmoves in Hv.
      cbn [length Z.of_nat Z.eqb] in Hv. rewrite <- maximum_from_sentinel by lia.
      refine (max_loop_sound (minimax_value fuel) b d _ β _ _ _ Hmap _ α v Hαβ Hv).
      intros child α' s y' [Hwf' Hy'] Hα' Hs.
      exact (IH fuel' child false (d - 1) α' β s y' Hwf' Hα' Hs Hy').
    + injection Hm as <-. unfold find_min_score in Hv. rewrite Hmoves in Hv.
      cbn [length Z.of_nat Z.eqb] in Hv. rewrite <- minimum_from_sentinel by lia.
      refine (min_loop_sound (minimax_value fuel) b d _ α _ _ _ Hmap _ β v Hαβ Hv).
      intros child β' s y' [Hwf' Hy'] Hβ' Hs.
      exact (IH fuel' child true (d - 1) α β' s y' Hwf' Hβ' Hs Hy').
Qed.

(** * The claims of the specification *)

(** ** Terminal evaluator *)

(** C6. The game is reported over ([check_game_over] returns something
    other than [NOBODY]) exactly when neither white nor black has a legal
    move, and the outcome is then decided by the piece counts alone: more
    white pieces give [WHITE], more black pieces give [BLACK], equal
    counts give [TIE]. *)
Theorem check_game_over_spec (b : Board) :
  (check_game_over b ≠ NOBODY ↔
   generate_legal_moves b true = [] ∧ generate_legal_moves b false = [])
  ∧ (generate_legal_moves b true = [] → generate_legal_moves b false = [] →
     (count_nonzero_eq b WHITE > count_nonzero_eq b BLACK → check_game_over b = WHITE)
     ∧ (count_nonzero_eq b WHITE < count_nonzero_eq b BLACK → check_game_over b = BLACK)
     ∧ (count_nonzero_eq b WHITE = count_nonzero_eq b BLACK → check_game_over b = TIE)).
Proof.
  split.
  - destruct (check_game_over_cases b) as [[[Hm|Hm] Hgo]|(H1 & H2 & Hw)].
    + split; [intros Hne; destruct (Hne Hgo)|intros [H1 _]; destruct (Hm H1)].
    + split; [intros Hne; destruct (Hne Hgo)|intros [_ H2]; destruct (Hm H2)].
    + split; [intros _; split; assumption|]. intros _. rewrite Hw.
      destruct (find_winner_cases b) as [[_ E]|[[_ E]|[_ E]]]; rewrite E; discriminate.
  - intros H1 H2.
    destruct (check_game_over_cases b) as [[[Hm|Hm] _]|(_ & _ & Hw)];
      [destruct (Hm H1)|destruct (Hm H2)|].
    rewrite Hw. clear H1 H2 Hw.
    destruct (find_winner_cases b) as [[Hc E]|[[Hc E]|[Hc E]]]; rewrite E;
      (split; [|split]); intros Hc'; try reflexivity; lia.
Qed.

Lemma check_game_over_spec_witness :
  generate_legal_moves finished_position true = []
  ∧ generate_legal_moves finished_position false = []
  ∧ check_game_over finished_position = WHITE.
Proof.
  assert (generate_legal_moves finished_position true = []) as H1
    by (vm_compute; reflexivity).
  assert (generate_legal_moves finished_position false = []) as H2
    by (vm_compute; reflexivity).
  split; [exact H1|]. split; [exact H2|].
  apply (proj2 (check_game_over_spec finished_position) H1 H2).
  vm_compute. reflexivity.
Defined.

(** ** Search *)

(** C5. On a board where neither side has a legal move, at any remaining
    depth of at least 1, for either side to move and any window,
    [minimax_value] returns [WIN_VAL] if white has more pieces, its
    negation if black has more, and 0 on equal counts; [WIN_VAL] is
    strictly above the absolute value of the static evaluation of every
    8x8 board. *)
Theorem terminal_scoring (fuel : nat) (b : Board) (wt : bool) (d : Z) (α β : bound) :
  generate_legal_moves b true = [] → generate_legal_moves b false = [] → 1 ≤ d →
  (count_nonzero_eq b WHITE > count_nonzero_eq b BLACK →
   minimax_value (S fuel) b wt d α β = Some WIN_VAL)
  ∧ (count_nonzero_eq b WHITE < count_nonzero_eq b BLACK →
     minimax_value (S fuel) b wt d α β = Some (- WIN_VAL))
  ∧ (count_nonzero_eq b WHITE = count_nonzero_eq b BLACK →
     minimax_value (S fuel) b wt d α β = Some 0)
  ∧ 0 < WIN_VAL
  ∧ ∀ b', wf_board b' → Z.abs (evaluation_function b') < WIN_VAL.
Proof.
  intros H1 H2 Hd.
  assert (d ≠ 0) as Hd0 by lia.
  rewrite (minimax_value_game_over fuel b wt d α β Hd0 H1 H2).
  clear H1 H2. unfold terminal_score.
  split; [|split; [|split; [|split]]].
  - intros Hc. destruct (Z.gtb_spec (count_nonzero_eq b WHITE) (count_nonzero_eq b BLACK));
      [reflexivity|lia].
  - intros Hc. destruct (Z.gtb_spec (count_nonzero_eq b WHITE) (count_nonzero_eq b BLACK));
      [lia|].
    destruct (Z.gtb_spec (count_nonzero_eq b BLACK) (count_nonzero_eq b WHITE));
      [reflexivity|lia].
  - intros Hc. destruct (Z.gtb_spec (count_nonzero_eq b WHITE) (count_nonzero_eq b BLACK));
      [lia|].
    destruct (Z.gtb_spec (count_nonzero_eq b BLACK) (count_nonzero_eq b WHITE));
      [lia|reflexivity].
  - reflexivity.
  - intros b' Hwf. pose proof (evaluation_function_bounds b' Hwf). lia.
Qed.

Lemma terminal_scoring_witness :
  generate_legal_moves finished_position true = []
  ∧ generate_legal_moves finished_position false = []
  ∧ minimax_value 1 finished_position false 3 (Fin 0) (Fin 1) = Some WIN_VAL.
Proof.
  assert (generate_legal_moves finished_position true = []) as H1
    by (vm_compute; reflexivity).
  assert (generate_legal_moves finished_position false = []) as H2
    by (vm_compute; reflexivity).
  split; [exact H1|]. split; [exact H2|].
  apply (terminal_scoring 0 finished_position false 3 (Fin 0) (Fin 1) H1 H2); [lia|].
  vm_compute. reflexivity.
Defined.

(** C4. When the side to move has no legal move and the other side has
    one, [minimax_value] for the side to move at depth [d >= 1] is
    [minimax_value] for the other side on the same board at the same
    depth [d], for every window: both calls return, with the same value.
    With [wt = true] white passes to black, with [wt = false] black
    passes to white. *)
Theorem forced_pass_same_depth (b : Board) (wt : bool) (d : Z) (α β : bound) :
  wf_board b → 1 ≤ d →
  generate_legal_moves b wt = [] → generate_legal_moves b (negb wt) ≠ [] →
  ∃ v, ∀ fuel, (2 * Z.to_nat d + 1 ≤ fuel)%nat →
         minimax_value fuel b wt d α β = Some v
         ∧ minimax_value fuel b (negb wt) d α β = Some v.
Proof.
  intros Hwf Hd Hnone Hopp.
  assert (d ≠ 0) as Hd0 by lia.
  assert (check_game_over b = NOBODY) as Hgo.
  { destruct (node_cases b wt) as [[H1 H2]|[(Hgo & _)|[Hgo _]]]; [|exact Hgo..].
    destruct wt; cbn [negb] in Hopp; [destruct (Hopp H2)|destruct (Hopp H1)]. }
  destruct (minimax_value_returns (2 * Z.to_nat d) b (negb wt) d α β Hwf) as [v Hv];
    [lia| |].
  { right. split; [lia|]. split; [lia|exact Hopp]. }
  exists v. intros fuel Hfuel. destruct fuel as [|fuel]; [lia|].
  assert (minimax_value fuel b (negb wt) d α β = Some v) as Hv'
    by (apply (minimax_value_mono (2 * Z.to_nat d)); [lia|exact Hv]).
  split; [|apply (minimax_value_mono fuel); [lia|exact Hv']].
  rewrite (minimax_value_node fuel b wt d α β Hd0 Hgo). clear Hopp Hv.
  destruct wt; cbn [negb] in Hv'.
  - unfold find_max_score. rewrite Hnone. exact Hv'.
  - unfold find_min_score. rewrite Hnone. exact Hv'.
Qed.

Lemma forced_pass_same_depth_witness :
  ∃ v, ∀ fuel, (2 * Z.to_nat 2 + 1 ≤ fuel)%nat →
         minimax_value fuel pass_position true 2 NegInf PosInf = Some v
         ∧ minimax_value fuel pass_position (negb true) 2 NegInf PosInf = Some v.
Proof.
  apply (forced_pass_same_depth pass_position true 2 NegInf PosInf).
  - vm_compute. reflexivity.
  - lia.
  - vm_compute. reflexivity.
  - vm_compute. discriminate.
Defined.

(** C10. [minimax_value] terminates on every 8x8 board, for either side,
    every depth [d >= 0] and every window: [2 * d + 1] nested calls are
    enough, and every larger bound gives the same value.  A pass keeps
    the depth, but it cannot be followed by a second pass: when the side
    to move cannot move and the game is not over, the other side can;
    and when neither can, the call returns at once ([fuel] 1), without
    a recursive call. *)
Theorem minimax_value_terminates (b : Board) (wt : bool) (d : Z) (α β : bound) :
  wf_board b → 0 ≤ d →
  (∃ v, ∀ fuel, (2 * Z.to_nat d + 1 ≤ fuel)%nat →
          minimax_value fuel b wt d α β = Some v)
  ∧ (check_game_over b = NOBODY → generate_legal_moves b wt = [] →
     generate_legal_moves b (negb wt) ≠ [])
  ∧ (generate_legal_moves b wt = [] → generate_legal_moves b (negb wt) = [] →
     is_Some (minimax_value 1 b wt d α β)).
Proof.
  intros Hwf Hd. split; [exact (minimax_value_total b wt d α β Hwf Hd)|].
  split; [exact (no_double_pass b wt)|].
  intros H1 H2. destruct (Z.eq_dec d 0) as [->|Hd0].
  { rewrite minimax_value_depth0. by eexists. }
  destruct wt; cbn [negb] in H2.
  - rewrite (minimax_value_game_over 0 b true d α β Hd0 H1 H2). by eexists.
  - rewrite (minimax_value_game_over 0 b false d α β Hd0 H2 H1). by eexists.
Qed.

Lemma minimax_value_terminates_witness :
  ∃ v, ∀ fuel, (2 * Z.to_nat 3 + 1 ≤ fuel)%nat →
         minimax_value fuel opening true 3 (Fin (-2)) (Fin 2) = Some v.
Proof.
  apply (minimax_value_terminates opening true 3 (Fin (-2)) (Fin 2)).
  - vm_compute. reflexivity.
  - lia.
Defined.

(** C1. For every board, side to move and depth [d >= 0], [minimax_value]
    with the window [(-inf, +inf)] returns the value of the exhaustive
    depth-limited minimax, which has the same cutoff evaluation, the same
    scores of a finished game and the same pass rule, and never prunes. *)
Theorem alpha_beta_sound (b : Board) (wt : bool) (d : Z) :
  wf_board b → 0 ≤ d →
  ∃ v, ∀ fuel, (2 * Z.to_nat d + 1 ≤ fuel)%nat →
         minimax_value fuel b wt d NegInf PosInf = Some v
         ∧ exhaustive_value fuel b wt d = Some v.
Proof.
  intros Hwf Hd.
  destruct (minimax_value_total b wt d NegInf PosInf Hwf Hd) as [v Hv].
  destruct (exhaustive_value_total b wt d Hwf Hd) as [m Hm].
  assert (v = m) as <-.
  { pose proof (Hv _ (Nat.le_refl _)) as Hv0. pose proof (Hm _ (Nat.le_refl _)) as Hm0.
    destruct (minimax_value_sound _ _ b wt d NegInf PosInf v m Hwf eq_refl Hv0 Hm0)
      as (_ & _ & Hin).
    apply Hin; reflexivity. }
  exists v. intros fuel Hfuel. split; [apply Hv|apply Hm]; exact Hfuel.
Qed.

Lemma alpha_beta_sound_witness :
  ∃ v, ∀ fuel, (2 * Z.to_nat 3 + 1 ≤ fuel)%nat →
         minimax_value fuel opening true 3 NegInf PosInf = Some v
         ∧ exhaustive_value fuel opening true 3 = Some v.
Proof.
  apply (alpha_beta_sound opening true 3).
  - vm_compute. reflexivity.
  - lia.
Defined.

(** ** Move rules *)

(** C3. The capture test along one of the 8 directions is false when the
    adjacent cell is off the board, empty or of the mover's colour;
    otherwise it is true exactly when, further along the direction, a
    cell of the mover's colour is reached on the board with no empty
    cell before it. *)
Theorem captures_in_dir_spec (b : Board) (r dr c dc : Z) (wt : bool) :
  wf_board b → In (dr, dc) DIRECTIONS →
  let blocked :=
    (on_board (r + dr) && on_board (c + dc)) = false
    ∨ cell b (r + dr) (c + dc) = NOBODY
    ∨ cell b (r + dr) (c + dc) = friendly_color wt in
  (blocked → captures_in_dir b r dr c dc wt = false)
  ∧ (¬ blocked →
     (captures_in_dir b r dr c dc wt = true ↔
      ∃ n, 2 ≤ n ∧ on_board (r + n * dr) = true ∧ on_board (c + n * dc) = true
           ∧ cell b (r + n * dr) (c + n * dc) = friendly_color wt
           ∧ ∀ j, 2 ≤ j < n → cell b (r + j * dr) (c + j * dc) ≠ NOBODY)).
Proof.
  intros Hwf Hd blocked. split.
  - intros Hb. destruct (captures_in_dir b r dr c dc wt) eqn:E; [|reflexivity].
    apply captures_in_dir_unfold in E as (Hr & Hc & He & _); [|exact Hd].
    destruct Hb as [Hb|[Hb|Hb]].
    + rewrite Hr, Hc in Hb. discriminate.
    + rewrite He in Hb. destruct wt; discriminate.
    + rewrite He in Hb. destruct wt; discriminate.
  - intros Hnb.
    assert (on_board (r + dr) = true ∧ on_board (c + dc) = true) as [Hr Hc].
    { destruct (on_board (r + dr)), (on_board (c + dc)); try (split; reflexivity);
        exfalso; apply Hnb; left; reflexivity. }
    assert (cell b (r + dr) (c + dc) = enemy_color wt) as He.
    { apply color_cases.
      - now apply cell_is_color.
      - intros E. apply Hnb. right. left. exact E.
      - intros E. apply Hnb. right. right. exact E. }
    rewrite (captures_in_dir_unfold b r dr c dc wt Hd). split.
    + intros (_ & _ & _ & Hscan).
      apply scan_loop_true_inv in Hscan as (n & Hn & Hnr & Hnc & Hcell & Hbefore).
      exists (n + 2).
      replace (r + (n + 2) * dr) with (r + 2 * dr + n * dr) by lia.
      replace (c + (n + 2) * dc) with (c + 2 * dc + n * dc) by lia.
      split; [lia|]. do 3 (split; [assumption|]). intros j Hj.
      destruct (Hbefore (j - 2)) as (_ & _ & Hne & _); [lia|].
      replace (r + 2 * dr + (j - 2) * dr) with (r + j * dr) in Hne by lia.
      replace (c + 2 * dc + (j - 2) * dc) with (c + j * dc) in Hne by lia.
      exact Hne.
    + intros (n & Hn & Hnr & Hnc & Hcell & Hbefore).
      do 3 (split; [assumption|]).
      pose proof (direction_cases dr dc Hd) as (Hdr & Hdc & _).
      apply (scan_loop_true_intro b dr dc (friendly_color wt) _ _ _ (n - 2));
        [apply friendly_not_NOBODY| | | | |].
      * pose proof Hr as Hr'. pose proof Hc as Hc'. pose proof Hnr as Hnr'.
        pose proof Hnc as Hnc'. apply on_board_spec in Hr', Hc', Hnr', Hnc'.
        apply direction_cases in Hd. unfold scan_fuel, NUM_COLS in *. lia.
      * now replace (r + 2 * dr + (n - 2) * dr) with (r + n * dr) by lia.
      * now replace (c + 2 * dc + (n - 2) * dc) with (c + n * dc) by lia.
      * replace (r + 2 * dr + (n - 2) * dr) with (r + n * dr) by lia.
        now replace (c + 2 * dc + (n - 2) * dc) with (c + n * dc) by lia.
      * intros j Hj.
        replace (r + 2 * dr + j * dr) with (r + (j + 2) * dr) by lia.
        replace (c + 2 * dc + j * dc) with (c + (j + 2) * dc) by lia.
        split; [|split].
        -- replace (r + (j + 2) * dr) with ((r + dr) + (j + 1) * dr) by lia.
           apply (ray_convex (r + dr) dr (n - 1)); [exact Hdr|exact Hr| |lia].
           now replace (r + dr + (n - 1) * dr) with (r + n * dr) by lia.
        -- replace (c + (j + 2) * dc) with ((c + dc) + (j + 1) * dc) by lia.
           apply (ray_convex (c + dc) dc (n - 1)); [exact Hdc|exact Hc| |lia].
           now replace (c + dc + (n - 1) * dc) with (c + n * dc) by lia.
        -- apply Hbefore. lia.
Qed.

Lemma captures_in_dir_spec_witness :
  captures_in_dir opening 2 1 4 0 true = true ↔
  ∃ n, 2 ≤ n ∧ on_board (2 + n * 1) = true ∧ on_board (4 + n * 0) = true
       ∧ cell opening (2 + n * 1) (4 + n * 0) = friendly_color true
       ∧ ∀ j, 2 ≤ j < n → cell opening (2 + j * 1) (4 + j * 0) ≠ NOBODY.
Proof.
  apply (captures_in_dir_spec opening 2 1 4 0 true).
  - vm_compute. reflexivity.
  - vm_compute. tauto.
  - vm_compute. intros [H|[H|H]]; discriminate.
Defined.

(** C2. [play_move] on a board object holding [b], at an empty cell
    [(r, c)] of the board, returns a new board object and leaves every
    object of the store, the input board among them, as it was.  The new
    board has the mover's colour at [(r, c)] and at the cells of the runs
    the move encloses (in each capturing direction the cells of the other
    colour between the target and the first cell of the mover's colour),
    and equals [b] everywhere else: these cells, and no others, change. *)
Theorem play_move_frame (σ : Store) (l : nat) (b : Board) (r c : Z) (wt : bool) :
  σ !! l = Some b → wf_board b →
  on_board r = true → on_board c = true → cell b r c = NOBODY →
  ∃ σ' l' b',
    play_move σ l (r, c) wt = Some (σ', l')
    ∧ σ !! l' = None ∧ σ' !! l' = Some b'
    ∧ (∀ l0 b0, σ !! l0 = Some b0 → σ' !! l0 = Some b0)
    ∧ wf_board b'
    ∧ ∀ x y, on_board x = true → on_board y = true →
        ((x = r ∧ y = c ∧ cell b' x y = friendly_color wt)
         ∨ (¬ (x = r ∧ y = c) ∧ in_captured_run b r c wt x y
            ∧ cell b x y = enemy_color wt ∧ cell b' x y = friendly_color wt)
         ∨ (¬ (x = r ∧ y = c) ∧ ¬ in_captured_run b r c wt x y
            ∧ cell b' x y = cell b x y))
        ∧ (cell b' x y ≠ cell b x y ↔ (x = r ∧ y = c) ∨ in_captured_run b r c wt x y).
Proof.
  intros Hl Hwf Hr Hc Hempty.
  destruct (play_move_value_spec b r c wt Hwf Hr Hc) as (b' & Hplay & Hwf' & Hcells).
  exists (σ ++ [b']), (length σ), b'.
  split; [rewrite (play_move_any_store σ l b (r, c) wt Hl), Hplay; reflexivity|].
  split; [now apply lookup_ge_None_2|].
  split; [apply lookup_at_end|].
  split; [intros l0 b0 H0; now apply lookup_app_l_Some|].
  split; [exact Hwf'|].
  intros x y Hx Hy. split; [exact (Hcells x y Hx Hy)|].
  pose proof (enemy_not_friendly wt) as Hef.
  pose proof (friendly_not_NOBODY wt) as Hfn.
  destruct (Hcells x y Hx Hy) as [(-> & -> & Hv)|[(Hne & Hrun & Hold & Hv)|(Hne & Hout & Hv)]].
  - split; [intros _; left; split; reflexivity|]. intros _. congruence.
  - split; [intros _; right; exact Hrun|]. intros _. congruence.
  - split; [intros Hdiff; destruct (Hdiff Hv)|]. intros [Ht|Hrun]; [destruct (Hne Ht)|].
    destruct (Hout Hrun).
Qed.

Lemma play_move_frame_witness :
  ∃ σ' l' b',
    play_move [opening] 0%nat (2, 4) true = Some (σ', l')
    ∧ [opening] !! l' = None ∧ σ' !! l' = Some b'
    ∧ (∀ l0 b0, [opening] !! l0 = Some b0 → σ' !! l0 = Some b0)
    ∧ wf_board b'
    ∧ ∀ x y, on_board x = true → on_board y = true →
        ((x = 2 ∧ y = 4 ∧ cell b' x y = friendly_color true)
         ∨ (¬ (x = 2 ∧ y = 4) ∧ in_captured_run opening 2 4 true x y
            ∧ cell opening x y = enemy_color true ∧ cell b' x y = friendly_color true)
         ∨ (¬ (x = 2 ∧ y = 4) ∧ ¬ in_captured_run opening 2 4 true x y
            ∧ cell b' x y = cell opening x y))
        ∧ (cell b' x y ≠ cell opening x y ↔
           (x = 2 ∧ y = 4) ∨ in_captured_run opening 2 4 true x y).
Proof.
  apply (play_move_frame [opening] 0%nat opening 2 4 true).
  - reflexivity.
  - vm_compute. reflexivity.
  - reflexivity.
  - reflexivity.
  - vm_compute. reflexivity.
Defined.

(** C9, as the specification states it, fails: [play_move] does not
    reject a move to an occupied cell that is no legal move.  On the
    opening position the cell (3, 3) holds a white piece and is no legal
    move of black; [play_move] for black there returns a new board, on
    which the white piece has become black. *)
Lemma play_move_accepts_illegal_move :
  cell opening 3 3 = WHITE
  ∧ ¬ In (3, 3) (generate_legal_moves opening false)
  ∧ ∃ b', play_move [opening] 0%nat (3, 3) false = Some ([opening; b'], 1%nat)
          ∧ cell b' 3 3 = BLACK ∧ b' ≠ opening.
Proof.
  split; [vm_compute; reflexivity|]. split.
  - vm_compute. intros [H|[H|[H|[H|[]]]]]; discriminate.
  - eexists. split; [vm_compute; reflexivity|]. split; [vm_compute; reflexivity|].
    vm_compute. discriminate.
Qed.

(** C9, amended.  [play_move] checks neither that the target cell is
    empty nor that the move is legal: every move whose coordinates are
    valid indices of the array (from -8 to 7, the negative ones counted
    from the far side) is applied, and a new board is returned with the
    mover's colour at the cell addressed; only a coordinate outside this
    range is rejected, by the [IndexError] of the array access. *)
Theorem play_move_never_validates (σ : Store) (l : nat) (b : Board) (r c : Z) (wt : bool) :
  σ !! l = Some b → wf_board b →
  (- NUM_COLS ≤ r < NUM_COLS ∧ - NUM_COLS ≤ c < NUM_COLS →
   ∃ b', play_move σ l (r, c) wt = Some (σ ++ [b'], length σ)
         ∧ wf_board b'
         ∧ cell b' (r mod NUM_COLS) (c mod NUM_COLS) = friendly_color wt)
  ∧ (¬ (- NUM_COLS ≤ r < NUM_COLS ∧ - NUM_COLS ≤ c < NUM_COLS) →
     play_move σ l (r, c) wt = None).
Proof.
  intros Hl Hwf. rewrite (play_move_any_store σ l b (r, c) wt Hl). split.
  - intros [Hr Hc].
    destruct (play_move_value_in_range b r c wt Hwf Hr Hc) as (b' & -> & Hwf' & Hv).
    exists b'. split; [reflexivity|]. split; assumption.
  - intros Hout. now rewrite (play_move_value_out_of_range b r c wt Hwf Hout).
Qed.

Lemma play_move_never_validates_witness :
  ∃ b', play_move [opening] 0%nat (3, 3) false
        = Some ([opening] ++ [b'], length [opening])
        ∧ wf_board b'
        ∧ cell b' (3 mod NUM_COLS) (3 mod NUM_COLS) = friendly_color false.
Proof.
  apply (play_move_never_validates [opening] 0%nat opening 3 3 false).
  - reflexivity.
  - vm_compute. reflexivity.
  - unfold NUM_COLS. lia.
Defined.

(** C8, as the specification states it, fails: on the board of
    [starting_board] the legal moves of Light are not (2,3), (3,2),
    (4,5), (5,4); (2,3) is no legal move of Light there. *)
Lemma starting_position_light_moves_differ :
  starting_board = Some opening
  ∧ generate_legal_moves opening true ≠ [(2, 3); (3, 2); (4, 5); (5, 4)]
  ∧ ¬ In (2, 3) (generate_legal_moves opening true).
Proof.
  split; [vm_compute; reflexivity|]. split.
  - vm_compute. discriminate.
  - vm_compute. intros [H|[H|[H|[H|[]]]]]; discriminate.
Qed.

(** C8, amended.  [starting_board] returns the empty 8x8 board with
    Light (white) at (3,3) and (4,4) and Dark (black) at (3,4) and (4,3);
    on this board the legal moves of Light are, in row-major order,
    (2,4), (3,5), (4,2), (5,3), and (2,3), (3,2), (4,5), (5,4) are the
    legal moves of Dark. *)
Theorem starting_position :
  starting_board = Some opening
  ∧ wf_board opening
  ∧ (∀ x y, on_board x = true → on_board y = true →
       cell opening x y
       = if ((x =? 3) && (y =? 3)) || ((x =? 4) && (y =? 4)) then WHITE
         else if ((x =? 3) && (y =? 4)) || ((x =? 4) && (y =? 3)) then BLACK
         else NOBODY)
  ∧ generate_legal_moves opening true = [(2, 4); (3, 5); (4, 2); (5, 3)]
  ∧ generate_legal_moves opening false = [(2, 3); (3, 2); (4, 5); (5, 4)].
Proof.
  split; [vm_compute; reflexivity|]. split; [vm_compute; reflexivity|].
  split; [|split; vm_compute; reflexivity].
  intros x y Hx Hy. apply on_board_spec in Hx, Hy. unfold NUM_COLS in *.
  assert (x = 0 ∨ x = 1 ∨ x = 2 ∨ x = 3 ∨ x = 4 ∨ x = 5 ∨ x = 6 ∨ x = 7) as Hxs by lia.
  assert (y = 0 ∨ y = 1 ∨ y = 2 ∨ y = 3 ∨ y = 4 ∨ y = 5 ∨ y = 6 ∨ y = 7) as Hys by lia.
  clear Hx Hy.
  destruct Hxs as [->|[->|[->|[->|[->|[->|[->| ->]]]]]]];
    destruct Hys as [->|[->|[->|[->|[->|[->|[->| ->]]]]]]];
    vm_compute; reflexivity.
Qed.

(** C7.  The move choice of the AI in [play] does not search the
    opponent's turn: after applying a candidate move of white it calls
    [minimax_value] with [white_turn = True] again.  On the position
    [midgame] it values the move (3,2) at [WIN_VAL] and plays it, where
    the search of black's turn at the same depth values (3,2) at -2 and
    the root selection of the specification plays (5,6), of value 0. *)
Theorem ai_move_searches_own_turn :
  ai_move 11 midgame = Some (Fin WIN_VAL, Some (3, 2))
  ∧ root_search 11 midgame (DEMO_SEARCH_DEPTH + 1) = Some (Fin 0, Some (5, 6))
  ∧ ∃ child, play_move_value midgame (3, 2) true = Some child
             ∧ minimax_value 11 child true DEMO_SEARCH_DEPTH NegInf PosInf = Some WIN_VAL
             ∧ minimax_value 11 child false DEMO_SEARCH_DEPTH NegInf PosInf = Some (-2).
Proof.
  split; [vm_compute; reflexivity|]. split; [vm_compute; reflexivity|].
  eexists. split; [vm_compute; reflexivity|]. split; vm_compute; reflexivity.
Qed.

(** ** The fuel of the flipping loop

    Along a direction of [DIRECTIONS] the flipping loop reads at most
    [2 * NUM_COLS] cells before an index leaves the array, so [flip_fuel]
    tests of its condition are enough whatever the board: more fuel
    gives the same result, a new store or the [IndexError]. *)

Lemma getitem_Some_range (b : Board) (r c v : Z) :
  getitem b r c = Some v → - NUM_COLS ≤ r < NUM_COLS ∧ - NUM_COLS ≤ c < NUM_COLS.
Proof.
  unfold getitem. destruct (py_index r) as [i|] eqn:Hi; [|discriminate].
  cbn [mbind option_bind]. destruct (b !! i) as [line|]; [|discriminate].
  cbn [mbind option_bind]. destruct (py_index c) as [j|] eqn:Hj; [|discriminate].
  intros _. apply py_index_bounds in Hi, Hj. lia.
Qed.

Lemma flip_run_stable (dr dc e : Z) (fuel : nat) :
  ∀ b fr fc,
    (dr = 1 ∧ Z.max 0 (NUM_COLS - fr) < Z.of_nat fuel)
    ∨ (dr = -1 ∧ Z.max 0 (fr + NUM_COLS + 1) < Z.of_nat fuel)
    ∨ (dc = 1 ∧ Z.max 0 (NUM_COLS - fc) < Z.of_nat fuel)
    ∨ (dc = -1 ∧ Z.max 0 (fc + NUM_COLS + 1) < Z.of_nat fuel) →
    flip_run (S fuel) b fr fc dr dc e = flip_run fuel b fr fc dr dc e.
Proof.
  induction fuel as [|fuel IH]; intros b fr fc Hm; [lia|].
  change (flip_run (S (S fuel)) b fr fc dr dc e)
    with (v ← getitem b fr fc;
          if v =? e then
            board' ← setitem b fr fc (- e);
            flip_run (S fuel) board' (fr + dr) (fc + dc) dr dc e
          else Some b).
  change (flip_run (S fuel) b fr fc dr dc e)
    with (v ← getitem b fr fc;
          if v =? e then
            board' ← setitem b fr fc (- e);
            flip_run fuel board' (fr + dr) (fc + dc) dr dc e
          else Some b).
  destruct (getitem b fr fc) as [v|] eqn:Hget; [|reflexivity].
  cbn [mbind option_bind]. destruct (v =? e); [|reflexivity].
  destruct (setitem b fr fc (- e)) as [b1|]; [|reflexivity].
  cbn [mbind option_bind]. apply IH.
  apply getitem_Some_range in Hget. unfold NUM_COLS in *. lia.
Qed.

Lemma flip_run_fuel (b : Board) (fr fc dr dc e : Z) (fuel : nat) :
  In (dr, dc) DIRECTIONS → (flip_fuel ≤ fuel)%nat →
  flip_run fuel b fr fc dr dc e = flip_run flip_fuel b fr fc dr dc e.
Proof.
  intros Hd Hle. apply direction_cases in Hd.
  induction Hle as [|fuel Hle IH]; [reflexivity|]. rewrite <- IH.
  destruct (getitem b fr fc) as [v|] eqn:Hget.
  - apply flip_run_stable. apply getitem_Some_range in Hget.
    unfold flip_fuel, NUM_COLS in *. lia.
  - destruct fuel as [|fuel]; [unfold flip_fuel in Hle; lia|].
    change (flip_run (S (S fuel)) b fr fc dr dc e)
      with (v ← getitem b fr fc;
            if v =? e then
              board' ← setitem b fr fc (- e);
              flip_run (S fuel) board' (fr + dr) (fc + dc) dr dc e
            else Some b).
    change (flip_run (S fuel) b fr fc dr dc e)
      with (v ← getitem b fr fc;
            if v =? e then
              board' ← setitem b fr fc (- e);
              flip_run fuel board' (fr + dr) (fc + dc) dr dc e
            else Some b).
    now rewrite Hget.
Qed.

Lemma flip_loop_fuel (σ : Store) (l : nat) (fr fc dr dc e : Z) (fuel : nat) :
  In (dr, dc) DIRECTIONS → (flip_fuel ≤ fuel)%nat →
  flip_loop fuel σ l fr fc dr dc e = flip_loop flip_fuel σ l fr fc dr dc e.
Proof.
  intros Hd Hle. destruct (σ !! l) as [b|] eqn:Hl.
  - rewrite !(flip_loop_run _ σ l b) by exact Hl.
    now rewrite (flip_run_fuel b fr fc dr dc e fuel Hd Hle).
  - destruct fuel as [|fuel]; [unfold flip_fuel in Hle; lia|].
    unfold flip_fuel. cbn [flip_loop]. now rewrite Hl.
Qed.

(** * Further properties of the code *)

(** ** A board is the table of its cells *)

Lemma lookup_map_seq {A : Type} (h : nat → A) (k : nat) :
  ∀ s i, (i < k)%nat → map h (seq s k) !! i = Some (h (s + i)%nat).
Proof.
  induction k as [|k IH]; intros s i Hi; [lia|].
  destruct i as [|i]; simpl.
  - now rewrite Nat.add_0_r.
  - rewrite IH by lia. f_equal. f_equal. lia.
Qed.

Lemma lookup_map_range {A : Type} (g : Z → A) (n : Z) (i : nat) :
  (i < Z.to_nat n)%nat → map g (range n) !! i = Some (g (Z.of_nat i)).
Proof.
  intros Hi. unfold range. rewrite map_map.
  now rewrite (lookup_map_seq (fun k => g (Z.of_nat k)) _ 0%nat i Hi).
Qed.

Lemma length_range (n : Z) : length (range n) = Z.to_nat n.
Proof. unfold range. now rewrite length_map, length_seq. Qed.

Lemma board_cells (b : Board) : wf_board b → b = table (cell b).
Proof.
  intros Hwf. apply list_eq. intros i. unfold table.
  destruct (lt_dec i (Z.to_nat NUM_COLS)) as [Hi|Hi].
  - rewrite lookup_map_range by exact Hi.
    destruct (lookup_lt_is_Some_2 b i) as [line Hline];
      [rewrite (wf_board_length b Hwf); exact Hi|].
    rewrite Hline. f_equal.
    destruct (wf_board_row b i line Hwf Hline) as [Hlen _].
    apply list_eq. intros j.
    destruct (lt_dec j (Z.to_nat NUM_COLS)) as [Hj|Hj].
    + rewrite lookup_map_range by exact Hj.
      destruct (lookup_lt_is_Some_2 line j) as [v Hv]; [rewrite Hlen; exact Hj|].
      rewrite Hv. f_equal. unfold cell, getitem.
      rewrite !py_index_on_board
        by (apply on_board_spec; unfold NUM_COLS in *; lia).
      cbn [mbind option_bind]. rewrite !Nat2Z.id, Hline.
      cbn [mbind option_bind]. now rewrite Hv.
    + rewrite (lookup_ge_None_2 line j) by lia.
      symmetry. apply lookup_ge_None_2. rewrite length_map, length_range. lia.
  - rewrite (lookup_ge_None_2 b i) by (rewrite (wf_board_length b Hwf); lia).
    symmetry. apply lookup_ge_None_2. rewrite length_map, length_range. lia.
Qed.

(** ** Sums over the cells *)

Lemma zsum_ext (l : list Z) (g h : Z → Z) :
  (∀ x, In x l → g x = h x) → zsum l g = zsum l h.
Proof.
  induction l as [|x l IH]; intros H; simpl; [reflexivity|].
  rewrite (H x) by now left. rewrite IH; [reflexivity|].
  intros y Hy. apply H. now right.
Qed.

Lemma zsum_le (l : list Z) (g h : Z → Z) :
  (∀ x, In x l → g x ≤ h x) → zsum l g ≤ zsum l h.
Proof.
  induction l as [|x l IH]; intros H; simpl; [lia|].
  pose proof (H x (or_introl eq_refl)).
  assert (zsum l g ≤ zsum l h) by (apply IH; intros y Hy; apply H; now right). lia.
Qed.

Lemma zsum_add (l : list Z) (g h : Z → Z) :
  zsum l (fun x => g x + h x) = zsum l g + zsum l h.
Proof. induction l as [|x l IH]; simpl; lia. Qed.

Lemma cell_sum_ext (g h : Z → Z → Z) :
  (∀ x y, on_board x = true → on_board y = true → g x y = h x y) →
  cell_sum g = cell_sum h.
Proof.
  intros H. unfold cell_sum. apply zsum_ext. intros x Hx. apply zsum_ext. intros y Hy.
  apply in_range in Hx, Hy. apply H; now apply on_board_spec.
Qed.

Lemma cell_sum_le (g h : Z → Z → Z) :
  (∀ x y, on_board x = true → on_board y = true → g x y ≤ h x y) →
  cell_sum g ≤ cell_sum h.
Proof.
  intros H. unfold cell_sum. apply zsum_le. intros x Hx. apply zsum_le. intros y Hy.
  apply in_range in Hx, Hy. apply H; now apply on_board_spec.
Qed.

Lemma cell_sum_add (g h : Z → Z → Z) :
  cell_sum (fun x y => g x y + h x y) = cell_sum g + cell_sum h.
Proof.
  unfold cell_sum. rewrite <- zsum_add. apply zsum_ext. intros x _. apply zsum_add.
Qed.

(** One cell of the board counts once. *)
Lemma cell_sum_point (r c : Z) :
  on_board r = true → on_board c = true →
  cell_sum (fun x y => indicator ((x =? r) && (y =? c))) = 1.
Proof.
  intros Hr Hc. apply on_board_spec in Hr, Hc. unfold NUM_COLS in *.
  assert (r = 0 ∨ r = 1 ∨ r = 2 ∨ r = 3 ∨ r = 4 ∨ r = 5 ∨ r = 6 ∨ r = 7) as Hrs by lia.
  assert (c = 0 ∨ c = 1 ∨ c = 2 ∨ c = 3 ∨ c = 4 ∨ c = 5 ∨ c = 6 ∨ c = 7) as Hcs by lia.
  clear Hr Hc.
  destruct Hrs as [->|[->|[->|[->|[->|[->|[->| ->]]]]]]];
    destruct Hcs as [->|[->|[->|[->|[->|[->|[->| ->]]]]]]];
    vm_compute; reflexivity.
Qed.

Transparent count_nonzero_eq.

Lemma count_rows (f : Z → Z → Z) (v : Z) (cols rows : list Z) :
  Z.of_nat (length (List.filter (fun x => x =? v)
                      (concat (map (fun x => map (f x) cols) rows))))
  = zsum rows (fun x => zsum cols (fun y => indicator (f x y =? v))).
Proof.
  induction rows as [|x rows IH]; [reflexivity|].
  cbn [map zsum]. rewrite concat_cons, List.filter_app, length_app, Nat2Z.inj_add, IH.
  f_equal. clear IH. induction cols as [|y cols IH]; [reflexivity|].
  cbn [map zsum List.filter]. unfold indicator at 1.
  destruct (f x y =? v); cbn [length]; lia.
Qed.

Lemma count_table (f : Z → Z → Z) (v : Z) :
  count_nonzero_eq (table f) v = cell_sum (fun x y => indicator (f x y =? v)).
Proof. apply count_rows. Qed.

Opaque count_nonzero_eq.

(** The count of a colour is the number of cells that hold it. *)
Lemma count_cell_sum (b : Board) (v : Z) :
  wf_board b →
  count_nonzero_eq b v = cell_sum (fun x y => indicator (cell b x y =? v)).
Proof.
  intros Hwf. rewrite <- count_table. f_equal. now apply board_cells.
Qed.

Lemma count_pos (b : Board) (r c v : Z) :
  wf_board b → on_board r = true → on_board c = true → cell b r c = v →
  1 ≤ count_nonzero_eq b v.
Proof.
  intros Hwf Hr Hc Hv. rewrite (count_cell_sum b v Hwf).
  rewrite <- (cell_sum_point r c Hr Hc). apply cell_sum_le. intros x y _ _.
  unfold indicator. destruct (Z.eqb_spec x r) as [->|]; [|simpl; destruct (_ =? _); lia].
  destruct (Z.eqb_spec y c) as [->|]; [|simpl; destruct (_ =? _); lia].
  rewrite Hv, Z.eqb_refl. simpl. lia.
Qed.

(** ** Legal moves *)

Lemma can_capture_run (b : Board) (r c : Z) (wt : bool) :
  wf_board b →
  can_capture b r c wt = true ↔
  ∃ dr dc n, In (dr, dc) DIRECTIONS ∧ captured_run b r c dr dc wt n.
Proof.
  intros Hwf. unfold can_capture. rewrite existsb_exists. split.
  - intros ([dr dc] & Hd & Hcap).
    apply captures_in_dir_run in Hcap as [n Hn]; [|exact Hwf|exact Hd].
    exists dr, dc, n. split; assumption.
  - intros (dr & dc & n & Hd & Hn). exists (dr, dc). split; [exact Hd|].
    apply captures_in_dir_run; [exact Hwf|exact Hd|]. now exists n.
Qed.

(** X1. A cell is a legal move exactly when it is an empty cell of the
    board from which some direction encloses a run: one or more cells of
    the other colour followed by a cell of the mover's colour. *)
Theorem legal_move_iff (b : Board) (wt : bool) (r c : Z) :
  wf_board b →
  In (r, c) (generate_legal_moves b wt) ↔
  on_board r = true ∧ on_board c = true ∧ cell b r c = NOBODY
  ∧ ∃ dr dc n, In (dr, dc) DIRECTIONS ∧ captured_run b r c dr dc wt n.
Proof.
  intros Hwf. rewrite generate_legal_moves_spec, (can_capture_run b r c wt Hwf). tauto.
Qed.

Lemma legal_move_iff_witness :
  In (2, 4) (generate_legal_moves opening true) ↔
  on_board 2 = true ∧ on_board 4 = true ∧ cell opening 2 4 = NOBODY
  ∧ ∃ dr dc n, In (dr, dc) DIRECTIONS ∧ captured_run opening 2 4 dr dc true n.
Proof.
  apply (legal_move_iff opening true 2 4). vm_compute. reflexivity.
Defined.

Lemma in_flat_map_row (g : Z → list (Z * Z)) (row : Z) (cols : list Z) (m : Z * Z) :
  (∀ col, g col = [] ∨ g col = [(row, col)]) →
  In m (flat_map g cols) → m.1 = row ∧ In m.2 cols.
Proof.
  intros Hg Hin. apply in_flat_map in Hin as (col & Hcol & Hin).
  destruct (Hg col) as [E|E]; rewrite E in Hin; [destruct Hin|].
  destruct Hin as [<-|[]]. split; [reflexivity|exact Hcol].
Qed.

Lemma flat_map_row_sorted (g : Z → list (Z * Z)) (row : Z) (cols : list Z) :
  (∀ col, g col = [] ∨ g col = [(row, col)]) →
  StronglySorted Z.lt cols → StronglySorted move_lt (flat_map g cols).
Proof.
  intros Hg Hs. induction Hs as [|col cols Hs IH Hall]; [constructor|].
  cbn [flat_map]. destruct (Hg col) as [E|E]; rewrite E; [exact IH|].
  cbn [app]. constructor; [exact IH|].
  apply List.Forall_forall. intros m Hin.
  apply (in_flat_map_row g row cols m Hg) in Hin as [E1 E2].
  rewrite List.Forall_forall in Hall. right. cbn [fst snd].
  split; [now symmetry|]. now apply Hall.
Qed.

Lemma flat_map_rows_sorted (g : Z → Z → list (Z * Z)) (rows cols : list Z) :
  (∀ row col, g row col = [] ∨ g row col = [(row, col)]) →
  StronglySorted Z.lt rows → StronglySorted Z.lt cols →
  StronglySorted move_lt (flat_map (fun row => flat_map (g row) cols) rows).
Proof.
  intros Hg Hrows Hcols. induction Hrows as [|row rows Hs IH Hall]; [constructor|].
  cbn [flat_map]. apply StronglySorted_app. split; [|split].
  2: apply (flat_map_row_sorted (g row) row cols (Hg row) Hcols).
  2: exact IH.
  - intros m1 m2 H1 H2. apply list_elem_of_In in H1, H2.
    apply (in_flat_map_row (g row) row cols m1 (Hg row)) in H1 as [E1 _].
    apply in_flat_map in H2 as (row' & Hrow' & H2).
    apply (in_flat_map_row (g row') row' cols m2 (Hg row')) in H2 as [E2 _].
    rewrite List.Forall_forall in Hall. left. rewrite E1, E2. now apply Hall.
Qed.

Lemma range_sorted : StronglySorted Z.lt (range NUM_COLS).
Proof.
  vm_compute. repeat (constructor; [|repeat (constructor; [reflexivity|]); constructor]).
  constructor.
Qed.

Transparent generate_legal_moves.

(** X2. The legal moves are listed in strict row-major order: rows from
    the top, and inside a row columns from the left; so no move is listed
    twice. *)
Theorem generate_legal_moves_sorted (b : Board) (wt : bool) :
  StronglySorted move_lt (generate_legal_moves b wt)
  ∧ List.NoDup (generate_legal_moves b wt).
Proof.
  assert (StronglySorted move_lt (generate_legal_moves b wt)) as Hs.
  { unfold generate_legal_moves.
    apply (flat_map_rows_sorted
             (fun row col => if negb (cell b row col =? NOBODY) then []
                             else if can_capture b row col wt then [(row, col)] else []));
      [|exact range_sorted|exact range_sorted].
    intros row col. destruct (negb _); [now left|].
    destruct (can_capture b row col wt); [now right|now left]. }
  split; [exact Hs|].
  induction Hs as [|m ms Hs IH Hall]; constructor; [|exact IH].
  intros Hin. rewrite List.Forall_forall in Hall. specialize (Hall m Hin).
  unfold move_lt in Hall. lia.
Qed.

Opaque generate_legal_moves.

(** ** Piece counts along the game *)

Lemma indicator_eqb_cases (v w : Z) :
  (v = w ∧ indicator (v =? w) = 1) ∨ (v ≠ w ∧ indicator (v =? w) = 0).
Proof. unfold indicator. destruct (Z.eqb_spec v w); [left|right]; split; auto. Qed.

(** A legal move encloses a cell next to the target. *)
Lemma legal_move_flips (b : Board) (wt : bool) (r c : Z) :
  wf_board b → In (r, c) (generate_legal_moves b wt) →
  ∃ x y, on_board x = true ∧ on_board y = true ∧ ¬ (x = r ∧ y = c)
         ∧ in_captured_run b r c wt x y.
Proof.
  intros Hwf Hin. apply generate_legal_moves_spec in Hin as (_ & _ & _ & Hcap).
  apply (can_capture_run b r c wt Hwf) in Hcap as (dr & dc & n & Hd & Hrun).
  pose proof Hrun as (Hn & _ & _ & _ & Hbefore).
  destruct (Hbefore 1) as (H1 & H2 & _); [lia|].
  exists (r + 1 * dr), (c + 1 * dc). split; [exact H1|]. split; [exact H2|]. split.
  - pose proof (direction_cases dr dc Hd) as (_ & _ & Hnz).
    apply ray_step_ne; [lia|exact Hnz].
  - exists dr, dc, n, 1. split; [exact Hd|]. split; [exact Hrun|]. split; [lia|].
    split; reflexivity.
Qed.

Ltac indicator_cases :=
  repeat match goal with
         | |- context [indicator (?v =? ?w)] =>
             destruct (indicator_eqb_cases v w) as [[? ->]|[? ->]]; try congruence
         end.

Lemma point_eqb_false (x y r c : Z) : ¬ (x = r ∧ y = c) → (x =? r) && (y =? c) = false.
Proof.
  intros Hne. destruct (Z.eqb_spec x r); [|reflexivity].
  destruct (Z.eqb_spec y c); [|reflexivity]. destruct Hne. now split.
Qed.

Lemma play_move_counts (b : Board) (wt : bool) (r c : Z) :
  wf_board b → In (r, c) (generate_legal_moves b wt) →
  ∃ b' k, play_move_value b (r, c) wt = Some b' ∧ wf_board b' ∧ 1 ≤ k
          ∧ count_nonzero_eq b' (friendly_color wt)
            = count_nonzero_eq b (friendly_color wt) + 1 + k
          ∧ count_nonzero_eq b' (enemy_color wt)
            = count_nonzero_eq b (enemy_color wt) - k.
Proof.
  intros Hwf Hin.
  destruct (legal_move_flips b wt r c Hwf Hin) as (px & py & Hpx & Hpy & Hpne & Hprun).
  apply generate_legal_moves_spec in Hin as (Hr & Hc & Hempty & _).
  destruct (play_move_value_spec b r c wt Hwf Hr Hc) as (b' & Hplay & Hwf' & Hcells).
  pose proof (enemy_not_friendly wt) as Hef.
  pose proof (friendly_not_NOBODY wt) as Hfn.
  assert (enemy_color wt ≠ NOBODY) as Hen by (destruct wt; discriminate).
  assert (count_nonzero_eq b' (friendly_color wt) + count_nonzero_eq b' (enemy_color wt)
          = count_nonzero_eq b (friendly_color wt) + count_nonzero_eq b (enemy_color wt) + 1)
    as Htotal.
  { rewrite !(count_cell_sum b') by exact Hwf'. rewrite !(count_cell_sum b) by exact Hwf.
    rewrite <- (cell_sum_point r c Hr Hc), <- !cell_sum_add.
    apply cell_sum_ext. intros x y Hx Hy.
    destruct (Hcells x y Hx Hy)
      as [(-> & -> & Hv)|[(Hne & _ & Hold & Hv)|(Hne & _ & Hv)]].
    - rewrite Hv, Hempty, !Z.eqb_refl. cbn [andb indicator]. indicator_cases. lia.
    - rewrite Hv, Hold, (point_eqb_false x y r c Hne). cbn [indicator].
      indicator_cases. lia.
    - rewrite Hv, (point_eqb_false x y r c Hne). cbn [indicator]. lia. }
  assert (count_nonzero_eq b' (enemy_color wt) + 1 ≤ count_nonzero_eq b (enemy_color wt))
    as Hless.
  { rewrite (count_cell_sum b') by exact Hwf'. rewrite (count_cell_sum b) by exact Hwf.
    rewrite <- (cell_sum_point px py Hpx Hpy), <- cell_sum_add.
    apply cell_sum_le. intros x y Hx Hy.
    destruct (Hcells x y Hx Hy)
      as [(-> & -> & Hv)|[(Hne & _ & Hold & Hv)|(Hne & Hout & Hv)]].
    - rewrite Hv, Hempty, (point_eqb_false r c px py)
        by (intros [-> ->]; apply Hpne; now split).
      cbn [indicator]. indicator_cases. lia.
    - rewrite Hv, Hold, Z.eqb_refl. cbn [indicator]. indicator_cases.
      unfold indicator. destruct (_ && _); lia.
    - rewrite Hv, (point_eqb_false x y px py)
        by (intros [-> ->]; exact (Hout Hprun)).
      cbn [indicator]. lia. }
  exists b', (count_nonzero_eq b (enemy_color wt) - count_nonzero_eq b' (enemy_color wt)).
  split; [exact Hplay|]. split; [exact Hwf'|]. split; [lia|]. split; lia.
Qed.

(** X3. A legal move adds one piece to the board and flips at least one:
    for some [k >= 1] the mover gains [1 + k] pieces and the other side
    loses [k]; so the static evaluation moves by [1 + 2 * k >= 3] towards
    the mover, and the number of pieces grows by exactly one. *)
Theorem legal_move_counts (b : Board) (wt : bool) (r c : Z) :
  wf_board b → In (r, c) (generate_legal_moves b wt) →
  ∃ b' k, play_move_value b (r, c) wt = Some b' ∧ 1 ≤ k
          ∧ count_nonzero_eq b' (friendly_color wt)
            = count_nonzero_eq b (friendly_color wt) + 1 + k
          ∧ count_nonzero_eq b' (enemy_color wt)
            = count_nonzero_eq b (enemy_color wt) - k
          ∧ evaluation_function b'
            = evaluation_function b + (if wt then 1 + 2 * k else - (1 + 2 * k)).
Proof.
  intros Hwf Hin.
  destruct (play_move_counts b wt r c Hwf Hin) as (b' & k & Hplay & _ & Hk & HF & HE).
  exists b', k. split; [exact Hplay|]. split; [exact Hk|]. split; [exact HF|].
  split; [exact HE|]. unfold evaluation_function.
  destruct wt; unfold friendly_color, enemy_color in HF, HE; lia.
Qed.

Lemma legal_move_counts_witness :
  ∃ b' k, play_move_value opening (2, 4) true = Some b' ∧ 1 ≤ k
          ∧ count_nonzero_eq b' (friendly_color true)
            = count_nonzero_eq opening (friendly_color true) + 1 + k
          ∧ count_nonzero_eq b' (enemy_color true)
            = count_nonzero_eq opening (enemy_color true) - k
          ∧ evaluation_function b'
            = evaluation_function opening + (if true then 1 + 2 * k else - (1 + 2 * k)).
Proof.
  apply (legal_move_counts opening true 2 4).
  - vm_compute. reflexivity.
  - vm_compute. tauto.
Defined.

(** ** Boards on which the game is over *)

Lemma no_legal_moves (b : Board) (wt : bool) :
  (∀ r c, ¬ In (r, c) (generate_legal_moves b wt)) → generate_legal_moves b wt = [].
Proof.
  intros H. destruct (generate_legal_moves b wt) as [|[r c] ms]; [reflexivity|].
  destruct (H r c). now left.
Qed.

(** X4. A board that is full, or on which one of the colours has no
    piece, has no legal move for either side: [check_game_over] reports
    the game over, with the winner by piece count. *)
Theorem game_over_when_full_or_wiped_out (b : Board) :
  wf_board b →
  (∀ x y, on_board x = true → on_board y = true → cell b x y ≠ NOBODY)
  ∨ count_nonzero_eq b WHITE = 0 ∨ count_nonzero_eq b BLACK = 0 →
  generate_legal_moves b true = [] ∧ generate_legal_moves b false = []
  ∧ check_game_over b = find_winner b ∧ check_game_over b ≠ NOBODY.
Proof.
  intros Hwf Hcase.
  assert (∀ wt, generate_legal_moves b wt = []) as Hnone.
  { intros wt. apply no_legal_moves. intros r c Hin.
    apply generate_legal_moves_spec in Hin as (Hr & Hc & Hempty & Hcap).
    destruct Hcase as [Hfull|Hwiped]; [exact (Hfull r c Hr Hc Hempty)|].
    apply (can_capture_run b r c wt Hwf) in Hcap as (dr & dc & n & _ & Hrun).
    destruct Hrun as (Hn & Hnr & Hnc & Hcell & Hbefore).
    destruct (Hbefore 1) as (H1r & H1c & H1); [lia|].
    pose proof (count_pos b _ _ _ Hwf Hnr Hnc Hcell) as HF.
    pose proof (count_pos b _ _ _ Hwf H1r H1c H1) as HE.
    destruct wt; unfold friendly_color, enemy_color in HF, HE; lia. }
  pose proof (Hnone true) as H1. pose proof (Hnone false) as H2. clear Hnone Hcase.
  split; [exact H1|]. split; [exact H2|].
  destruct (check_game_over_cases b) as [[[Hm|Hm] _]|(_ & _ & Hw)];
    [destruct (Hm H1)|destruct (Hm H2)|].
  split; [exact Hw|]. rewrite Hw.
  destruct (find_winner_cases b) as [[_ E]|[[_ E]|[_ E]]]; rewrite E; discriminate.
Qed.

Lemma game_over_when_full_or_wiped_out_witness :
  generate_legal_moves finished_position true = []
  ∧ generate_legal_moves finished_position false = []
  ∧ check_game_over finished_position = find_winner finished_position
  ∧ check_game_over finished_position ≠ NOBODY.
Proof.
  apply (game_over_when_full_or_wiped_out finished_position).
  - vm_compute. reflexivity.
  - right. right. vm_compute. reflexivity.
Defined.

(** ** The values of the search *)

Section LoopBounds.
Variable rec : Board → bool → Z → bound → bound → option Z.
Variables (b : Board) (d : Z).

Lemma max_loop_bounds (β : bound) (moves : list (Z * Z)) :
  (∀ m child α s, In m moves → play_move_value b m true = Some child →
     rec child false (d - 1) α β = Some s → - WIN_VAL ≤ s ≤ WIN_VAL) →
  ∀ best α v, best ≤ WIN_VAL →
    max_loop rec b d β moves best α = Some v →
    v ≤ WIN_VAL ∧ (moves ≠ [] ∨ - WIN_VAL ≤ best → - WIN_VAL ≤ v).
Proof.
  induction moves as [|m moves IH]; intros Hrec best α v Hbest Hloop.
  { injection Hloop as <-. split; [exact Hbest|]. intros [H|H]; [destruct (H eq_refl)|exact H]. }
  cbn [max_loop] in Hloop.
  destruct (play_move_value b m true) as [child|] eqn:Hplay; [|discriminate].
  cbn [mbind option_bind] in Hloop.
  destruct (rec child false (d - 1) α β) as [s|] eqn:Hs; [|discriminate].
  cbn [mbind option_bind] in Hloop.
  pose proof (Hrec m child α s (or_introl eq_refl) Hplay Hs) as Hb.
  assert ((if s >? best then s else best) = Z.max best s) as Eb
    by (destruct (Z.gtb_spec s best); lia).
  rewrite Eb in Hloop. clear Eb.
  destruct (ble β _).
  - injection Hloop as <-. split; [lia|]. intros _. lia.
  - apply IH in Hloop; [|intros m' child' α' s' Hin; apply Hrec; now right|lia].
    destruct Hloop as [Hup Hlow]. split; [exact Hup|]. intros _. apply Hlow. right. lia.
Qed.

Lemma min_loop_bounds (α : bound) (moves : list (Z * Z)) :
  (∀ m child β s, In m moves → play_move_value b m false = Some child →
     rec child true (d - 1) α β = Some s → - WIN_VAL ≤ s ≤ WIN_VAL) →
  ∀ best β v, - WIN_VAL ≤ best →
    min_loop rec b d α moves best β = Some v →
    - WIN_VAL ≤ v ∧ (moves ≠ [] ∨ best ≤ WIN_VAL → v ≤ WIN_VAL).
Proof.
  induction moves as [|m moves IH]; intros Hrec best β v Hbest Hloop.
  { injection Hloop as <-. split; [exact Hbest|]. intros [H|H]; [destruct (H eq_refl)|exact H]. }
  cbn [min_loop] in Hloop.
  destruct (play_move_value b m false) as [child|] eqn:Hplay; [|discriminate].
  cbn [mbind option_bind] in Hloop.
  destruct (rec child true (d - 1) α β) as [s|] eqn:Hs; [|discriminate].
  cbn [mbind option_bind] in Hloop.
  pose proof (Hrec m child β s (or_introl eq_refl) Hplay Hs) as Hb.
  destruct (ble _ α).
  - injection Hloop as <-. split; [lia|]. intros _. lia.
  - apply IH in Hloop; [|intros m' child' β' s' Hin; apply Hrec; now right|lia].
    destruct Hloop as [Hlow Hup]. split; [exact Hlow|]. intros _. apply Hup. right. lia.
Qed.
End LoopBounds.

Lemma minimax_value_bounds (fuel : nat) :
  ∀ b wt d α β v, wf_board b →
    minimax_value fuel b wt d α β = Some v → - WIN_VAL ≤ v ≤ WIN_VAL.
Proof.
  induction fuel as [|fuel IH]; intros b wt d α β v Hwf Hv; [discriminate|].
  destruct (Z.eq_dec d 0) as [->|Hd0].
  { rewrite minimax_value_depth0 in Hv. injection Hv as <-.
    pose proof (evaluation_function_bounds b Hwf). lia. }
  destruct (node_cases b wt) as [[H1 H2]|[(Hgo & Hnone & Hopp)|[Hgo Hsome]]].
  - rewrite (minimax_value_game_over fuel b wt d α β Hd0 H1 H2) in Hv.
    injection Hv as <-. apply terminal_score_bounds.
  - rewrite (minimax_value_node fuel b wt d α β Hd0 Hgo) in Hv. clear Hopp.
    destruct wt.
    + unfold find_max_score in Hv. rewrite Hnone in Hv.
      exact (IH b false d α β v Hwf Hv).
    + unfold find_min_score in Hv. rewrite Hnone in Hv.
      exact (IH b true d α β v Hwf Hv).
  - rewrite (minimax_value_node fuel b wt d α β Hd0 Hgo) in Hv.
    assert (∀ wt' m child, In m (generate_legal_moves b wt) →
              play_move_value b m wt' = Some child → wf_board child) as Hch.
    { intros wt' m child Hin Hplay.
      destruct (legal_move_plays b wt' wt m Hwf Hin) as (child' & Hplay' & Hwf').
      congruence. }
    clear Hgo. destruct wt.
    + unfold find_max_score in Hv.
      destruct (generate_legal_moves b true) as [|m0 ms] eqn:Hmoves; [destruct (Hsome eq_refl)|].
      cbn [length Z.of_nat Z.eqb] in Hv.
      apply max_loop_bounds in Hv as [Hup Hlow].
      * split; [apply Hlow; left; discriminate|exact Hup].
      * intros m child α' s Hin Hplay Hs.
        exact (IH child false (d - 1) α' β s (Hch true m child Hin Hplay) Hs).
      * unfold WIN_VAL, maxsize. lia.
    + unfold find_min_score in Hv.
      destruct (generate_legal_moves b false) as [|m0 ms] eqn:Hmoves; [destruct (Hsome eq_refl)|].
      cbn [length Z.of_nat Z.eqb] in Hv.
      apply min_loop_bounds in Hv as [Hlow Hup].
      * split; [exact Hlow|apply Hup; left; discriminate].
      * intros m child β' s Hin Hplay Hs.
        exact (IH child true (d - 1) α β' s (Hch false m child Hin Hplay) Hs).
      * unfold WIN_VAL, maxsize. lia.
Qed.

(** X5. Whatever the window, [minimax_value] returns a value between
    [-WIN_VAL] and [WIN_VAL]: the initial scores [-sys.maxsize] and
    [sys.maxsize] of [find_max_score] and [find_min_score] are never
    returned. *)
Theorem minimax_value_in_range (b : Board) (wt : bool) (d : Z) (α β : bound) :
  wf_board b → 0 ≤ d →
  ∃ v, (∀ fuel, (2 * Z.to_nat d + 1 ≤ fuel)%nat → minimax_value fuel b wt d α β = Some v)
       ∧ - WIN_VAL ≤ v ≤ WIN_VAL ∧ v ≠ maxsize ∧ v ≠ maxsize * -1.
Proof.
  intros Hwf Hd. destruct (minimax_value_total b wt d α β Hwf Hd) as [v Hv].
  exists v. split; [exact Hv|].
  pose proof (minimax_value_bounds _ b wt d α β v Hwf (Hv _ (Nat.le_refl _))) as Hb.
  unfold WIN_VAL, maxsize in *. lia.
Qed.

Lemma minimax_value_in_range_witness :
  ∃ v, (∀ fuel, (2 * Z.to_nat 2 + 1 ≤ fuel)%nat →
          minimax_value fuel opening false 2 (Fin 3) (Fin 1) = Some v)
       ∧ - WIN_VAL ≤ v ≤ WIN_VAL ∧ v ≠ maxsize ∧ v ≠ maxsize * -1.
Proof.
  apply (minimax_value_in_range opening false 2 (Fin 3) (Fin 1)).
  - vm_compute. reflexivity.
  - lia.
Defined.

(** X6. For every window with [alpha < beta], the value [v] that
    [minimax_value] returns relates to the exhaustive value [m] as
    follows: strictly inside the window [v = m]; at or below [alpha],
    [m <= v]; at or above [beta], [v <= m]. *)
Theorem alpha_beta_window (b : Board) (wt : bool) (d : Z) (α β : bound) :
  wf_board b → 0 ≤ d → blt α β = true →
  ∃ v m, (∀ fuel, (2 * Z.to_nat d + 1 ≤ fuel)%nat →
            minimax_value fuel b wt d α β = Some v
            ∧ exhaustive_value fuel b wt d = Some m)
         ∧ (blt α (Fin v) = true → blt (Fin v) β = true → v = m)
         ∧ (ble (Fin v) α = true → m ≤ v)
         ∧ (ble β (Fin v) = true → v ≤ m).
Proof.
  intros Hwf Hd Hαβ.
  destruct (minimax_value_total b wt d α β Hwf Hd) as [v Hv].
  destruct (exhaustive_value_total b wt d Hwf Hd) as [m Hm].
  exists v, m. split; [intros fuel Hfuel; split; [apply Hv|apply Hm]; exact Hfuel|].
  destruct (minimax_value_sound _ _ b wt d α β v m Hwf Hαβ
              (Hv _ (Nat.le_refl _)) (Hm _ (Nat.le_refl _))) as (H1 & H2 & H3).
  split; [exact H3|]. split; [exact H1|exact H2].
Qed.

Lemma alpha_beta_window_witness :
  ∃ v m, (∀ fuel, (2 * Z.to_nat 3 + 1 ≤ fuel)%nat →
            minimax_value fuel opening true 3 (Fin 0) (Fin 2) = Some v
            ∧ exhaustive_value fuel opening true 3 = Some m)
         ∧ (blt (Fin 0) (Fin v) = true → blt (Fin v) (Fin 2) = true → v = m)
         ∧ (ble (Fin v) (Fin 0) = true → m ≤ v)
         ∧ (ble (Fin 2) (Fin v) = true → v ≤ m).
Proof.
  apply (alpha_beta_window opening true 3 (Fin 0) (Fin 2)).
  - vm_compute. reflexivity.
  - lia.
  - reflexivity.
Defined.

(** ** The move the AI plays *)

Lemma candidate_value_total (b : Board) (m : Z * Z) :
  wf_board b → In m (generate_legal_moves b true) →
  ∃ v, ∀ fuel, (11 ≤ fuel)%nat → candidate_value fuel b m = Some v.
Proof.
  intros Hwf Hin.
  destruct (legal_move_plays b true true m Hwf Hin) as (child & Hplay & Hwf').
  destruct (minimax_value_total child true DEMO_SEARCH_DEPTH NegInf PosInf Hwf')
    as [v Hv]; [unfold DEMO_SEARCH_DEPTH; lia|].
  exists v. intros fuel Hfuel. unfold candidate_value. rewrite Hplay.
  cbn [mbind option_bind]. apply Hv. unfold DEMO_SEARCH_DEPTH. lia.
Qed.

Lemma candidate_values (b : Board) (moves : list (Z * Z)) :
  wf_board b → (∀ m, In m moves → In m (generate_legal_moves b true)) →
  ∃ vals, Forall2 (λ m v, ∀ fuel, (11 ≤ fuel)%nat → candidate_value fuel b m = Some v)
                  moves vals.
Proof.
  intros Hwf. induction moves as [|m moves IH]; intros Hsub.
  { exists []. constructor. }
  destruct (candidate_value_total b m Hwf (Hsub m (or_introl eq_refl))) as [v Hv].
  destruct IH as [vals Hvals]; [intros m' Hin; apply Hsub; now right|].
  exists (v :: vals). now constructor.
Qed.

Lemma best_move_loop_step (fuel : nat) (b : Board) (m0 : Z * Z) (ms : list (Z * Z))
    (bv : bound) (bm : option (Z * Z)) (v0 : Z) :
  candidate_value fuel b m0 = Some v0 →
  best_move_loop fuel b (m0 :: ms) bv bm
  = if blt bv (Fin v0) then best_move_loop fuel b ms (Fin v0) (Some m0)
    else best_move_loop fuel b ms bv bm.
Proof.
  unfold candidate_value. intros H. cbn [best_move_loop].
  destruct (play_move_value b m0 true) as [child|]; [|discriminate].
  cbn [mbind option_bind] in *. rewrite H. reflexivity.
Qed.

Lemma best_move_loop_spec (b : Board) (moves : list (Z * Z)) (vals : list Z) :
  Forall2 (λ m v, ∀ fuel, (11 ≤ fuel)%nat → candidate_value fuel b m = Some v)
          moves vals →
  ∀ bv bm,
    (Forall (λ v, ble (Fin v) bv = true) vals
     ∧ ∀ fuel, (11 ≤ fuel)%nat → best_move_loop fuel b moves bv bm = Some (bv, bm))
    ∨ (∃ pre m v post,
         moves = pre ++ m :: post ∧ blt bv (Fin v) = true
         ∧ (∀ fuel, (11 ≤ fuel)%nat →
              best_move_loop fuel b moves bv bm = Some (Fin v, Some m)
              ∧ candidate_value fuel b m = Some v)
         ∧ Forall (λ m', ∃ v', (∀ fuel, (11 ≤ fuel)%nat →
                                   candidate_value fuel b m' = Some v') ∧ v' < v) pre
         ∧ Forall (λ m', ∃ v', (∀ fuel, (11 ≤ fuel)%nat →
                                   candidate_value fuel b m' = Some v') ∧ v' ≤ v) post).
Proof.
  intros Hall. induction Hall as [|m0 v0 ms vs Hcv Hall IH]; intros bv bm.
  { left. split; [constructor|]. intros fuel _. reflexivity. }
  destruct (blt bv (Fin v0)) eqn:Hup.
  - destruct (IH (Fin v0) (Some m0))
      as [[Hle Hloop]|(pre & m & v & post & Hsplit & Hlt & Hres & Hpre & Hpost)].
    + right. exists [], m0, v0, ms. split; [reflexivity|]. split; [exact Hup|]. split.
      { intros fuel Hfuel. rewrite (best_move_loop_step fuel b m0 ms bv bm v0 (Hcv fuel Hfuel)).
        rewrite Hup. split; [apply Hloop; exact Hfuel|apply Hcv; exact Hfuel]. }
      split; [constructor|].
      clear IH Hloop. induction Hall as [|m1 v1 ms vs Hcv1 Hall IHall]; [constructor|].
      apply Forall_cons_1 in Hle as [Hle1 Hle]. constructor; [|apply IHall; exact Hle].
      exists v1. split; [exact Hcv1|]. cbn [ble] in Hle1. lia.
    + right. exists (m0 :: pre), m, v, post. split; [rewrite Hsplit; reflexivity|].
      split; [clear -Hup Hlt; window_solve|]. split.
      { intros fuel Hfuel. rewrite (best_move_loop_step fuel b m0 ms bv bm v0 (Hcv fuel Hfuel)).
        rewrite Hup. apply Hres. exact Hfuel. }
      split; [|exact Hpost]. constructor; [|exact Hpre].
      exists v0. split; [exact Hcv|]. clear -Hlt. window_solve.
  - destruct (IH bv bm)
      as [[Hle Hloop]|(pre & m & v & post & Hsplit & Hlt & Hres & Hpre & Hpost)].
    + left. split.
      { constructor; [|exact Hle]. unfold blt in Hup. now apply negb_false_iff in Hup. }
      intros fuel Hfuel. rewrite (best_move_loop_step fuel b m0 ms bv bm v0 (Hcv fuel Hfuel)).
      rewrite Hup. apply Hloop. exact Hfuel.
    + right. exists (m0 :: pre), m, v, post. split; [rewrite Hsplit; reflexivity|].
      split; [exact Hlt|]. split.
      { intros fuel Hfuel. rewrite (best_move_loop_step fuel b m0 ms bv bm v0 (Hcv fuel Hfuel)).
        rewrite Hup. apply Hres. exact Hfuel. }
      split; [|exact Hpost]. constructor; [|exact Hpre].
      exists v0. split; [exact Hcv|]. clear -Hup Hlt. window_solve.
Qed.

(** X7. When white has a legal move, the AI's loop in [play] returns one
    of white's legal moves, never [None]: the first move, in row-major
    order, whose value is the largest, where the value of a move is the
    result of [minimax_value] on the board after the move with
    [white_turn = True], depth [DEMO_SEARCH_DEPTH] and the window
    [(-inf, +inf)].  Moves listed before it have a strictly smaller
    value, moves listed after it a value not larger. *)
Theorem ai_move_first_maximum (b : Board) :
  wf_board b → generate_legal_moves b true ≠ [] →
  ∃ pre m v post,
    generate_legal_moves b true = pre ++ m :: post
    ∧ (∀ fuel, (11 ≤ fuel)%nat →
         ai_move fuel b = Some (Fin v, Some m) ∧ candidate_value fuel b m = Some v)
    ∧ Forall (λ m', ∃ v', (∀ fuel, (11 ≤ fuel)%nat →
                              candidate_value fuel b m' = Some v') ∧ v' < v) pre
    ∧ Forall (λ m', ∃ v', (∀ fuel, (11 ≤ fuel)%nat →
                              candidate_value fuel b m' = Some v') ∧ v' ≤ v) post.
Proof.
  intros Hwf Hsome. unfold ai_move.
  destruct (candidate_values b (generate_legal_moves b true) Hwf (λ m H, H)) as [vals Hvals].
  destruct (best_move_loop_spec b _ vals Hvals NegInf None)
    as [[Hle _]|(pre & m & v & post & Hsplit & _ & Hres & Hpre & Hpost)].
  - destruct Hvals as [|m0 v0 ms vs _ _]; [destruct (Hsome eq_refl)|].
    apply Forall_cons_1 in Hle as [Hle _]. discriminate Hle.
  - exists pre, m, v, post. split; [exact Hsplit|]. split; [exact Hres|].
    split; [exact Hpre|exact Hpost].
Qed.

Lemma ai_move_first_maximum_witness :
  ∃ pre m v post,
    generate_legal_moves opening true = pre ++ m :: post
    ∧ (∀ fuel, (11 ≤ fuel)%nat →
         ai_move fuel opening = Some (Fin v, Some m)
         ∧ candidate_value fuel opening m = Some v)
    ∧ Forall (λ m', ∃ v', (∀ fuel, (11 ≤ fuel)%nat →
                              candidate_value fuel opening m' = Some v') ∧ v' < v) pre
    ∧ Forall (λ m', ∃ v', (∀ fuel, (11 ≤ fuel)%nat →
                              candidate_value fuel opening m' = Some v') ∧ v' ≤ v) post.
Proof.
  apply (ai_move_first_maximum opening).
  - vm_compute. reflexivity.
  - vm_compute. discriminate.
Defined.

(** ** Reading a board text *)

Lemma board_chars_get_color (ch : ascii) : is_color (board_chars_get ch) = true.
Proof.
  unfold board_chars_get. destruct (Ascii.eqb ch "W"); [reflexivity|].
  destruct (Ascii.eqb ch "B"); [reflexivity|]. destruct (Ascii.eqb ch "-"); reflexivity.
Qed.

Lemma read_cols_spec (row : Z) (line : list ascii) (cols : list Z) :
  on_board row = true →
  (∀ col, In col cols → on_board col = true ∧ is_Some (line !! Z.to_nat col)) →
  ∀ b, wf_board b →
    ∃ b', read_cols b row line cols = Some b' ∧ wf_board b' ∧
          ∀ x y, on_board x = true → on_board y = true →
            cell b' x y = if (x =? row) && existsb (Z.eqb y) cols
                          then char_value line y else cell b x y.
Proof.
  intros Hrow. induction cols as [|col cols IH]; intros Hcols b Hwf.
  { exists b. split; [reflexivity|]. split; [exact Hwf|]. intros x y _ _.
    cbn [existsb]. now rewrite andb_false_r. }
  destruct (Hcols col (or_introl eq_refl)) as [Hcol [ch Hch]].
  cbn [read_cols]. rewrite Hch. cbn [mbind option_bind].
  destruct (setitem_on_board b row col (board_chars_get ch) Hwf Hrow Hcol
              (board_chars_get_color ch)) as (b1 & -> & Hwf1 & Hb1).
  cbn [mbind option_bind].
  destruct (IH (λ c H, Hcols c (or_intror H)) b1 Hwf1) as (b' & -> & Hwf' & Hb').
  exists b'. split; [reflexivity|]. split; [exact Hwf'|]. intros x y Hx Hy.
  rewrite (Hb' x y Hx Hy), (Hb1 x y Hx Hy). cbn [existsb].
  destruct (Z.eqb_spec x row) as [->|]; [|reflexivity]. cbn [andb].
  destruct (existsb (Z.eqb y) cols); [now rewrite orb_true_r|].
  rewrite orb_false_r. destruct (Z.eqb_spec y col) as [->|]; [|reflexivity].
  unfold char_value. now rewrite Hch.
Qed.

Lemma existsb_range (y : Z) :
  on_board y = true → existsb (Z.eqb y) (range NUM_COLS) = true.
Proof.
  intros Hy. apply existsb_exists. exists y. split; [|apply Z.eqb_refl].
  apply in_range. now apply on_board_spec.
Qed.

(** A line of at least 8 characters fills its row. *)
Lemma read_row (row : Z) (line : list ascii) (b : Board) :
  on_board row = true → (Z.to_nat NUM_COLS ≤ length line)%nat → wf_board b →
  ∃ b', read_cols b row line (range NUM_COLS) = Some b' ∧ wf_board b' ∧
        ∀ x y, on_board x = true → on_board y = true →
          cell b' x y = if x =? row then char_value line y else cell b x y.
Proof.
  intros Hrow Hlen Hwf.
  destruct (read_cols_spec row line (range NUM_COLS) Hrow) with (b := b)
    as (b' & Hb' & Hwf' & Hcells); [|exact Hwf|].
  { intros col Hin. apply in_range in Hin. split; [now apply on_board_spec|].
    apply lookup_lt_is_Some_2. unfold NUM_COLS in *. lia. }
  exists b'. split; [exact Hb'|]. split; [exact Hwf'|]. intros x y Hx Hy.
  rewrite (Hcells x y Hx Hy), (existsb_range y Hy). now rewrite andb_true_r.
Qed.

(** A line of fewer than 8 characters, or a row past the last, raises. *)
Lemma read_row_fails (row : Z) (line : list ascii) (b : Board) :
  wf_board b → 0 ≤ row →
  (length line < Z.to_nat NUM_COLS)%nat ∨ NUM_COLS ≤ row →
  read_cols b row line (range NUM_COLS) = None.
Proof.
  intros Hwf Hrow0 Hbad.
  destruct (le_lt_dec (Z.to_nat NUM_COLS) (length line)) as [Hlong|Hshort].
  - destruct Hbad as [Hshort|Hrow]; [lia|].
    change (range NUM_COLS) with (0 :: map Z.of_nat (seq 1 7)). cbn [read_cols].
    destruct (line !! Z.to_nat 0) as [ch|]; [|reflexivity]. cbn [mbind option_bind].
    unfold setitem. rewrite (proj2 (py_index_None row)) by lia. reflexivity.
  - clear Hbad. assert (∀ cols b0,
        (∀ col, In col cols → 0 ≤ col < NUM_COLS) →
        (∃ col, In col cols ∧ (length line ≤ Z.to_nat col)%nat) →
        read_cols b0 row line cols = None) as Hgen.
    { induction cols as [|col cols IH]; intros b0 Hcols (c0 & Hin & Hc0); [destruct Hin|].
      cbn [read_cols]. destruct (line !! Z.to_nat col) as [ch|] eqn:Hch; [|reflexivity].
      cbn [mbind option_bind].
      destruct (setitem b0 row col (board_chars_get ch)) as [b1|]; [|reflexivity].
      cbn [mbind option_bind]. apply IH; [intros c Hc; apply Hcols; now right|].
      destruct Hin as [->|Hin]; [|exists c0; split; [exact Hin|exact Hc0]].
      apply lookup_lt_Some in Hch. lia. }
    apply Hgen.
    + intros col Hin. now apply in_range in Hin.
    + exists (Z.of_nat (length line)). split; [|lia].
      apply in_range. unfold NUM_COLS in *. lia.
Qed.

Lemma read_lines_spec (lines : list (list ascii)) :
  ∀ row b, wf_board b → 0 ≤ row →
    row + Z.of_nat (length lines) ≤ NUM_COLS →
    Forall (λ line, (Z.to_nat NUM_COLS ≤ length line)%nat) lines →
    ∃ b', read_lines b row lines = Some b' ∧ wf_board b' ∧
          ∀ x y, on_board x = true → on_board y = true →
            cell b' x y = if (row <=? x) && (x <? row + Z.of_nat (length lines))
                          then text_value lines (x - row) y else cell b x y.
Proof.
  induction lines as [|line lines IH]; intros row b Hwf Hrow Hfit Hlong.
  { exists b. split; [reflexivity|]. split; [exact Hwf|]. intros x y _ _.
    change (Z.of_nat (length (@nil (list ascii)))) with 0. rewrite Z.add_0_r.
    destruct (Z.leb_spec row x), (Z.ltb_spec x row); try lia; reflexivity. }
  apply Forall_cons_1 in Hlong as [Hlen Hlong].
  rewrite length_cons, Nat2Z.inj_succ in Hfit |- *.
  cbn [read_lines].
  destruct (read_row row line b) as (b1 & -> & Hwf1 & Hb1);
    [apply on_board_spec; lia|exact Hlen|exact Hwf|].
  cbn [mbind option_bind].
  destruct (IH (row + 1) b1 Hwf1) as (b' & -> & Hwf' & Hb'); [lia|lia|exact Hlong|].
  exists b'. split; [reflexivity|]. split; [exact Hwf'|]. intros x y Hx Hy.
  rewrite (Hb' x y Hx Hy), (Hb1 x y Hx Hy).
  destruct (Z.eqb_spec x row) as [->|Hne].
  - assert ((row + 1 <=? row) && (row <? row + 1 + Z.of_nat (length lines)) = false) as ->
      by (apply andb_false_iff; left; apply Z.leb_gt; lia).
    assert ((row <=? row) && (row <? row + Z.succ (Z.of_nat (length lines))) = true) as ->
      by (apply andb_true_iff; split; [apply Z.leb_le|apply Z.ltb_lt]; lia).
    unfold text_value. now rewrite Z.sub_diag.
  - destruct ((row + 1 <=? x) && (x <? row + 1 + Z.of_nat (length lines))) eqn:EA.
    + apply andb_true_iff in EA as [E1 E2]. apply Z.leb_le in E1. apply Z.ltb_lt in E2.
      assert ((row <=? x) && (x <? row + Z.succ (Z.of_nat (length lines))) = true) as ->
        by (apply andb_true_iff; split; [apply Z.leb_le|apply Z.ltb_lt]; lia).
      unfold text_value.
      replace (Z.to_nat (x - row)) with (S (Z.to_nat (x - (row + 1)))) by lia.
      reflexivity.
    + assert ((row <=? x) && (x <? row + Z.succ (Z.of_nat (length lines))) = false) as ->.
      { apply andb_false_iff. apply andb_false_iff in EA as [E|E].
        - left. apply Z.leb_gt in E. apply Z.leb_gt. lia.
        - right. apply Z.ltb_ge in E. apply Z.ltb_ge. lia. }
      reflexivity.
Qed.

Lemma read_lines_fails (lines : list (list ascii)) :
  ∀ row b, wf_board b → 0 ≤ row ≤ NUM_COLS →
    NUM_COLS < row + Z.of_nat (length lines)
    ∨ Exists (λ line, (length line < Z.to_nat NUM_COLS)%nat) lines →
    read_lines b row lines = None.
Proof.
  induction lines as [|line lines IH]; intros row b Hwf Hrow Hbad.
  { destruct Hbad as [Hbad|Hbad]; [cbn [length Z.of_nat] in Hbad; lia|inversion Hbad]. }
  cbn [read_lines].
  destruct (le_lt_dec (Z.to_nat NUM_COLS) (length line)) as [Hlong|Hshort].
  2:{ rewrite (read_row_fails row line b Hwf) by (lia || (left; exact Hshort)).
      reflexivity. }
  destruct (Z.eq_dec row NUM_COLS) as [->|Hne].
  { rewrite (read_row_fails NUM_COLS line b Hwf) by (unfold NUM_COLS; lia || (right; lia)).
    reflexivity. }
  destruct (read_row row line b) as (b1 & -> & Hwf1 & _);
    [apply on_board_spec; lia|exact Hlong|exact Hwf|].
  cbn [mbind option_bind]. apply IH; [exact Hwf1|lia|].
  destruct Hbad as [Hbad|Hbad].
  - left. rewrite length_cons, Nat2Z.inj_succ in Hbad. lia.
  - right. apply Exists_cons in Hbad as [Hbad|Hbad]; [lia|exact Hbad].
Qed.

Lemma lines_long_or_short (lines : list (list ascii)) :
  Forall (λ line, (Z.to_nat NUM_COLS ≤ length line)%nat) lines
  ∨ Exists (λ line, (length line < Z.to_nat NUM_COLS)%nat) lines.
Proof.
  induction lines as [|line lines [IH|IH]].
  - left. constructor.
  - destruct (le_lt_dec (Z.to_nat NUM_COLS) (length line)) as [Hlong|Hshort].
    + left. now constructor.
    + right. now constructor.
  - right. now constructor 2.
Qed.

Lemma wf_board_zeros : wf_board zeros.
Proof. vm_compute. reflexivity. Qed.

(** X8. [read_boardstring] returns a board exactly when the text has at
    most 8 lines and every line has at least 8 characters; otherwise it
    raises [IndexError].  The board it returns has, in the row of each
    line, white for [W], black for [B] and empty for any other character
    among the first 8 of the line; the characters after them are
    ignored, and the rows after the last line are empty. *)
Theorem read_boardstring_spec (s : list ascii) :
  ((length (splitlines s) ≤ Z.to_nat NUM_COLS)%nat
   ∧ Forall (λ line, (Z.to_nat NUM_COLS ≤ length line)%nat) (splitlines s) →
   ∃ b, read_boardstring s = Some b ∧ wf_board b ∧
        ∀ x y, on_board x = true → on_board y = true →
               cell b x y = text_value (splitlines s) x y)
  ∧ (¬ ((length (splitlines s) ≤ Z.to_nat NUM_COLS)%nat
        ∧ Forall (λ line, (Z.to_nat NUM_COLS ≤ length line)%nat) (splitlines s)) →
     read_boardstring s = None).
Proof.
  unfold read_boardstring. generalize (splitlines s). intros lines. split.
  - intros [Hcount Hlong].
    destruct (read_lines_spec lines 0 zeros wf_board_zeros) as (b & Hb & Hwf & Hcells);
      [lia|unfold NUM_COLS in *; lia|exact Hlong|].
    exists b. split; [exact Hb|]. split; [exact Hwf|]. intros x y Hx Hy.
    rewrite (Hcells x y Hx Hy). pose proof Hx as Hx'. apply on_board_spec in Hx'.
    destruct (Z.leb_spec 0 x); [|lia]. cbn [andb]. rewrite Z.sub_0_r.
    destruct (Z.ltb_spec x (0 + Z.of_nat (length lines))); [reflexivity|].
    unfold text_value. rewrite (lookup_ge_None_2 lines) by lia.
    destruct (getitem_on_board zeros x y wf_board_zeros Hx Hy) as (v & Hv & _).
    unfold cell. rewrite Hv. cbn [default].
    unfold getitem in Hv. rewrite !py_index_on_board in Hv by assumption.
    cbn [mbind option_bind] in Hv. unfold zeros in Hv.
    destruct (replicate _ _ !! Z.to_nat x) as [line|] eqn:Hline; [|discriminate].
    apply lookup_replicate in Hline as [-> _]. cbn [mbind option_bind] in Hv.
    apply lookup_replicate in Hv as [-> _]. reflexivity.
  - intros Hbad. apply read_lines_fails; [exact wf_board_zeros|unfold NUM_COLS; lia|].
    destruct (le_lt_dec (length lines) (Z.to_nat NUM_COLS)) as [Hcount|Hcount].
    + right. destruct (lines_long_or_short lines) as [Hall|Hex]; [|exact Hex].
      destruct Hbad. split; [exact Hcount|exact Hall].
    + left. unfold NUM_COLS in *. lia.
Qed.

Lemma read_boardstring_spec_witness :
  ∃ b, read_boardstring ["W"; "B"; "-"; "x"; "-"; "-"; "-"; "-"; "y"]%char = Some b
       ∧ wf_board b
       ∧ ∀ x y, on_board x = true → on_board y = true →
                cell b x y
                = text_value (splitlines ["W"; "B"; "-"; "x"; "-"; "-"; "-"; "-"; "y"]%char) x y.
Proof.
  apply (proj1 (read_boardstring_spec ["W"; "B"; "-"; "x"; "-"; "-"; "-"; "-"; "y"]%char)).
  split.
  - vm_compute. lia.
  - vm_compute. repeat constructor.
Defined.

(** ** Printing a board and reading it back *)

Lemma table_ext (f g : Z → Z → Z) :
  (∀ x y, on_board x = true → on_board y = true → f x y = g x y) → table f = table g.
Proof.
  intros H. unfold table. apply map_ext_in. intros x Hx. apply map_ext_in. intros y Hy.
  apply in_range in Hx, Hy. apply H; now apply on_board_spec.
Qed.

(** Two boards with the same cells are the same board. *)
Lemma board_ext (b b' : Board) :
  wf_board b → wf_board b' →
  (∀ x y, on_board x = true → on_board y = true → cell b x y = cell b' x y) → b = b'.
Proof.
  intros Hwf Hwf' H. rewrite (board_cells b Hwf), (board_cells b' Hwf').
  now apply table_ext.
Qed.

Lemma printable_color (v : Z) : is_color v = true → printable v = Some (piece_char v).
Proof.
  rewrite is_color_spec. unfold WHITE, NOBODY, BLACK.
  intros [->|[->| ->]]; reflexivity.
Qed.

Lemma board_chars_get_piece_char (v : Z) :
  is_color v = true → board_chars_get (piece_char v) = v.
Proof.
  rewrite is_color_spec. unfold WHITE, NOBODY, BLACK.
  intros [->|[->| ->]]; reflexivity.
Qed.

Lemma piece_char_no_break (v : Z) : is_linebreak (piece_char v) = false.
Proof.
  unfold piece_char. destruct (v =? 1); [reflexivity|]. destruct (v =? -1); reflexivity.
Qed.

Lemma print_line_spec (b : Board) (row : Z) (cols : list Z) :
  wf_board b → on_board row = true → (∀ col, In col cols → on_board col = true) →
  ∀ line, print_line b row cols line
          = Some (line ++ map (fun col => piece_char (cell b row col)) cols).
Proof.
  intros Hwf Hrow. induction cols as [|col cols IH]; intros Hcols line.
  { cbn [print_line map]. now rewrite app_nil_r. }
  cbn [print_line map].
  rewrite (printable_color _ (cell_is_color b row col Hwf Hrow (Hcols col (or_introl eq_refl)))).
  cbn [mbind option_bind]. rewrite IH by (intros c Hc; apply Hcols; now right).
  now rewrite <- app_assoc.
Qed.

(** The text [print_board] prints for a board: its rows, each ended by a
    newline. *)
Lemma print_rows_spec (b : Board) (rows : list Z) :
  wf_board b → (∀ row, In row rows → on_board row = true) →
  ∀ out, print_rows b rows out
         = (out ++ concat (map (fun row =>
                                  map (fun col => piece_char (cell b row col))
                                      (range NUM_COLS) ++ ["010"%char]) rows),
            true).
Proof.
  intros Hwf. induction rows as [|row rows IH]; intros Hrows out.
  { cbn [print_rows map concat]. now rewrite app_nil_r. }
  cbn [print_rows map concat].
  rewrite (print_line_spec b row (range NUM_COLS) Hwf (Hrows row (or_introl eq_refl)))
    by (intros col Hin; apply in_range in Hin; now apply on_board_spec).
  cbn [app]. rewrite IH by (intros r Hr; apply Hrows; now right).
  now rewrite <- !app_assoc.
Qed.

Lemma splitlines_from_line (l rest cur : list ascii) :
  Forall (λ c, is_linebreak c = false) l →
  splitlines_from false cur (l ++ "010"%char :: rest)
  = (rev cur ++ l) :: splitlines_from false [] rest.
Proof.
  intros Hl. revert cur. induction Hl as [|c l Hc _ IH]; intros cur.
  - cbn [app splitlines_from]. now rewrite app_nil_r.
  - cbn [app splitlines_from]. rewrite Hc, IH. cbn [rev]. now rewrite <- app_assoc.
Qed.

Lemma splitlines_rows (line_of : Z → list ascii) (rows : list Z) :
  (∀ row, Forall (λ c, is_linebreak c = false) (line_of row)) →
  splitlines (concat (map (fun row => line_of row ++ ["010"%char]) rows))
  = map line_of rows.
Proof.
  intros Hl. unfold splitlines. induction rows as [|row rows IH]; [reflexivity|].
  cbn [map concat]. rewrite <- app_assoc. cbn [app].
  rewrite (splitlines_from_line (line_of row) _ [] (Hl row)). cbn [rev app]. now rewrite IH.
Qed.

(** X9. [print_board] prints a board without raising, and
    [read_boardstring] reads the printed text back as the same board. *)
Theorem print_then_read (b : Board) :
  wf_board b →
  ∃ text, print_board b [] = (text, true) ∧ read_boardstring text = Some b.
Proof.
  intros Hwf.
  pose (line_of := fun row => map (fun col => piece_char (cell b row col)) (range NUM_COLS)).
  pose (text := concat (map (fun row => line_of row ++ ["010"%char]) (range NUM_COLS))).
  exists text. split.
  { unfold print_board.
    rewrite (print_rows_spec b (range NUM_COLS) Hwf)
      by (intros row Hin; apply in_range in Hin; now apply on_board_spec).
    reflexivity. }
  assert (splitlines text = map line_of (range NUM_COLS)) as Hsplit.
  { apply splitlines_rows. intros row. unfold line_of. apply List.Forall_forall.
    intros c Hc. apply in_map_iff in Hc as (col & <- & _). apply piece_char_no_break. }
  destruct (read_boardstring_spec text) as [Hok _].
  rewrite Hsplit in Hok. destruct Hok as (b' & Hread & Hwf' & Hcells).
  { split.
    - rewrite length_map, length_range. lia.
    - apply List.Forall_forall. intros line Hin. apply in_map_iff in Hin as (row & <- & _).
      unfold line_of. rewrite length_map, length_range. lia. }
  rewrite Hread. f_equal. apply board_ext; [exact Hwf'|exact Hwf|].
  intros x y Hx Hy. rewrite (Hcells x y Hx Hy). unfold text_value.
  pose proof Hx as Hx'. pose proof Hy as Hy'. apply on_board_spec in Hx', Hy'.
  rewrite lookup_map_range by (unfold NUM_COLS in *; lia).
  unfold char_value, line_of. rewrite lookup_map_range by (unfold NUM_COLS in *; lia).
  rewrite !Z2Nat.id by lia. apply board_chars_get_piece_char.
  now apply cell_is_color.
Qed.

Lemma print_then_read_witness :
  ∃ text, print_board midgame [] = (text, true) ∧ read_boardstring text = Some midgame.
Proof.
  apply (print_then_read midgame). vm_compute. reflexivity.
Defined.

(** X10. [eval_at_depth] on a text of at most 8 lines, each of at least
    8 characters, and a depth [d >= 0] returns the exhaustive minimax
    value, for White to move, of the board the text reads as; on any
    other text it raises. *)
Theorem eval_at_depth_spec (s : list ascii) (d : Z) :
  0 ≤ d →
  ((length (splitlines s) ≤ Z.to_nat NUM_COLS)%nat
   ∧ Forall (λ line, (Z.to_nat NUM_COLS ≤ length line)%nat) (splitlines s) →
   ∃ b v, read_boardstring s = Some b
          ∧ ∀ fuel, (2 * Z.to_nat d + 1 ≤ fuel)%nat →
              eval_at_depth fuel s d = Some v
              ∧ exhaustive_value fuel b true d = Some v)
  ∧ (¬ ((length (splitlines s) ≤ Z.to_nat NUM_COLS)%nat
        ∧ Forall (λ line, (Z.to_nat NUM_COLS ≤ length line)%nat) (splitlines s)) →
     ∀ fuel, eval_at_depth fuel s d = None).
Proof.
  intros Hd. destruct (read_boardstring_spec s) as [Hok Hbad]. split.
  - intros Hs. destruct (Hok Hs) as (b & Hread & Hwf & _).
    destruct (minimax_value_total b true d NegInf PosInf Hwf Hd) as [v Hv].
    destruct (exhaustive_value_total b true d Hwf Hd) as [m Hm].
    assert (v = m) as <-.
    { destruct (minimax_value_sound _ _ b true d NegInf PosInf v m Hwf eq_refl
                  (Hv _ (Nat.le_refl _)) (Hm _ (Nat.le_refl _))) as (_ & _ & Hin).
      apply Hin; reflexivity. }
    exists b, v. split; [exact Hread|]. intros fuel Hfuel. unfold eval_at_depth.
    rewrite Hread. cbn [mbind option_bind]. split; [apply Hv|apply Hm]; exact Hfuel.
  - intros Hs fuel. unfold eval_at_depth. now rewrite (Hbad Hs).
Qed.

Lemma eval_at_depth_spec_witness :
  ∃ b v, read_boardstring (fst (print_board opening [])) = Some b
         ∧ ∀ fuel, (2 * Z.to_nat 1 + 1 ≤ fuel)%nat →
             eval_at_depth fuel (fst (print_board opening [])) 1 = Some v
             ∧ exhaustive_value fuel b true 1 = Some v.
Proof.
  apply (proj1 (eval_at_depth_spec (fst (print_board opening [])) 1 ltac:(lia))).
  split.
  - vm_compute. lia.
  - vm_compute. repeat constructor.
Defined.

(** ** The loops of the move rules end *)

(** X11. The scanning loop of [captures_in_dir] ends: from any cell,
    along each of the 8 directions and on any board, it returns within
    [NUM_COLS + 1] tests of its condition, and a larger bound gives the
    same answer. *)
Theorem captures_in_dir_scan_ends (b : Board) (dr dc f sr sc : Z) (fuel : nat) :
  In (dr, dc) DIRECTIONS → (scan_fuel ≤ fuel)%nat →
  ∃ r, scan_loop scan_fuel b sr sc dr dc f = Some r
       ∧ scan_loop fuel b sr sc dr dc f = Some r.
Proof.
  intros Hd Hle.
  assert (is_Some (scan_loop scan_fuel b sr sc dr dc f)) as [r Hr].
  { destruct (on_board sr && on_board sc) eqn:Hon.
    - apply andb_true_iff in Hon as [Hr Hc]. apply on_board_spec in Hr, Hc.
      apply scan_loop_terminates. apply direction_cases in Hd.
      unfold scan_fuel, NUM_COLS in *. lia.
    - unfold scan_fuel. cbn [scan_loop]. rewrite Hon. by eexists. }
  exists r. split; [exact Hr|]. exact (scan_loop_mono b dr dc f _ _ sr sc r Hle Hr).
Qed.

Lemma captures_in_dir_scan_ends_witness :
  ∃ r, scan_loop scan_fuel opening 4 4 1 0 WHITE = Some r
       ∧ scan_loop 20 opening 4 4 1 0 WHITE = Some r.
Proof.
  apply (captures_in_dir_scan_ends opening 1 0 WHITE 4 4 20).
  - vm_compute. tauto.
  - unfold scan_fuel. vm_compute. lia.
Defined.



(** ** The interactive game: the choice of the player *)

Lemma player_rows_stdin (b : Board) (moves : list (Z * Z)) (rows : list Z) (w : World) :
  stdin (player_rows b moves rows w) = stdin w.
Proof.
  revert w. induction rows as [|row rows IH]; intros w; [reflexivity|].
  cbn [player_rows]. now rewrite IH.
Qed.

Section ConsoleProofs.
Variable py_int : list ascii → option Z.

(** The loop skips the lines it does not accept and returns at the
    first one it accepts. *)
Lemma ask_move_returns (moves : list (Z * Z)) (pre : list (list ascii))
    (choice : list ascii) (post : list (list ascii)) (k : Z) :
  Forall (λ line, valid_choice py_int moves line = false) pre →
  py_int choice = Some k → 0 ≤ k < Z.of_nat (length moves) →
  ∀ out, ∃ m out',
    ask_move py_int moves (pre ++ choice :: post) out = (mkWorld post out', Returned m)
    ∧ moves !! Z.to_nat k = Some m.
Proof.
  intros Hpre Hint Hk. induction Hpre as [|line pre Hline _ IH]; intros out.
  - cbn [app ask_move]. rewrite Hint.
    replace ((0 <=? k) && (k <? Z.of_nat (length moves))) with true
      by (symmetry; apply andb_true_iff; lia).
    destruct (moves !! Z.to_nat k) as [m|] eqn:Hm.
    + exists m. eexists. split; reflexivity.
    + apply lookup_ge_None in Hm. lia.
  - cbn [app ask_move]. unfold valid_choice in Hline.
    destruct (py_int line) as [n|]; [rewrite Hline|]; apply IH.
Qed.

(** When no line is accepted, [input] ends the call with [EOFError]. *)
Lemma ask_move_eof (moves : list (Z * Z)) (inputs : list (list ascii)) :
  Forall (λ line, valid_choice py_int moves line = false) inputs →
  ∀ out, ∃ out', ask_move py_int moves inputs out = (mkWorld [] out', Raised EOFError).
Proof.
  intros Hall. induction Hall as [|line inputs Hline _ IH]; intros out.
  - cbn [ask_move]. eexists. reflexivity.
  - cbn [ask_move]. unfold valid_choice in Hline.
    destruct (py_int line) as [n|]; [rewrite Hline|]; apply IH.
Qed.



End ConsoleProofs.

(** X13. On a board of colours, for any list of moves and any input:
    [get_player_move] skips every line that is no integer or an integer
    out of range, and returns at the first line that is an integer [k]
    with [0 <= k < len(legal_moves)], with the move [legal_moves[k]],
    the later lines left unread; when no line is accepted it ends with
    the [EOFError] of [input], all input read. *)
Theorem get_player_move_spec (py_int : list ascii → option Z) (b : Board)
    (moves : list (Z * Z)) (w : World) :
  wf_board b →
  (∀ pre choice post k,
     stdin w = pre ++ choice :: post →
     Forall (λ line, valid_choice py_int moves line = false) pre →
     py_int choice = Some k → 0 ≤ k < Z.of_nat (length moves) →
     ∃ m out, get_player_move py_int b moves w = (mkWorld post out, Returned m)
              ∧ moves !! Z.to_nat k = Some m)
  ∧ (Forall (λ line, valid_choice py_int moves line = false) (stdin w) →
     ∃ out, get_player_move py_int b moves w = (mkWorld [] out, Raised EOFError)).
Proof.
  intros _. split.
  - intros pre choice post k Hin Hpre Hint Hk.
    unfold get_player_move. rewrite player_rows_stdin, Hin.
    destruct (ask_move_returns py_int moves pre choice post k Hpre Hint Hk
                (stdout (player_rows b moves (range NUM_COLS) w))) as (m & out & Heq & Hm).
    exists m, out. split; [exact Heq|exact Hm].
  - intros Hall. unfold get_player_move. rewrite player_rows_stdin.
    apply ask_move_eof. exact Hall.
Qed.

Lemma get_player_move_spec_witness :
  wf_board opening
  ∧ ∃ m out,
      get_player_move (λ s, if decide (s = ["1"%char]) then Some 1 else None) opening
        (generate_legal_moves opening false)
        (mkWorld [["x"%char]; ["1"%char]; ["0"%char]] [])
      = (mkWorld [["0"%char]] out, Returned m)
      ∧ generate_legal_moves opening false !! Z.to_nat 1 = Some m.
Proof.
  split; [vm_compute; reflexivity|].
  apply (proj1 (get_player_move_spec
                  (λ s, if decide (s = ["1"%char]) then Some 1 else None) opening
                  (generate_legal_moves opening false)
                  (mkWorld [["x"%char]; ["1"%char]; ["0"%char]] [])
                  ltac:(vm_compute; reflexivity))
               [["x"%char]] ["1"%char] [["0"%char]] 1).
  - reflexivity.
  - constructor; [vm_compute; reflexivity|constructor].
  - reflexivity.
  - vm_compute. split; [discriminate|reflexivity].
Defined.

(** ** The game loop *)










